(** * karpenter-core: instance-type overhead, requirements, scheduler limits
      and node-claim lifecycle

    A shallow embedding of the parts of the provisioning controller that
    the specification makes quantitative or state-machine statements about:

    - [Resource]      : [resource.Quantity] and [v1.ResourceList];
    - [CloudProvider] : pkg/cloudprovider/helper.go and overhead.go;
    - [Requirements]  : pkg/scheduling/requirements.go;
    - [Scheduling]    : the scheduler ([Scheduler.add], [subtractMax],
                        [filterByRemainingResources], [ExistingNode.Add]);
    - [Lifecycle]     : the launch, launch-timeout, registration and liveness
                        reconcilers;
    - [Eviction]      : the eviction queue of the node terminator;
    - [NodePool]      : [Limits.ExceededBy].

    Go's [float64] is modelled by the IEEE-754 binary64 operations of the
    Standard Library ([SpecFloat], precision 53, emax 1024), Go's
    [int64]/[int32] by [Z] with the wrap-around written out, Go maps by
    stdpp's [gmap]. *)

From Stdlib Require Import ZArith Lia Floats.
From stdpp Require Import base option list strings gmap fin_maps sorting.

#[local] Set Warnings "-register-all".

Local Open Scope Z_scope.

(** ** Machine integers *)

Module Int.

Definition min_int64 : Z := - 2 ^ 63.
Definition max_int64 : Z := 2 ^ 63 - 1.

(** The value an [int64] computation yields: two's complement wrap-around. *)
Definition wrap64 (z : Z) : Z := (z + 2 ^ 63) mod 2 ^ 64 - 2 ^ 63.

Definition in_int64 (z : Z) : Prop := min_int64 <= z <= max_int64.
Definition in_int32 (z : Z) : Prop := - 2 ^ 31 <= z <= 2 ^ 31 - 1.

End Int.


(** ** float64 *)

Module F64.

(** A [float64] value and the correctly rounded (nearest-even) operations
    on it. *)
Abbreviation float64 := spec_float.

Definition mul (x y : float64) : float64 := SF64mul x y.
Definition div (x y : float64) : float64 := SF64div x y.
Definition eqb (x y : float64) : bool := SFeqb x y.

(** [float64(n)] for an integer [n]. *)
Definition of_int (n : Z) : float64 := binary_normalize prec emax n 0 false.

(** [int64(f)]: truncation towards zero.  (Go leaves the conversion of a
    NaN, an infinity or an out-of-range value implementation-defined; the
    callers below never produce one.) *)
Definition to_int64 (f : float64) : Z :=
  match f with
  | S754_finite s m e =>
      let a := if 0 <=? e then Z.pos m * 2 ^ e else Z.pos m / 2 ^ (- e) in
      if s then - a else a
  | _ => 0
  end.

(** The integer [math.Ceil f] denotes; [None] for a NaN or an infinity. *)
Definition ceil (f : float64) : option Z :=
  match f with
  | S754_zero _ => Some 0
  | S754_finite s m e =>
      if 0 <=? e then Some ((if s then - Z.pos m else Z.pos m) * 2 ^ e)
      else if s then Some (- (Z.pos m / 2 ^ (- e)))
      else Some ((Z.pos m + 2 ^ (- e) - 1) / 2 ^ (- e))
  | _ => None
  end.

(** The float64 constants of overhead.go (the doubles nearest to the
    decimal literals) and [math.Pow10 (-9)]. *)
Definition c0_06 : float64 := S754_finite false 8646911284551352 (-57).
Definition c0_01 : float64 := S754_finite false 5764607523034235 (-59).
Definition c0_005 : float64 := S754_finite false 5764607523034235 (-60).
Definition c0_0025 : float64 := S754_finite false 5764607523034235 (-61).
Definition c100 : float64 := of_int 100.
Definition c1e_9 : float64 := S754_finite false 4835703278458517 (-82).

End F64.

(** ** Quantities and resource lists *)

Module Resource.

(** [resource.Quantity] is a fixed-point decimal number.  The parser keeps
    at most nine fractional digits, and [Add]/[Sub]/[Cmp] are exact (they
    fall back to arbitrary precision), so a quantity is modelled as the
    integer number of nano-units it denotes. *)
Abbreviation Quantity := Z.

Definition nano : Z := 10 ^ 9.
Definition micro : Z := 10 ^ 6.

(** [resource.NewQuantity n] and [resource.NewMilliQuantity n]. *)
Definition NewQuantity (n : Z) : Quantity := n * nano.
Definition NewMilliQuantity (n : Z) : Quantity := n * micro.

(** Binary suffixes of [resource.MustParse]. *)
Definition Mi (n : Z) : Quantity := NewQuantity (n * 2 ^ 20).
Definition Gi (n : Z) : Quantity := NewQuantity (n * 2 ^ 30).

(** Scaling rounds away from zero ([Value], [MilliValue], [ScaledValue]). *)
Definition round_away (q d : Z) : Z :=
  if 0 <=? q then (q + d - 1) / d else - ((- q + d - 1) / d).

Definition Value (q : Quantity) : Z := round_away q nano.
Definition MilliValue (q : Quantity) : Z := round_away q micro.

Definition Cmp (a b : Quantity) : comparison := a ?= b.

(** [AsApproximateFloat64]: a quantity holding a whole number of units is
    stored with scale 0 and converts as [float64(value)]; a fractional one
    converts as [float64(value) * math.Pow10(scale)], taken here at the nano
    scale. *)
Definition AsApproximateFloat64 (q : Quantity) : F64.float64 :=
  if q mod nano =? 0 then F64.of_int (q / nano)
  else F64.mul (F64.of_int q) F64.c1e_9.

(** [v1.ResourceList]: resource name to quantity.  Reading a missing key of
    a Go map yields the zero quantity. *)
Abbreviation ResourceList := (gmap string Quantity).

Definition get (rl : ResourceList) (k : string) : Quantity := default 0 (rl !! k).

Definition ResourceCPU : string := "cpu".
Definition ResourceMemory : string := "memory".
Definition ResourcePods : string := "pods".
Definition ResourceEphemeralStorage : string := "ephemeral-storage".

(** [lo.Assign a b]: a fresh map holding [a] overwritten by [b]. *)
Definition Assign {V} (a b : gmap string V) : gmap string V := b ∪ a.

End Resource.

(** ** pkg/cloudprovider *)

Module CloudProvider.
Import Int Resource.

(** The fields of [v1alpha5.KubeletConfiguration] that helper.go reads.
    Pointer fields are options; [ptr.Int32Value nil = 0]. *)
Record KubeletConfiguration := {
  MaxPods : option Z;
  PodsPerCore : option Z;
  SystemReservedCfg : option ResourceList;
  KubeReservedCfg : option ResourceList;
  EvictionHard : option (gmap string string);
  EvictionSoft : option (gmap string string);
}.

Definition Int32Value (p : option Z) : Z := default 0 p.

Record OverheadT := {
  SystemReservedO : ResourceList;
  KubeReservedO : ResourceList;
  EvictionSoftThresholdO : ResourceList;
  EvictionHardThresholdO : ResourceList;
}.

Record InstanceType := {
  Name : string;
  Capacity : ResourceList;
  Overhead : OverheadT;
}.

(** helper.go, [pods].  [lo.Min] of a two-element slice is [Z.min]; the
    product is an [int64] product; [resources.Quantity (fmt.Sprint count)]
    parses a decimal integer. *)
Definition pods (instanceType : InstanceType) (kc : option KubeletConfiguration) : Quantity :=
  match kc with
  | None => get (Capacity instanceType) ResourcePods
  | Some kc =>
      let p := get (Capacity instanceType) ResourcePods in
      let count := Value p in
      let count := match MaxPods kc with
                   | Some m => m
                   | None => count
                   end in
      let count :=
        if 0 <? Int32Value (PodsPerCore kc) then
          let cpus := get (Capacity instanceType) ResourceCPU in
          Z.min (wrap64 (Int32Value (PodsPerCore kc) * Value cpus)) count
        else count in
      NewQuantity count
  end.


(** The two parsers overhead.go calls: [functional.ParsePercentage] (its
    source is not part of this tree) and apimachinery's
    [resource.ParseQuantity].  [None] is a parse error, on which [lo.Must]
    and [resource.MustParse] panic. *)
Class Parsers := {
  ParsePercentage : string -> option F64.float64;
  ParseQuantity : string -> option Quantity;
}.

(** [strings.HasSuffix]. *)
Fixpoint HasSuffix (s suffix : string) : bool :=
  if String.eqb s suffix then true
  else match s with
       | EmptyString => false
       | String _ s' => HasSuffix s' suffix
       end.

(** [resource.MustParse (fmt.Sprint (math.Ceil x))]: the ceiling is an
    integral double, printed in its shortest decimal form and parsed back
    exactly (below 2^53 the round trip is the identity); a NaN or an
    infinity does not parse. *)
Definition MustParseCeil (x : F64.float64) : option Quantity :=
  NewQuantity <$> F64.ceil x.

(** overhead.go, [ComputeThreshold]. *)
Definition ComputeThreshold `{Parsers} (base : Quantity) (v : string) : option Quantity :=
  if HasSuffix v "%" then
    p ← ParsePercentage v;
    let p := if F64.eqb p F64.c100 then F64.of_int 0 else p in
    MustParseCeil (F64.mul (F64.div (AsApproximateFloat64 base) F64.c100) p)
  else ParseQuantity v.

(** overhead.go, [SystemReserved]. *)
Definition SystemReserved : ResourceList :=
  {[ ResourceCPU := NewMilliQuantity 100;
     ResourceMemory := Mi 100;
     ResourceEphemeralStorage := Gi 1 ]}.

(** The four [cpuRange] entries: start, end, percentage. *)
Definition cpuRanges : list (Z * Z * F64.float64) :=
  [ (0, 1000, F64.c0_06);
    (1000, 2000, F64.c0_01);
    (2000, 4000, F64.c0_005);
    (4000, 2 ^ 31, F64.c0_0025) ].

(** One iteration of the loop of [KubeReserved]. *)
Definition cpuRangeStep (cpus : Quantity) (resources : ResourceList)
    (cpuRange : Z * Z * F64.float64) : ResourceList :=
  let '(start, end_, percentage) := cpuRange in
  let cpu := MilliValue cpus in
  if start <=? cpu then
    let r := F64.of_int (end_ - start) in
    let r := if cpu <? end_ then F64.of_int (cpu - start) else r in
    let cpuOverhead := get resources ResourceCPU in
    <[ ResourceCPU :=
         cpuOverhead + NewMilliQuantity (F64.to_int64 (F64.mul r percentage)) ]> resources
  else resources.

(** overhead.go, [KubeReserved]. *)
Definition KubeReserved (pods cpus : Quantity) : ResourceList :=
  let resources : ResourceList :=
    {[ ResourceMemory := Mi (wrap64 (11 * Value pods + 255));
       ResourceEphemeralStorage := Gi 1 ]} in
  fold_left (cpuRangeStep cpus) cpuRanges resources.

(** overhead.go, [EvictionHardThreshold]. *)
Definition EvictionHardThreshold `{Parsers} (storage : Quantity) : option ResourceList :=
  t ← ComputeThreshold storage "10%";
  Some ({[ ResourceMemory := Mi 100; ResourceEphemeralStorage := t ]} : ResourceList).

Definition EvictionSignalMemoryAvailable : string := "memory.available".
Definition EvictionSignalNodeFSAvailable : string := "nodefs.available".

(** The override map built by [evictionHardThreshold] and
    [evictionSoftThreshold] from the configured signals. *)
Definition thresholdOverride `{Parsers} (instanceType : InstanceType)
    (signals : gmap string string) : option ResourceList :=
  o1 ← match signals !! EvictionSignalMemoryAvailable with
       | Some v =>
           t ← ComputeThreshold (get (Capacity instanceType) ResourceMemory) v;
           Some ({[ ResourceMemory := t ]} : ResourceList)
       | None => Some ∅
       end;
  match signals !! EvictionSignalNodeFSAvailable with
  | Some v =>
      t ← ComputeThreshold (get (Capacity instanceType) ResourceEphemeralStorage) v;
      Some (<[ ResourceEphemeralStorage := t ]> o1)
  | None => Some o1
  end.

(** helper.go, [evictionHardThreshold]. *)
Definition evictionHardThreshold `{Parsers} (instanceType : InstanceType)
    (kc : option KubeletConfiguration) : option ResourceList :=
  base ← EvictionHardThreshold (get (Capacity instanceType) ResourceEphemeralStorage);
  match kc ≫= EvictionHard with
  | None => Some base
  | Some signals =>
      override ← thresholdOverride instanceType signals;
      Some (Assign base override)
  end.

(** helper.go, [evictionSoftThreshold]. *)
Definition evictionSoftThreshold `{Parsers} (instanceType : InstanceType)
    (kc : option KubeletConfiguration) : option ResourceList :=
  match kc ≫= EvictionSoft with
  | None => Some (EvictionSoftThresholdO (Overhead instanceType))
  | Some signals =>
      override ← thresholdOverride instanceType signals;
      Some (Assign (EvictionSoftThresholdO (Overhead instanceType)) override)
  end.


(** helper.go, [systemReservedResources]. *)
Definition systemReservedResources (instanceType : InstanceType)
    (kc : option KubeletConfiguration) : ResourceList :=
  match kc ≫= SystemReservedCfg with
  | None => SystemReserved
  | Some systemReserved => Assign SystemReserved systemReserved
  end.

(** helper.go, [kubeReservedResources]. *)
Definition kubeReservedResources (instanceType : InstanceType)
    (kc : option KubeletConfiguration) : ResourceList :=
  let kubeReserved :=
    KubeReserved (pods instanceType kc) (get (Capacity instanceType) ResourceCPU) in
  match kc ≫= KubeReservedCfg with
  | None => kubeReserved
  | Some override => Assign kubeReserved override
  end.

(** helper.go, the body of the loop of [populateOverhead]; [None] when a
    threshold value does not parse (the Go code panics). *)
Definition populateOverhead1 `{Parsers} (kc : option KubeletConfiguration)
    (instanceType : InstanceType) : option InstanceType :=
  let systemReserved := systemReservedResources instanceType kc in
  let kubeReserved := kubeReservedResources instanceType kc in
  soft ← evictionSoftThreshold instanceType kc;
  hard ← evictionHardThreshold instanceType kc;
  Some {| Name := Name instanceType;
          Capacity := <[ ResourcePods := pods instanceType kc ]> (Capacity instanceType);
          Overhead := {| SystemReservedO := systemReserved;
                         KubeReservedO := kubeReserved;
                         EvictionSoftThresholdO := soft;
                         EvictionHardThresholdO := hard |} |}.

(** helper.go, [populateOverhead]. *)
Definition populateOverhead `{Parsers} (instanceTypes : list InstanceType)
    (kc : option KubeletConfiguration) : option (list InstanceType) :=
  mapM (populateOverhead1 kc) instanceTypes.

(** A concrete parser pair for evaluating the functions on literal inputs:
    whole-number percentages ["N%"] and the quantity forms ["N"], ["NMi"]
    and ["NGi"]. *)
Definition digit_of (c : Ascii.ascii) : option Z :=
  let n := Z.of_N (Ascii.N_of_ascii c) in
  if (48 <=? n) && (n <=? 57) then Some (n - 48) else None.

Fixpoint parse_digits (s : string) (acc : option Z) : option Z :=
  match s with
  | EmptyString => acc
  | String c s' =>
      match digit_of c with
      | Some d => parse_digits s' (Some (10 * default 0 acc + d))
      | None => None
      end
  end.

Fixpoint split_digits (s : string) : string * string :=
  match s with
  | EmptyString => (EmptyString, EmptyString)
  | String c s' =>
      match digit_of c with
      | Some _ => let '(d, rest) := split_digits s' in (String c d, rest)
      | None => (EmptyString, s)
      end
  end.

Definition parse_percent (v : string) : option F64.float64 :=
  let '(d, rest) := split_digits v in
  if String.eqb rest "%" then F64.of_int <$> parse_digits d None else None.

Definition parse_quantity (v : string) : option Quantity :=
  let '(d, rest) := split_digits v in
  n ← parse_digits d None;
  if String.eqb rest "" then Some (NewQuantity n)
  else if String.eqb rest "Mi" then Some (Mi n)
  else if String.eqb rest "Gi" then Some (Gi n)
  else None.

Definition decimalParsers : Parsers :=
  {| ParsePercentage := parse_percent; ParseQuantity := parse_quantity |}.

(** The cpu that [KubeReserved] reserves, in millicores, for [c] millicores
    of capacity: each range contributes the whole millicores of its
    percentage, and the last range ends at 2^31 millicores. *)
Definition kubeReservedCPU (c : Z) : Z :=
  6 * Z.min c 1000 / 100
  + (if 1000 <=? c then (Z.min c 2000 - 1000) / 100 else 0)
  + (if 2000 <=? c then (Z.min c 4000 - 2000) / 200 else 0)
  + (if 4000 <=? c then (Z.min c (2 ^ 31) - 4000) / 400 else 0).

(** The kube-reserved cpu as the specification words it, exactly: 6% of
    the first 1000 millicores, 1% of the next 1000, 0.5% of the next 2000
    and 0.25% of the rest (a quantity, in nano-units: 6% of a millicore is
    60000 of them). *)
Definition spec_kube_cpu (c : Z) : Quantity :=
  60000 * Z.max 0 (Z.min c 1000)
  + 10000 * Z.max 0 (Z.min c 2000 - 1000)
  + 5000 * Z.max 0 (Z.min c 4000 - 2000)
  + 2500 * Z.max 0 (c - 4000).

(** [int64(float64(r) * percentage)], the contribution of one range. *)
Definition truncMul (r : Z) (percentage : F64.float64) : Z :=
  F64.to_int64 (F64.mul (F64.of_int r) percentage).

(** A decidable check of a truncation law on a whole range. *)
Definition truncMulAgrees (percentage : F64.float64) (f : Z -> Z) (len : Z) : bool :=
  forallb (fun r => truncMul r percentage =? f r) (seqZ 0 len).

(** The threshold as the specification words it: the ceiling of
    [C * p / 100], and 0 for [p = 100]. *)
Definition spec_threshold (C p : Z) : Z :=
  if p =? 100 then 0 else (C * p + 99) / 100.

(** The pods ceiling as the specification words it: the minimum of the
    intrinsic ceiling, [max_pods] when set, and [pods_per_core * vcpus]
    when [pods_per_core > 0]. *)
Definition spec_pods (intrinsic vcpus : Z) (max_pods pods_per_core : option Z) : Z :=
  let m := intrinsic in
  let m := match max_pods with Some x => Z.min m x | None => m end in
  match pods_per_core with
  | Some c => if 0 <? c then Z.min m (c * vcpus) else m
  | None => m
  end.

Definition mkInstanceType (name : string) (cpu pods_cap : Z) : InstanceType :=
  {| Name := name;
     Capacity := {[ ResourceCPU := NewQuantity cpu; ResourcePods := NewQuantity pods_cap ]};
     Overhead := {| SystemReservedO := ∅; KubeReservedO := ∅;
                    EvictionSoftThresholdO := ∅; EvictionHardThresholdO := ∅ |} |}.

Definition kubelet (max_pods pods_per_core : option Z) : KubeletConfiguration :=
  {| MaxPods := max_pods; PodsPerCore := pods_per_core;
     SystemReservedCfg := None; KubeReservedCfg := None;
     EvictionHard := None; EvictionSoft := None |}.

(** An instance type with 4Gi of memory and 1000 bytes of storage, and a
    kubelet configuration whose only hard eviction signal is
    memory.available = 200Mi. *)
Definition storageInstanceType : InstanceType :=
  {| Name := "m";
     Capacity := {[ ResourceMemory := Gi 4; ResourceEphemeralStorage := NewQuantity 1000 ]};
     Overhead := {| SystemReservedO := ∅; KubeReservedO := ∅;
                    EvictionSoftThresholdO := ∅; EvictionHardThresholdO := ∅ |} |}.

Definition memoryHardKubelet : KubeletConfiguration :=
  {| MaxPods := None; PodsPerCore := None; SystemReservedCfg := None;
     KubeReservedCfg := None;
     EvictionHard := Some {[ EvictionSignalMemoryAvailable := "200Mi" ]};
     EvictionSoft := None |}.

End CloudProvider.

(** ** pkg/scheduling/requirements.go *)

Module Requirements.

(** [v1.NodeSelectorOperator]. *)
Inductive NodeSelectorOperator :=
  | OpIn | OpNotIn | OpExists | OpDoesNotExist | OpGt | OpLt.

Global Instance NodeSelectorOperator_eq_dec : EqDecision NodeSelectorOperator.
Proof. solve_decision. Defined.

(** The [Requirement] type lives in requirement.go, which is not part of
    this tree; requirements.go uses it through these operations only. *)
Class RequirementOps := {
  Requirement : Type;
  Key : Requirement -> string;
  Operator : Requirement -> NodeSelectorOperator;
  Len : Requirement -> Z;
  Intersection : Requirement -> Requirement -> Requirement;
  NewRequirement : string -> NodeSelectorOperator -> list string -> Requirement;
  (** [Requirement.Any]: some value the requirement allows, [""] if none. *)
  Any : Requirement -> string;
  (** [v1alpha5.WellKnownLabels], a package-level set, and
      [v1alpha5.IsRestrictedNodeLabel]. *)
  WellKnownLabels : gset string;
  IsRestrictedNodeLabel : string -> bool;
  (** The text [labelHint] appends to a message (it ranges over Go maps, so
      which typo suggestion it picks is not determined). *)
  labelHint : gmap string Requirement -> string -> string;
}.

(** [type Requirements map[string]*Requirement] and
    [type FlexibleRequirements []Requirements] *)
Abbreviation RequirementsT := (gmap string Requirement).
Abbreviation FlexibleRequirementsT := (list (gmap string Requirement)).
Abbreviation NodeSelectorRequirementT := (string * NodeSelectorOperator * list string)%type.

Section WithRequirement.
Context `{RequirementOps}.


(** The errors [Compatible] and [Intersects] build with [fmt.Errorf]; the
    fields are the format arguments.  A [multierr] value is the list of the
    errors appended to it, [nil] being the empty list. *)
Inductive CompatError :=
  | ErrLabelUnknown (key : string) (hint : string)
  | ErrNotIn (key : string) (incoming existing : Requirement).

Definition err_key (e : CompatError) : string :=
  match e with
  | ErrLabelUnknown k _ => k
  | ErrNotIn k _ _ => k
  end.

(** One iteration of [Requirements.Add]. *)
Definition Add1 (r : RequirementsT) (requirement : Requirement) : RequirementsT :=
  let requirement :=
    match r !! Key requirement with
    | Some existing => Intersection requirement existing
    | None => requirement
    end in
  <[ Key requirement := requirement ]> r.

Definition Add (r : RequirementsT) (requirements : list Requirement) : RequirementsT :=
  fold_left Add1 requirements r.

Definition NewRequirements (requirements : list Requirement) : RequirementsT :=
  Add ∅ requirements.

(** [NewNodeSelectorRequirements], on (key, operator, values) triples. *)
Definition NewNodeSelectorRequirements
    (requirements : list (string * NodeSelectorOperator * list string)) : RequirementsT :=
  fold_left (fun r '(k, op, vs) => Add r [NewRequirement k op vs]) requirements (NewRequirements []).

Definition Keys (r : RequirementsT) : gset string := dom r.

(** [lo.Values]; Go leaves the order open, the model takes the map's own. *)
Definition Values (r : RequirementsT) : list Requirement := (map_to_list r).*2.

(** [NewLabelRequirements]. *)
Definition NewLabelRequirements (labels : gmap string string) : RequirementsT :=
  fold_left (fun r '(k, v) => Add r [NewRequirement k OpIn [v]]) (map_to_list labels) (NewRequirements []).

Definition Has (r : RequirementsT) (key : string) : bool := bool_decide (is_Some (r !! key)).

Definition Get (r : RequirementsT) (key : string) : Requirement :=
  match r !! key with
  | Some req => req
  | None => NewRequirement key OpExists []
  end.

Definition negative (op : NodeSelectorOperator) : bool :=
  bool_decide (op = OpNotIn) || bool_decide (op = OpDoesNotExist).

(** One iteration of the loop of [Intersects]; [None] is [continue]. *)
Definition intersects1 (r requirements : RequirementsT) (key : string) : option CompatError :=
  let existing := Get r key in
  let incoming := Get requirements key in
  if Len (Intersection existing incoming) =? 0 then
    if negative (Operator incoming) && negative (Operator existing) then None
    else Some (ErrNotIn key incoming existing)
  else None.

Definition Intersects (r requirements : RequirementsT) : list CompatError :=
  omap (intersects1 r requirements) (elements (Keys r ∩ Keys requirements)).

(** One iteration of the first loop of [Compatible]. *)
Definition compatible1 (r requirements : RequirementsT) (key : string) : option CompatError :=
  let operator := Operator (Get requirements key) in
  if Has r key || bool_decide (operator = OpNotIn) || bool_decide (operator = OpDoesNotExist)
  then None
  else Some (ErrLabelUnknown key (labelHint r key)).

Definition Compatible (r requirements : RequirementsT) : list CompatError :=
  omap (compatible1 r requirements) (elements (Keys requirements ∖ WellKnownLabels))
  ++ Intersects r requirements.


Definition NewFlexibleRequirements (flexible : list RequirementsT) : FlexibleRequirementsT :=
  match flexible with
  | [] => [NewNodeSelectorRequirements []]
  | _ => flexible
  end.

Definition FlexibleAdd (r : FlexibleRequirementsT) (requirements : list Requirement)
    : FlexibleRequirementsT :=
  (fun req => Add req requirements) <$> r.

(** [FlexibleCompatible]: [inl tt] is the "flexible requirements are
    incompatible with requirements" error. *)
Definition FlexibleCompatible (r : RequirementsT) (requirements : FlexibleRequirementsT)
    : unit + FlexibleRequirementsT :=
  let newReqs := filter (fun reqs => Compatible r reqs = []) requirements in
  match newReqs with
  | [] => inl tt
  | _ => inr newReqs
  end.

(** [Requirements.Labels]. *)
Definition Labels (r : RequirementsT) : gmap string string :=
  omap (fun requirement =>
          let value := Any requirement in
          if String.eqb value "" then None else Some value)
       (filter (fun kv => IsRestrictedNodeLabel kv.1 = false) r).

(** The parts of a pod's spec [NewPodRequirements] reads.  A node selector
    requirement is a (key, operator, values) triple, a term the list of its
    match expressions. *)

Record NodeAffinityT := {
  RequiredDuringScheduling : option (list (list NodeSelectorRequirementT));
  PreferredDuringScheduling : list (Z * list NodeSelectorRequirementT);
}.

Record PodSpecView := {
  NodeSelector : gmap string string;
  NodeAffinity : option NodeAffinityT;
}.

(** The head of [preferred] after [sort.Slice] by descending weight: a term
    of greatest weight (the first such, [sort.Slice] not being stable). *)
Definition heaviest (preferred : list (Z * list NodeSelectorRequirementT))
    : option (Z * list NodeSelectorRequirementT) :=
  fold_left (fun best x =>
               match best with
               | Some b => if b.1 <? x.1 then Some x else Some b
               | None => Some x
               end) preferred None.

(** [NewPodRequirements]. *)
Definition NewPodRequirements (pod : PodSpecView) (ignorePreferred : bool) : FlexibleRequirementsT :=
  let requirements := NewLabelRequirements (NodeSelector pod) in
  match NodeAffinity pod with
  | None => FlexibleAdd (NewFlexibleRequirements []) (Values requirements)
  | Some affinity =>
      let flexibleRequirements :=
        match RequiredDuringScheduling affinity with
        | Some terms => NewFlexibleRequirements (NewNodeSelectorRequirements <$> terms)
        | None => NewFlexibleRequirements []
        end in
      let flexibleRequirements := FlexibleAdd flexibleRequirements (Values requirements) in
      if ignorePreferred then flexibleRequirements
      else match heaviest (PreferredDuringScheduling affinity) with
           | Some (_, preference) =>
               FlexibleAdd flexibleRequirements (Values (NewNodeSelectorRequirements preference))
           | None => flexibleRequirements
           end
  end.

(** Every requirement of [r] is stored under its own key. *)
Definition keyed (r : RequirementsT) : Prop :=
  forall k v, r !! k = Some v -> Key v = k.

End WithRequirement.

(** [editDistance]'s local [min]. *)
Definition min3 (a b c : Z) : Z :=
  let m := a in
  let m := if b <? m then b else m in
  if c <? m then c else m.

(** Reading a row of [editDistance] at an index below its length. *)
Definition rowAt (row : list Z) (j : nat) : Z := default 0 (row !! j).

(** The inner loop of [editDistance], for row [i]: [j] runs from 1 to
    [n - 1] and writes [curRow[j]]. *)
Definition editRow (s t : string) (i : nat) (prevRow curRow : list Z) : list Z :=
  fold_left
    (fun curRow j =>
       let diff := if decide (String.get i s = String.get j t) then 0 else 1 in
       <[ j := min3 (rowAt prevRow j + 1) (rowAt curRow (j - 1) + 1)
                    (rowAt prevRow (j - 1) + diff) ]> curRow)
    (seq 1 (String.length t - 1)) curRow.

(** The outer loop: after each row the two slices are swapped. *)
Definition editRows (s t : string) (rows : list nat) (prevRow curRow : list Z)
    : list Z * list Z :=
  fold_left (fun '(prevRow, curRow) i => (editRow s t i prevRow curRow, prevRow))
            rows (prevRow, curRow).

(** requirements.go, [editDistance]; strings are byte sequences. *)
Definition editDistance (s t : string) : Z :=
  let m := String.length s in
  let n := String.length t in
  if (m =? 0)%nat then Z.of_nat n
  else if (n =? 0)%nat then Z.of_nat m
  else
    let prevRow := fold_left (fun row j => <[ j := Z.of_nat j ]> row)
                             (seq 1 (n - 1)) (replicate n 0) in
    let curRow := replicate n 0 in
    let '(prevRow, _) := editRows s t (seq 1 (m - 1)) prevRow curRow in
    rowAt prevRow (n - 1).

(** The entry the inner loop writes at [j]. *)
Definition cell (s t : string) (i : nat) (prevRow row : list Z) (j : nat) : Z :=
  min3 (rowAt prevRow j + 1) (rowAt row (j - 1) + 1)
       (rowAt prevRow (j - 1) + if decide (String.get i s = String.get j t) then 0 else 1).

(** A row of the table: as long as [t], zero in column 0, and between 0
    and [j] in column [j]. *)
Definition goodRow (n : nat) (row : list Z) : Prop :=
  length row = n /\ forall j, (j < n)%nat -> 0 <= rowAt row j <= Z.of_nat j.

(** Modelled from the spec: requirement.go is not in this tree.  Section
    4.2 gives a requirement as one of In{values}, NotIn{values}, Exists,
    DoesNotExist, Gt{n}, Lt{n}; this instance covers the four set operators
    in the usual complement-and-values form (In: the listed values; NotIn:
    everything but them; Exists: everything; DoesNotExist: nothing), and is
    used to evaluate the functions on literal inputs. *)
Record SetRequirement := {
  sr_key : string;
  sr_complement : bool;
  sr_values : gset string;
}.

Definition sr_len (r : SetRequirement) : Z :=
  if sr_complement r then Int.max_int64 - Z.of_nat (size (sr_values r))
  else Z.of_nat (size (sr_values r)).

Definition sr_operator (r : SetRequirement) : NodeSelectorOperator :=
  if sr_complement r then
    if sr_len r <? Int.max_int64 then OpNotIn else OpExists
  else
    if 0 <? sr_len r then OpIn else OpDoesNotExist.

Definition sr_intersection (a b : SetRequirement) : SetRequirement :=
  {| sr_key := sr_key a;
     sr_complement := sr_complement a && sr_complement b;
     sr_values :=
       match sr_complement a, sr_complement b with
       | true, true => sr_values a ∪ sr_values b
       | true, false => sr_values b ∖ sr_values a
       | false, true => sr_values a ∖ sr_values b
       | false, false => sr_values a ∩ sr_values b
       end |}.

Definition sr_new (key : string) (op : NodeSelectorOperator) (values : list string) : SetRequirement :=
  match op with
  | OpIn => {| sr_key := key; sr_complement := false; sr_values := list_to_set values |}
  | OpNotIn => {| sr_key := key; sr_complement := true; sr_values := list_to_set values |}
  | OpDoesNotExist => {| sr_key := key; sr_complement := false; sr_values := ∅ |}
  | _ => {| sr_key := key; sr_complement := true; sr_values := ∅ |}
  end.

Definition setRequirementOps : RequirementOps :=
  {| Requirement := SetRequirement;
     Key := sr_key;
     Operator := sr_operator;
     Len := sr_len;
     Intersection := sr_intersection;
     NewRequirement := sr_new;
     Any := fun r => if sr_complement r then "any"
                     else match elements (sr_values r) with v :: _ => v | [] => "" end;
     WellKnownLabels := {[ "topology.kubernetes.io/zone"; "kubernetes.io/arch" ]};
     IsRestrictedNodeLabel := fun k => String.eqb k "kubernetes.io/hostname";
     labelHint := fun _ _ => "" |}.

End Requirements.

(** ** pkg/utils/resources *)

Module Resources.
Import Resource.

(** Modelled from the spec: the package pkg/utils/resources is not in this
    tree.  The scheduler uses it for "the sum of requests" ([Merge]),
    capacity "minus" what is consumed ([Subtract], over the resources of the
    left operand), "resource fit against remaining allocatable" ([Fits]: no
    requested resource exceeds what is available) and "the element-wise
    maximum per resource" ([MaxResources]). *)
Definition Merge (a b : ResourceList) : ResourceList :=
  union_with (fun x y => Some (x + y)) a b.

Definition Subtract (lhs rhs : ResourceList) : ResourceList :=
  map_imap (fun k v => Some (v - get rhs k)) lhs.

Definition Fits (candidate total : ResourceList) : bool :=
  bool_decide (map_Forall (fun k q => q <= get total k) candidate).

Definition MaxResources (resources : list ResourceList) : ResourceList :=
  fold_left (union_with (fun x y => Some (Z.max x y))) resources ∅.

End Resources.

(** ** pkg/controllers/provisioning/scheduling *)

Module Scheduling.
Import Int Resource Resources Requirements.
Import CloudProvider (InstanceType, Capacity).

Definition LabelHostname : string := "kubernetes.io/hostname".

(** What the scheduler calls but this tree does not hold: taints, host-port
    and volume usage, the topology tracker, the in-flight node claim
    ([NodeClaim], [NewNodeClaim]), the pod queue and preference relaxation,
    and [nodepoolutil.OwnerName].  Go methods that mutate their receiver
    return the new value. *)
Class SchedOps `{RequirementOps} := {
  Pod : Type;
  PodUID : Pod -> string;
  PodSpec : Pod -> PodSpecView;
  ExtError : Type;
  TaintsT : Type;
  HostPortUsageT : Type;
  VolumeUsageT : Type;
  VolumeCountT : Type;
  TopologyT : Type;
  TemplateT : Type;
  NodeClaimT : Type;
  QueueT : Type;
  PreferencesT : Type;
  Tolerates : TaintsT -> Pod -> option ExtError;
  HostPortValidate : HostPortUsageT -> Pod -> option ExtError;
  HostPortAdd : HostPortUsageT -> Pod -> HostPortUsageT;
  VolumeValidate : VolumeUsageT -> Pod -> ExtError + VolumeCountT;
  VolumeExceeds : VolumeCountT -> VolumeCountT -> bool;
  VolumeAdd : VolumeUsageT -> Pod -> VolumeUsageT;
  RequestsForPods : list Pod -> ResourceList;
  FlexibleValues : FlexibleRequirementsT -> list Requirement;
  TopologyAddRequirements :
    TopologyT -> FlexibleRequirementsT -> RequirementsT -> Pod -> ExtError + RequirementsT;
  TopologyRecord : TopologyT -> Pod -> RequirementsT -> TopologyT;
  TopologyRegister : TopologyT -> string -> string -> TopologyT;
  TopologyUpdate : TopologyT -> Pod -> TopologyT;
  OwnerName : TemplateT -> string;
  NewNodeClaim :
    TemplateT -> TopologyT -> ResourceList -> list InstanceType -> NodeClaimT * TopologyT;
  NodeClaimAdd : NodeClaimT -> TopologyT -> Pod -> option ExtError * NodeClaimT * TopologyT;
  NodeClaimPods : NodeClaimT -> list Pod;
  InstanceTypeOptions : NodeClaimT -> list InstanceType;
  FinalizeScheduling : NodeClaimT -> NodeClaimT;
  NewQueue : list Pod -> QueueT;
  Pop : QueueT -> option (Pod * QueueT);
  Push : QueueT -> Pod -> bool -> QueueT;
  Relax : PreferencesT -> Pod -> bool * Pod;
}.

Section WithOps.
Context `{SchedOps}.

(** What [ExistingNode.Add] and [Scheduler.add] read of a [state.Node]
    (a deep copy of the cluster state's node). *)
Record StateNode := {
  snName : string;
  snHostName : string;
  snLabels : gmap string string;
  snTaints : TaintsT;
  snHostPortUsage : HostPortUsageT;
  snVolumeUsage : VolumeUsageT;
  snVolumeLimits : VolumeCountT;
  snAvailable : ResourceList;
  snCapacity : ResourceList;
  snDaemonSetRequests : ResourceList;
  snOwned : bool;
  snInitialized : bool;
}.

(** [type ExistingNode struct]; its [topology] pointer is the scheduler's
    one tracker, kept in the scheduler state and passed along. *)
Record ExistingNode := {
  Node : StateNode;
  Pods : list Pod;
  requests : ResourceList;
  requirements : RequirementsT;
}.

Inductive SchedError :=
  | ErrExternal (e : ExtError)
  | ErrVolumeLimits
  | ErrExceedsNodeResources
  | ErrFlexibleIncompatible
  | ErrCompatible (errs : list CompatError)
  | ErrExceedLimits (ownerName : string)
  | ErrIncompatibleWithProvisioner (ownerName : string) (daemonOverhead : ResourceList) (e : ExtError)
  | ErrMulti (errs : list SchedError).

(** [NewExistingNode]. *)
Definition NewExistingNode (n : StateNode) (topology : TopologyT) (daemonResources : ResourceList)
    : ExistingNode * TopologyT :=
  let remainingDaemonResources := Subtract daemonResources (snDaemonSetRequests n) in
  let remainingDaemonResources :=
    (fun v => if SFltb (AsApproximateFloat64 v) (S754_zero false) then 0 else v)
      <$> remainingDaemonResources in
  let node := {| Node := n; Pods := [];
                 requests := remainingDaemonResources;
                 requirements := NewLabelRequirements (snLabels n) |} in
  let node := {| Node := Node node; Pods := Pods node; requests := requests node;
                 requirements :=
                   Add (requirements node) [NewRequirement LabelHostname OpIn [snHostName n]] |} in
  (node, TopologyRegister topology LabelHostname (snHostName n)).

(** The node and the shared topology tracker are mutable objects; [Add]
    runs in a state monad over the pair, with errors. *)
Definition NodeState : Type := ExistingNode * TopologyT.
Definition M (A : Type) : Type := NodeState -> (SchedError + A) * NodeState.

Definition ret {A} (a : A) : M A := fun s => (inr a, s).
Definition bind {A B} (m : M A) (k : A -> M B) : M B :=
  fun s => match m s with
           | (inr a, s') => k a s'
           | (inl e, s') => (inl e, s')
           end.
Definition fail {A} (e : SchedError) : M A := fun s => (inl e, s).
Definition read {A} (f : NodeState -> A) : M A := fun s => (inr (f s), s).
Definition modify (f : NodeState -> NodeState) : M unit := fun s => (inr tt, f s).

Notation "'do' x <- m ; k" := (bind m (fun x => k))
  (at level 10, x name, m at level 100, k at level 200).
Notation "'check' m ; k" := (bind m (fun _ : unit => k))
  (at level 10, m at level 100, k at level 200).

Definition guardNone (o : option ExtError) : M unit :=
  match o with
  | Some e => fail (ErrExternal e)
  | None => ret tt
  end.

Definition orFail {A} (r : ExtError + A) : M A :=
  match r with
  | inl e => fail (ErrExternal e)
  | inr a => ret a
  end.

(** The six assignments under "Update node". *)
Definition updateNode (pod : Pod) (requests' : ResourceList) (nodeRequirements : RequirementsT)
    (s : NodeState) : NodeState :=
  let '(n, topology) := s in
  ({| Node := {| snName := snName (Node n);
                 snHostName := snHostName (Node n);
                 snLabels := snLabels (Node n);
                 snTaints := snTaints (Node n);
                 snHostPortUsage := HostPortAdd (snHostPortUsage (Node n)) pod;
                 snVolumeUsage := VolumeAdd (snVolumeUsage (Node n)) pod;
                 snVolumeLimits := snVolumeLimits (Node n);
                 snAvailable := snAvailable (Node n);
                 snCapacity := snCapacity (Node n);
                 snDaemonSetRequests := snDaemonSetRequests (Node n);
                 snOwned := snOwned (Node n);
                 snInitialized := snInitialized (Node n) |};
      Pods := Pods n ++ [pod];
      requests := requests';
      requirements := nodeRequirements |},
   TopologyRecord topology pod nodeRequirements).

(** [ExistingNode.Add]. *)
Definition ExistingNodeAdd (pod : Pod) : M unit :=
  do n <- read fst;
  check guardNone (Tolerates (snTaints (Node n)) pod);
  check guardNone (HostPortValidate (snHostPortUsage (Node n)) pod);
  do mountedVolumeCount <- orFail (VolumeValidate (snVolumeUsage (Node n)) pod);
  if VolumeExceeds mountedVolumeCount (snVolumeLimits (Node n)) then fail ErrVolumeLimits else
  let requests' := Merge (requests n) (RequestsForPods [pod]) in
  if negb (Fits requests' (snAvailable (Node n))) then fail ErrExceedsNodeResources else
  let nodeRequirements := NewRequirements (Values (requirements n)) in
  let podRequirements := NewPodRequirements (PodSpec pod) false in
  match FlexibleCompatible nodeRequirements podRequirements with
  | inl _ => fail ErrFlexibleIncompatible
  | inr reqs =>
      let nodeRequirements := Add nodeRequirements (FlexibleValues reqs) in
      do topology <- read snd;
      do topologyRequirements <- orFail (TopologyAddRequirements topology reqs nodeRequirements pod);
      match Compatible nodeRequirements topologyRequirements with
      | _ :: _ as errs => fail (ErrCompatible errs)
      | [] =>
          let nodeRequirements := Add nodeRequirements (Values topologyRequirements) in
          modify (updateNode pod requests' nodeRequirements)
      end
  end.

(** [subtractMax]. *)
Definition subtractMax (remaining : ResourceList) (instanceTypes : list InstanceType) : ResourceList :=
  match instanceTypes with
  | [] => remaining
  | _ =>
      let allInstanceResources := Capacity <$> instanceTypes in
      let itResources := MaxResources allInstanceResources in
      map_imap (fun k v => Some (v - get itResources k)) remaining
  end.

(** [filterByRemainingResources]; [resources.Cmp] is the quantities' [Cmp]. *)
Definition viableInstance (remaining : ResourceList) (it : InstanceType) : bool :=
  bool_decide (map_Forall
    (fun resourceName remainingQuantity =>
       Cmp (get (Capacity it) resourceName) remainingQuantity <> Gt) remaining).

Definition filterByRemainingResources (instanceTypes : list InstanceType)
    (remaining : ResourceList) : list InstanceType :=
  filter (fun it => viableInstance remaining it = true) instanceTypes.

(** [type Scheduler struct]: the fields [add] and [Solve] use.  The
    [daemonOverhead] map is keyed by template pointer. *)
Record Scheduler := {
  newNodeClaims : list NodeClaimT;
  existingNodes : list ExistingNode;
  machineTemplates : list TemplateT;
  remainingResources : gmap string ResourceList;
  instanceTypes : gmap string (list InstanceType);
  daemonOverhead : TemplateT -> ResourceList;
  preferences : PreferencesT;
  topology : TopologyT;
  SimulationMode : bool;
}.

(** First loop of [Scheduler.add]: the first existing node that takes the
    pod.  The nodes are pointers, so every call leaves its effect in place. *)
Fixpoint addToExisting (nodes : list ExistingNode) (topology : TopologyT) (pod : Pod)
    : bool * list ExistingNode * TopologyT :=
  match nodes with
  | [] => (false, [], topology)
  | node :: rest =>
      match ExistingNodeAdd pod (node, topology) with
      | (inr _, (node', topology')) => (true, node' :: rest, topology')
      | (inl _, (node', topology')) =>
          let '(ok, rest', topology'') := addToExisting rest topology' pod in
          (ok, node' :: rest', topology'')
      end
  end.

(** Second loop: the first in-flight claim that takes the pod. *)
Fixpoint addToNodeClaims (claims : list NodeClaimT) (topology : TopologyT) (pod : Pod)
    : bool * list NodeClaimT * TopologyT :=
  match claims with
  | [] => (false, [], topology)
  | machine :: rest =>
      match NodeClaimAdd machine topology pod with
      | (None, machine', topology') => (true, machine' :: rest, topology')
      | (Some _, machine', topology') =>
          let '(ok, rest', topology'') := addToNodeClaims rest topology' pod in
          (ok, machine' :: rest', topology'')
      end
  end.

Definition multierrAppend (errs : list SchedError) (e : SchedError) : list SchedError :=
  errs ++ [e].

(** Third loop: a new claim from the first template that takes the pod.
    The result is the error ([None] on success) and the scheduler. *)
Fixpoint addNewNodeClaim (templates : list TemplateT) (errs : list SchedError)
    (s : Scheduler) (pod : Pod) : option SchedError * Scheduler :=
  match templates with
  | [] => (match errs with [] => None | _ => Some (ErrMulti errs) end, s)
  | machineTemplate :: rest =>
      let ownerName := OwnerName machineTemplate in
      let instanceTypes0 := default [] (instanceTypes s !! ownerName) in
      let filtered :=
        match remainingResources s !! ownerName with
        | Some remaining => filterByRemainingResources instanceTypes0 remaining
        | None => instanceTypes0
        end in
      if bool_decide (is_Some (remainingResources s !! ownerName)) && bool_decide (filtered = [])
      then addNewNodeClaim rest (multierrAppend errs (ErrExceedLimits ownerName)) s pod
      else
        let '(machine, topology1) :=
          NewNodeClaim machineTemplate (topology s) (daemonOverhead s machineTemplate) filtered in
        match NodeClaimAdd machine topology1 pod with
        | (Some err, _, topology2) =>
            addNewNodeClaim rest
              (multierrAppend errs
                 (ErrIncompatibleWithProvisioner ownerName (daemonOverhead s machineTemplate) err))
              {| newNodeClaims := newNodeClaims s;
                 existingNodes := existingNodes s;
                 machineTemplates := machineTemplates s;
                 remainingResources := remainingResources s;
                 instanceTypes := instanceTypes s;
                 daemonOverhead := daemonOverhead s;
                 preferences := preferences s;
                 topology := topology2;
                 SimulationMode := SimulationMode s |}
              pod
        | (None, machine', topology2) =>
            (None,
             {| newNodeClaims := newNodeClaims s ++ [machine'];
                existingNodes := existingNodes s;
                machineTemplates := machineTemplates s;
                remainingResources :=
                  <[ ownerName :=
                       subtractMax (default ∅ (remainingResources s !! ownerName))
                                   (InstanceTypeOptions machine') ]> (remainingResources s);
                instanceTypes := instanceTypes s;
                daemonOverhead := daemonOverhead s;
                preferences := preferences s;
                topology := topology2;
                SimulationMode := SimulationMode s |})
        end
  end.

Definition fewerPods (a b : NodeClaimT) : Prop :=
  (length (NodeClaimPods a) <= length (NodeClaimPods b))%nat.

Global Instance fewerPods_dec a b : Decision (fewerPods a b).
Proof. unfold fewerPods. apply _. Defined.

(** [Scheduler.add].  [sort.Slice] orders the claims by pod count and
    leaves the order of ties open; the model sorts with a merge sort. *)
Definition add (s : Scheduler) (pod : Pod) : option SchedError * Scheduler :=
  let '(ok, nodes, topology1) := addToExisting (existingNodes s) (topology s) pod in
  let s1 := {| newNodeClaims := newNodeClaims s;
               existingNodes := nodes;
               machineTemplates := machineTemplates s;
               remainingResources := remainingResources s;
               instanceTypes := instanceTypes s;
               daemonOverhead := daemonOverhead s;
               preferences := preferences s;
               topology := topology1;
               SimulationMode := SimulationMode s |} in
  if ok then (None, s1)
  else
    let sorted := merge_sort fewerPods (newNodeClaims s1) in
    let '(ok, claims, topology2) := addToNodeClaims sorted (topology s1) pod in
    let s2 := {| newNodeClaims := claims;
                 existingNodes := existingNodes s1;
                 machineTemplates := machineTemplates s1;
                 remainingResources := remainingResources s1;
                 instanceTypes := instanceTypes s1;
                 daemonOverhead := daemonOverhead s1;
                 preferences := preferences s1;
                 topology := topology2;
                 SimulationMode := SimulationMode s1 |} in
    if ok then (None, s2)
    else addNewNodeClaim (machineTemplates s2) [] s2 pod.

(** The loop of [Solve]: scheduler, queue and the [errors] map (keyed by
    pod; a [nil] error is [None]). *)
Record SolveState := {
  sched : Scheduler;
  queue : QueueT;
  errors : gmap string (option SchedError);
}.

Definition withTopology (s : Scheduler) (t : TopologyT) : Scheduler :=
  {| newNodeClaims := newNodeClaims s;
     existingNodes := existingNodes s;
     machineTemplates := machineTemplates s;
     remainingResources := remainingResources s;
     instanceTypes := instanceTypes s;
     daemonOverhead := daemonOverhead s;
     preferences := preferences s;
     topology := t;
     SimulationMode := SimulationMode s |}.

(** One turn of the [for] loop of [Solve]; [None] when [q.Pop] reports
    that the loop is over. *)
Definition solveStep (st : SolveState) : option SolveState :=
  match Pop (queue st) with
  | None => None
  | Some (pod, q) =>
      let '(err, s) := add (sched st) pod in
      let errors' := <[ PodUID pod := err ]> (errors st) in
      match err with
      | None => Some {| sched := s; queue := q; errors := errors' |}
      | Some _ =>
          let '(relaxed, pod') := Relax (preferences s) pod in
          let q' := Push q pod' relaxed in
          let s' := if relaxed then withTopology s (TopologyUpdate (topology s) pod') else s in
          Some {| sched := s'; queue := q'; errors := errors' |}
      end
  end.

(** The loop, for at most [fuel] turns; the flag tells whether it ended. *)
Fixpoint solveLoop (fuel : nat) (st : SolveState) : SolveState * bool :=
  match fuel with
  | O => (st, false)
  | S fuel' =>
      match solveStep st with
      | None => (st, true)
      | Some st' => solveLoop fuel' st'
      end
  end.

(** [type Results struct] *)
Record Results := {
  NewNodeClaims : list NodeClaimT;
  ExistingNodes : list ExistingNode;
  PodErrors : gmap string SchedError;
}.

(** [Solve]: the loop, [FinalizeScheduling] on every new claim, and the
    removal of the [nil] errors.  (The events and nominations of
    [recordSchedulingResults] leave the scheduler untouched.)  [None] when
    the loop has not ended within [fuel] turns. *)
Definition Solve (fuel : nat) (s : Scheduler) (pods : list Pod) : option (Results * Scheduler) :=
  let '(st, finished) :=
    solveLoop fuel {| sched := s; queue := NewQueue pods; errors := ∅ |} in
  if finished then
    let claims := FinalizeScheduling <$> newNodeClaims (sched st) in
    Some ({| NewNodeClaims := claims;
             ExistingNodes := existingNodes (sched st);
             PodErrors := omap id (errors st) |},
          sched st)
  else None.

(** The requests a node carries after [pods] were placed on a node that
    started with [r0]. *)
Definition is_inl {A B} (x : A + B) : bool :=
  match x with inl _ => true | inr _ => false end.


(** No requested resource exceeds what is available. *)
Definition fitsPerResource (requested available : ResourceList) : Prop :=
  forall k q, requested !! k = Some q -> q <= get available k.

Definition nonnegCapacity (it : InstanceType) : Prop :=
  map_Forall (fun _ q => 0 <= q) (Capacity it).

(** The instance types [Scheduler.add] hands to [NewNodeClaim] for a
    template: those of the template's pool, filtered by the pool's
    remaining limits when it has any. *)
Definition viableInstanceTypes (s : Scheduler) (machineTemplate : TemplateT) : list InstanceType :=
  let instanceTypes0 := default [] (instanceTypes s !! OwnerName machineTemplate) in
  match remainingResources s !! OwnerName machineTemplate with
  | Some remaining => filterByRemainingResources instanceTypes0 remaining
  | None => instanceTypes0
  end.

(** [Scheduler.add] created a claim: with [claims] the claims there were,
    [s'] has them followed by a new claim; that claim is what
    [NewNodeClaim] built from a template [tmpl] of the scheduler (with the
    template's daemon overhead and viable instance types, at the topology
    of that moment) after it took [pod]; and the limits of the pool of
    that same template are [subtractMax] of what they were over the
    claim's instance-type options. *)
Definition claimCreated (s s' : Scheduler) (claims : list NodeClaimT) (pod : Pod) : Prop :=
  exists tmpl t machine t1,
    tmpl ∈ machineTemplates s
    /\ NodeClaimAdd
         (NewNodeClaim tmpl t (daemonOverhead s tmpl) (viableInstanceTypes s tmpl)).1
         (NewNodeClaim tmpl t (daemonOverhead s tmpl) (viableInstanceTypes s tmpl)).2
         pod = (None, machine, t1)
    /\ newNodeClaims s' = claims ++ [machine]
    /\ remainingResources s' =
         <[ OwnerName tmpl :=
              subtractMax (default ∅ (remainingResources s !! OwnerName tmpl))
                          (InstanceTypeOptions machine) ]> (remainingResources s).


(** [m] is the greatest capacity of resource [k] among [instanceTypes]
    (zero when none of them has the resource). *)
Definition maxCapacity (instanceTypes : list InstanceType) (k : string) (m : Z) : Prop :=
  ((exists it, it ∈ instanceTypes /\ Capacity it !! k = Some m)
   \/ (m = 0 /\ forall it, it ∈ instanceTypes -> Capacity it !! k = None))
  /\ (forall it q, it ∈ instanceTypes -> Capacity it !! k = Some q -> q <= m).

(** Every limit of [before] is still there in [after] and is not greater. *)
Definition limitsLe (after before : gmap string ResourceList) : Prop :=
  forall pool rl0, before !! pool = Some rl0 ->
    exists rl, after !! pool = Some rl
      /\ forall k q0, rl0 !! k = Some q0 -> exists q, rl !! k = Some q /\ q <= q0.

End WithOps.

(** A small instance of the operations, for evaluating the scheduler on
    literal inputs: a pod is its UID and its requests; a node's taints are
    the keys a pod would have to tolerate (none does); volume usage counts
    pods; the topology tracker counts recorded placements; an in-flight
    claim keeps the instance types of non-negative capacity that hold its
    requests; the queue is a list and nothing can be relaxed. *)
Record SimplePod := { spUID : string; spRequests : ResourceList }.

Record SimpleClaim := {
  scPods : list SimplePod;
  scRequests : ResourceList;
  scOptions : list InstanceType;
}.

Definition simpleRequests (pods : list SimplePod) : ResourceList :=
  fold_left (fun acc p => Merge acc (spRequests p)) pods ∅.

Definition simpleClaimAdd (nc : SimpleClaim) (topology : nat) (pod : SimplePod)
    : option string * SimpleClaim * nat :=
  let requests := Merge (scRequests nc) (spRequests pod) in
  let options :=
    filter (fun it => Fits requests (Capacity it) = true /\ nonnegCapacity it) (scOptions nc) in
  match options with
  | [] => (Some "no instance type satisfied resources", nc, topology)
  | _ => (None, {| scPods := scPods nc ++ [pod]; scRequests := requests; scOptions := options |},
          S topology)
  end.

Definition simpleOps : @SchedOps setRequirementOps :=
  {| Pod := SimplePod;
     PodUID := spUID;
     PodSpec := fun _ => {| NodeSelector := ∅; NodeAffinity := None |};
     ExtError := string;
     TaintsT := list string;
     HostPortUsageT := list string;
     VolumeUsageT := nat;
     VolumeCountT := nat;
     TopologyT := nat;
     TemplateT := string;
     NodeClaimT := SimpleClaim;
     QueueT := list SimplePod;
     PreferencesT := unit;
     Tolerates := fun taints _ => match taints with [] => None | t :: _ => Some t end;
     HostPortValidate := fun _ _ => None;
     HostPortAdd := fun usage pod => spUID pod :: usage;
     VolumeValidate := fun usage _ => inr (S usage);
     VolumeExceeds := fun count limit => (limit <? count)%nat;
     VolumeAdd := fun usage _ => S usage;
     RequestsForPods := simpleRequests;
     FlexibleValues := fun reqs => reqs ≫= @Values setRequirementOps;
     TopologyAddRequirements := fun _ _ nodeRequirements _ => inr nodeRequirements;
     TopologyRecord := fun t _ _ => S t;
     TopologyRegister := fun t _ _ => t;
     TopologyUpdate := fun t _ => t;
     OwnerName := fun t => t;
     NewNodeClaim := fun _ t daemon its =>
       ({| scPods := []; scRequests := daemon; scOptions := its |}, t);
     NodeClaimAdd := simpleClaimAdd;
     NodeClaimPods := scPods;
     InstanceTypeOptions := scOptions;
     FinalizeScheduling := fun nc => nc;
     NewQueue := fun pods => pods;
     Pop := fun q => match q with [] => None | p :: q' => Some (p, q') end;
     Push := fun q p relaxed => if relaxed then q ++ [p] else q;
     Relax := fun _ p => (false, p) |}.

Definition simplePod (uid : string) (cpu_milli : Z) : SimplePod :=
  {| spUID := uid; spRequests := {[ ResourceCPU := NewMilliQuantity cpu_milli ]} |}.

Definition simpleStateNode (name : string) (cpu_milli : Z) : @StateNode _ simpleOps :=
  @Build_StateNode _ simpleOps name name ∅ [] [] 0%nat 10%nat
    {[ ResourceCPU := NewMilliQuantity cpu_milli ]}
    {[ ResourceCPU := NewMilliQuantity cpu_milli ]}
    ∅ true true.

Definition simpleInstanceType (name : string) (cpu : Z) : InstanceType :=
  CloudProvider.mkInstanceType name cpu 110.

(** A scheduler with one existing node of 1000m available cpu, one
    template "default" with two instance types (2 and 4 cpus) and a limit
    of 10 cpus on its pool. *)
Definition simpleScheduler : @Scheduler _ simpleOps :=
  @Build_Scheduler _ simpleOps
    []
    [ (@NewExistingNode _ simpleOps (simpleStateNode "node-a" 1000) 0%nat ∅).1 ]
    ["default"]
    {[ "default" := {[ ResourceCPU := NewQuantity 10 ]} ]}
    {[ "default" := [simpleInstanceType "c-2" 2; simpleInstanceType "c-4" 4] ]}
    (fun _ => ∅)
    tt
    0%nat
    false.

Definition simpleSolveState (pods : list SimplePod) : @SolveState _ simpleOps :=
  @Build_SolveState _ simpleOps simpleScheduler pods ∅.

(** A scheduler without nodes and with two templates, tried in this
    order: "small", whose pool has 1 cpu left (no instance type fits under
    it), and "default", whose pool has 10 cpus left; both pools offer the
    2- and the 4-cpu instance type. *)
Definition twoPoolScheduler : @Scheduler _ simpleOps :=
  @Build_Scheduler _ simpleOps
    []
    []
    ["small"; "default"]
    {[ "small" := {[ ResourceCPU := NewQuantity 1 ]};
       "default" := {[ ResourceCPU := NewQuantity 10 ]} ]}
    {[ "small" := [simpleInstanceType "c-2" 2; simpleInstanceType "c-4" 4];
       "default" := [simpleInstanceType "c-2" 2; simpleInstanceType "c-4" 4] ]}
    (fun _ => ∅)
    tt
    0%nat
    false.

(** The scheduler of the example: three pods of 600m, 600m and 3000m cpu
    against one node with 1000m available and a pool limited to 10 cpus. *)
Definition examplePods : list SimplePod :=
  [simplePod "p1" 600; simplePod "p2" 600; simplePod "p3" 3000].

End Scheduling.

(** ** pkg/controllers/nodeclaim/lifecycle and machine/lifecycle *)

Module Lifecycle.
Import Resource Requirements.

(** *** Status conditions (knative's condition manager) *)

Inductive ConditionType := NodeLaunched | NodeRegistered | NodeInitialized.

Global Instance ConditionType_eq_dec : EqDecision ConditionType.
Proof. solve_decision. Defined.

Global Instance ConditionType_countable : Countable ConditionType.
Proof.
  refine (inj_countable'
            (fun t => match t with NodeLaunched => 0%nat | NodeRegistered => 1%nat | NodeInitialized => 2%nat end)
            (fun n => match n with 0%nat => NodeLaunched | 1%nat => NodeRegistered | _ => NodeInitialized end) _).
  by intros [].
Defined.

Inductive ConditionStatus := ConditionTrue | ConditionFalse | ConditionUnknown.

Global Instance ConditionStatus_eq_dec : EqDecision ConditionStatus.
Proof. solve_decision. Defined.

(** Times are nanoseconds since the epoch, durations nanoseconds. *)
Record Condition := {
  Status : ConditionStatus;
  Reason : string;
  Message : string;
  LastTransitionTime : Z;
}.

Global Instance Condition_eq_dec : EqDecision Condition.
Proof. solve_decision. Defined.

Abbreviation Conditions := (gmap ConditionType Condition).

(** [GetCondition] is the map lookup ([nil] when absent); [IsTrue] of a
    [nil] condition is false. *)
Definition IsTrue (c : option Condition) : bool :=
  match c with
  | Some c => bool_decide (Status c = ConditionTrue)
  | None => false
  end.

(** [SetCondition]: a condition that would change only in its transition
    time is left alone; otherwise it is stored with the current time. *)
Definition SetCondition (now : Z) (t : ConditionType) (status : ConditionStatus)
    (reason message : string) (cs : Conditions) : Conditions :=
  match cs !! t with
  | Some c =>
      if bool_decide (Status c = status) && String.eqb (Reason c) reason
         && String.eqb (Message c) message
      then cs
      else <[ t := {| Status := status; Reason := reason; Message := message;
                      LastTransitionTime := now |} ]> cs
  | None => <[ t := {| Status := status; Reason := reason; Message := message;
                       LastTransitionTime := now |} ]> cs
  end.

Definition MarkTrue (now : Z) (t : ConditionType) : Conditions -> Conditions :=
  SetCondition now t ConditionTrue "" "".

Definition MarkFalse (now : Z) (t : ConditionType) (reason message : string)
    : Conditions -> Conditions :=
  SetCondition now t ConditionFalse reason message.

(** *** Objects *)

Record Taint := { taintKey : string; taintValue : string; taintEffect : string }.

Global Instance Taint_eq_dec : EqDecision Taint.
Proof. solve_decision. Defined.

Record OwnerReference := {
  orAPIVersion : string;
  orKind : string;
  orName : string;
  orUID : string;
  orBlockOwnerDeletion : option bool;
}.

Global Instance OwnerReference_eq_dec : EqDecision OwnerReference.
Proof. solve_decision. Defined.

(** [v1beta1.NodeClaim] (and [v1alpha5.Machine], which carries the same
    metadata, spec and status fields). *)
Record NodeClaim := {
  ncName : string;
  ncUID : string;
  ncCreationTimestamp : Z;
  ncLabels : gmap string string;
  ncAnnotations : gmap string string;
  ncRequirements : list NodeSelectorRequirementT;
  ncTaints : list Taint;
  ncStartupTaints : list Taint;
  ncProviderID : string;
  ncCapacity : ResourceList;
  ncAllocatable : ResourceList;
  ncNodeName : string;
  ncConditions : Conditions;
}.

Abbreviation Machine := NodeClaim.

Definition setConditions (nc : NodeClaim) (cs : Conditions) : NodeClaim :=
  {| ncName := ncName nc; ncUID := ncUID nc; ncCreationTimestamp := ncCreationTimestamp nc;
     ncLabels := ncLabels nc; ncAnnotations := ncAnnotations nc;
     ncRequirements := ncRequirements nc; ncTaints := ncTaints nc;
     ncStartupTaints := ncStartupTaints nc; ncProviderID := ncProviderID nc;
     ncCapacity := ncCapacity nc; ncAllocatable := ncAllocatable nc;
     ncNodeName := ncNodeName nc; ncConditions := cs |}.

Definition setNodeName (nc : NodeClaim) (name : string) : NodeClaim :=
  {| ncName := ncName nc; ncUID := ncUID nc; ncCreationTimestamp := ncCreationTimestamp nc;
     ncLabels := ncLabels nc; ncAnnotations := ncAnnotations nc;
     ncRequirements := ncRequirements nc; ncTaints := ncTaints nc;
     ncStartupTaints := ncStartupTaints nc; ncProviderID := ncProviderID nc;
     ncCapacity := ncCapacity nc; ncAllocatable := ncAllocatable nc;
     ncNodeName := name; ncConditions := ncConditions nc |}.

Record Node := {
  nodeName : string;
  nodeProviderID : string;
  nodeLabels : gmap string string;
  nodeAnnotations : gmap string string;
  nodeTaints : list Taint;
  nodeOwnerReferences : list OwnerReference;
  nodeFinalizers : list string;
}.

Global Instance Node_eq_dec : EqDecision Node.
Proof. solve_decision. Defined.

(** *** Errors, results, effects *)

(** Errors of the cloud provider ([cloudprovider.IsInsufficientCapacityError]
    tells the first kind) and of the API client ([client.IgnoreNotFound]
    drops the first kind); each carries its message. *)
Inductive CloudError :=
  | InsufficientCapacityError (msg : string)
  | OtherCloudError (msg : string).

Inductive KubeError :=
  | NotFound (msg : string)
  | OtherKubeError (msg : string).

Inductive RError :=
  | ECloud (e : CloudError)
  | EKube (e : KubeError)
  | EWrap (prefix : string) (e : RError).

Definition IsInsufficientCapacityError (e : CloudError) : bool :=
  match e with InsufficientCapacityError _ => true | _ => false end.

Definition cloudErrorMessage (e : CloudError) : string :=
  match e with InsufficientCapacityError m => m | OtherCloudError m => m end.

Definition IgnoreNotFound (e : KubeError) : option RError :=
  match e with NotFound _ => None | _ => Some (EKube e) end.

(** [reconcile.Result] *)
Record Result := { Requeue : bool; RequeueAfter : Z }.

Definition noRequeue : Result := {| Requeue := false; RequeueAfter := 0 |}.

(** The calls a reconciler makes on its collaborators, in order. *)
Inductive Effect :=
  | CloudCreate (claim : string)
  | Publish (reason : string) (claim : string)
  | KubeDelete (claim : string)
  | KubePatchNode (node : Node)
  | RemoveFinalizer (claim : string)
  | CounterInc (counter : string) (label : string) (value : string).

(** How the collaborators answer during one reconcile: the cloud
    provider's [Create], the API client's [Delete], [List] (the nodes of
    the cluster and whether the call fails) and [Patch],
    [removeFinalizerBestEffort], the successive readings of the
    reconciler's clock and the time the condition manager stamps. *)
Record Env := {
  envCreate : NodeClaim -> CloudError + NodeClaim;
  envDelete : NodeClaim -> option KubeError;
  envNodes : list Node;
  envListError : option KubeError;
  envPatch : Node -> option KubeError;
  envRemoveFinalizer : NodeClaim -> bool;
  envClock1 : Z;
  envClock2 : Z;
  envNow : Z;
}.

(** What a reconciler leaves behind: the launch cache (claim UID to the
    created claim) and the calls made. *)
Record World := {
  wCache : gmap string NodeClaim;
  wTrace : list Effect;
}.

Definition emit (w : World) (effs : list Effect) : World :=
  {| wCache := wCache w; wTrace := wTrace w ++ effs |}.

Definition NodePoolLabelKey : string := "karpenter.sh/nodepool".
Definition ProvisionerNameLabelKey : string := "karpenter.sh/provisioner-name".
Definition LabelNodeRegistered : string := "karpenter.sh/registered".
Definition TerminationFinalizer : string := "karpenter.sh/termination".

Definition label (nc : NodeClaim) (k : string) : string := default "" (ncLabels nc !! k).

(** [scheduling.Taints.Merge] is not part of this tree. *)
Class TaintOps := { MergeTaints : list Taint -> list Taint -> list Taint }.

Section WithOps.
Context `{RequirementOps} `{TaintOps}.

(** *** launch.go *)

(** [truncateMessage] *)
Definition truncateMessage (msg : string) : string :=
  if (String.length msg <? 300)%nat then msg
  else String.append (String.substring 0 300 msg) "...".

(** [PopulateNodeDetails] *)
Definition PopulateNodeDetails (nodeClaim retrieved : NodeClaim) : NodeClaim :=
  {| ncName := ncName nodeClaim; ncUID := ncUID nodeClaim;
     ncCreationTimestamp := ncCreationTimestamp nodeClaim;
     ncLabels :=
       Assign (Assign (ncLabels retrieved)
                      (Labels (NewNodeSelectorRequirements (ncRequirements nodeClaim))))
              (ncLabels nodeClaim);
     ncAnnotations := Assign (ncAnnotations nodeClaim) (ncAnnotations retrieved);
     ncRequirements := ncRequirements nodeClaim; ncTaints := ncTaints nodeClaim;
     ncStartupTaints := ncStartupTaints nodeClaim;
     ncProviderID := ncProviderID retrieved;
     ncCapacity := ncCapacity retrieved;
     ncAllocatable := ncAllocatable retrieved;
     ncNodeName := ncNodeName nodeClaim;
     ncConditions := ncConditions nodeClaim |}.

(** [Launch.launchNode]: the created claim ([None] for [nil]), the error,
    the claim as left, the world as left. *)
Definition launchNode (env : Env) (w : World) (nodeClaim : NodeClaim)
    : option NodeClaim * option RError * NodeClaim * World :=
  match envCreate env nodeClaim with
  | inl err =>
      let w := emit w [CloudCreate (ncName nodeClaim)] in
      if IsInsufficientCapacityError err then
        let w := emit w [Publish "InsufficientCapacityError" (ncName nodeClaim)] in
        let w := emit w [KubeDelete (ncName nodeClaim)] in
        match envDelete env nodeClaim with
        | Some derr => (None, IgnoreNotFound derr, nodeClaim, w)
        | None =>
            let w := emit w [CounterInc "nodeclaims_terminated" "insufficient_capacity"
                               (label nodeClaim NodePoolLabelKey)] in
            (None, None, nodeClaim, w)
        end
      else
        let nodeClaim :=
          setConditions nodeClaim
            (MarkFalse (envNow env) NodeLaunched "LaunchFailed"
               (truncateMessage (cloudErrorMessage err)) (ncConditions nodeClaim)) in
        (None, Some (EWrap "creating machine, " (ECloud err)), nodeClaim, w)
  | inr created =>
      (Some created, None, nodeClaim, emit w [CloudCreate (ncName nodeClaim)])
  end.

(** [Launch.Reconcile] *)
Definition LaunchReconcile (env : Env) (w : World) (nodeClaim : NodeClaim)
    : Result * option RError * NodeClaim * World :=
  if IsTrue (ncConditions nodeClaim !! NodeLaunched) then (noRequeue, None, nodeClaim, w)
  else
    let '(created, err, nodeClaim, w) :=
      match wCache w !! ncUID nodeClaim with
      | Some ret => (Some ret, None, nodeClaim, w)
      | None => launchNode env w nodeClaim
      end in
    match err, created with
    | Some e, _ => (noRequeue, Some e, nodeClaim, w)
    | None, None => (noRequeue, None, nodeClaim, w)
    | None, Some created =>
        let w := {| wCache := <[ ncUID nodeClaim := created ]> (wCache w);
                    wTrace := wTrace w |} in
        let nodeClaim := PopulateNodeDetails nodeClaim created in
        let nodeClaim :=
          setConditions nodeClaim (MarkTrue (envNow env) NodeLaunched (ncConditions nodeClaim)) in
        let w := emit w [CounterInc "nodeclaims_launched" "nodepool"
                           (label nodeClaim NodePoolLabelKey)] in
        (noRequeue, None, nodeClaim, w)
    end.

(** *** launch_timeout.go *)

(** [const launchTTL = time.Minute * 2] *)
Definition minute : Z := 60 * 10 ^ 9.
Definition launchTTL : Z := minute * 2.

(** [LaunchTimeout.Reconcile]; [clock.Since t] is the clock reading minus
    [t], read twice. *)
Definition LaunchTimeoutReconcile (env : Env) (w : World) (machine : Machine)
    : Result * option RError * World :=
  if IsTrue (ncConditions machine !! NodeLaunched) then (noRequeue, None, w)
  else match ncConditions machine !! NodeLaunched with
  | None => ({| Requeue := true; RequeueAfter := 0 |}, None, w)
  | Some launched =>
      if envClock1 env - LastTransitionTime launched <? launchTTL then
        ({| Requeue := false;
            RequeueAfter := launchTTL - (envClock2 env - LastTransitionTime launched) |}, None, w)
      else
        let removedFinalizer := envRemoveFinalizer env machine in
        let w := emit w [RemoveFinalizer (ncName machine); KubeDelete (ncName machine)] in
        match envDelete env machine with
        | Some err => (noRequeue, IgnoreNotFound err, w)
        | None =>
            (noRequeue, None,
             emit w [CounterInc "machines_terminated" "launch_timeout"
                       (label machine ProvisionerNameLabelKey)])
        end
  end.

(** *** The registration reconciler and pkg/utils/nodeclaim *)

Inductive LookupError :=
  | NodeNotFoundError (providerID : string)
  | DuplicateNodeError (providerID : string)
  | ListError (e : KubeError).

(** [AllNodesForNodeClaim]: the nodes whose [spec.providerID] is the
    claim's; none when the claim has no provider id. *)
Definition AllNodesForNodeClaim (env : Env) (nodeClaim : NodeClaim) : KubeError + list Node :=
  if String.eqb (ncProviderID nodeClaim) "" then inr []
  else match envListError env with
       | Some e => inl e
       | None =>
           inr (filter (fun n => nodeProviderID n = ncProviderID nodeClaim) (envNodes env))
       end.

(** [NodeForNodeClaim] *)
Definition NodeForNodeClaim (env : Env) (nodeClaim : NodeClaim) : LookupError + Node :=
  match AllNodesForNodeClaim env nodeClaim with
  | inl e => inl (ListError e)
  | inr nodes =>
      match nodes with
      | _ :: _ :: _ => inl (DuplicateNodeError (ncProviderID nodeClaim))
      | [] => inl (NodeNotFoundError (ncProviderID nodeClaim))
      | [node] => inr node
      end
  end.

(** [controllerutil.AddFinalizer] *)
Definition AddFinalizer (finalizers : list string) (f : string) : list string :=
  if bool_decide (f ∈ finalizers) then finalizers else finalizers ++ [f].

(** The node [syncNode] builds before it compares and patches. *)
Definition syncedNode (nodeClaim : NodeClaim) (node : Node) : Node :=
  {| nodeName := nodeName node;
     nodeProviderID := nodeProviderID node;
     nodeLabels := Assign (Assign (nodeLabels node) (ncLabels nodeClaim))
                          {[ LabelNodeRegistered := "true" ]};
     nodeAnnotations := Assign (nodeAnnotations node) (ncAnnotations nodeClaim);
     nodeTaints := MergeTaints (MergeTaints (nodeTaints node) (ncTaints nodeClaim))
                               (ncStartupTaints nodeClaim);
     nodeOwnerReferences :=
       filter (fun o => orKind o ≠ "Provisioner") (nodeOwnerReferences node)
       ++ [ {| orAPIVersion := "karpenter.sh/v1beta1"; orKind := "NodeClaim";
               orName := ncName nodeClaim; orUID := ncUID nodeClaim;
               orBlockOwnerDeletion := Some true |} ];
     nodeFinalizers := AddFinalizer (nodeFinalizers node) TerminationFinalizer |}.

(** [Registration.syncNode] *)
Definition syncNode (env : Env) (w : World) (nodeClaim : NodeClaim) (node : Node)
    : option RError * World :=
  let stored := node in
  let node := syncedNode nodeClaim node in
  if bool_decide (stored = node) then (None, w)
  else
    let w := emit w [KubePatchNode node] in
    match envPatch env node with
    | Some err => (Some (EWrap "syncing node labels, " (EKube err)), w)
    | None => (None, w)
    end.

(** [Registration.Reconcile] *)
Definition RegistrationReconcile (env : Env) (w : World) (nodeClaim : NodeClaim)
    : Result * option RError * NodeClaim * World :=
  if IsTrue (ncConditions nodeClaim !! NodeRegistered) then (noRequeue, None, nodeClaim, w)
  else if negb (IsTrue (ncConditions nodeClaim !! NodeLaunched)) then
    (noRequeue, None,
     setConditions nodeClaim
       (MarkFalse (envNow env) NodeRegistered "NodeNotLaunched" "Node is not launched"
          (ncConditions nodeClaim)), w)
  else
    match NodeForNodeClaim env nodeClaim with
    | inl (NodeNotFoundError _) =>
        (noRequeue, None,
         setConditions nodeClaim
           (MarkFalse (envNow env) NodeRegistered "NodeNotFound" "Node not registered with cluster"
              (ncConditions nodeClaim)), w)
    | inl (DuplicateNodeError _) =>
        (noRequeue, None,
         setConditions nodeClaim
           (MarkFalse (envNow env) NodeRegistered "MultipleNodesFound"
              "Invariant violated, nodeclaim matched multiple nodes"
              (ncConditions nodeClaim)), w)
    | inl (ListError e) =>
        (noRequeue,
         Some (EWrap "getting node for nodeclaim, " (EWrap "listing nodes, " (EKube e))),
         nodeClaim, w)
    | inr node =>
        match syncNode env w nodeClaim node with
        | (Some err, w) => (noRequeue, Some (EWrap "syncing node, " err), nodeClaim, w)
        | (None, w) =>
            let nodeClaim :=
              setConditions nodeClaim
                (MarkTrue (envNow env) NodeRegistered (ncConditions nodeClaim)) in
            let nodeClaim := setNodeName nodeClaim (nodeName node) in
            let w := emit w [CounterInc "nodeclaims_registered" "nodepool"
                               (label nodeClaim NodePoolLabelKey);
                             CounterInc "nodes_created" "nodepool"
                               (label nodeClaim NodePoolLabelKey)] in
            (noRequeue, None, nodeClaim, w)
        end
    end.

(** *** The claims the reconcilers can produce *)

(** One pass of a reconciler that writes conditions, against any answers of
    the collaborators. *)
Inductive step : NodeClaim -> NodeClaim -> Prop :=
  | step_launch env w nc :
      step nc (LaunchReconcile env w nc).1.2
  | step_registration env w nc :
      step nc (RegistrationReconcile env w nc).1.2.

(** A claim starts without conditions. *)
Inductive reachable : NodeClaim -> Prop :=
  | reachable_init nc : ncConditions nc = ∅ -> reachable nc
  | reachable_step nc nc' : reachable nc -> step nc nc' -> reachable nc'.

(** The invariant of the lifecycle: a registered claim has been launched. *)
Definition registeredImpliesLaunched (nc : NodeClaim) : Prop :=
  IsTrue (ncConditions nc !! NodeRegistered) = true ->
  IsTrue (ncConditions nc !! NodeLaunched) = true.

End WithOps.

(** *** events.go: liveness *)

(** [const registrationTTL = time.Minute * 15] *)
Definition registrationTTL : Z := minute * 15.

(** events.go, [Liveness.Reconcile]. *)
Definition LivenessReconcile (env : Env) (w : World) (nodeClaim : NodeClaim)
    : Result * option RError * World :=
  let registered := ncConditions nodeClaim !! NodeRegistered in
  if IsTrue registered then (noRequeue, None, w)
  else match registered with
  | None => ({| Requeue := true; RequeueAfter := 0 |}, None, w)
  | Some registered =>
      if envClock1 env - LastTransitionTime registered <? registrationTTL then
        ({| Requeue := false;
            RequeueAfter := registrationTTL - (envClock2 env - LastTransitionTime registered) |},
         None, w)
      else
        let w := emit w [KubeDelete (ncName nodeClaim)] in
        match envDelete env nodeClaim with
        | Some err => (noRequeue, IgnoreNotFound err, w)
        | None =>
            (noRequeue, None,
             emit w [CounterInc "nodeclaims_terminated" "liveness"
                       (label nodeClaim ProvisionerNameLabelKey)])
        end
  end.

(** Literal inputs for evaluating the reconcilers: a claim created at time
    0, a merge of taints that appends the missing ones, and collaborators
    that answer as each example says. *)
Definition simpleTaintOps : TaintOps :=
  {| MergeTaints := fun a b => a ++ filter (fun t => t ∉ a) b |}.

Definition exampleClaim (conditions : Conditions) : NodeClaim :=
  {| ncName := "claim-1"; ncUID := "uid-1"; ncCreationTimestamp := 0;
     ncLabels := {[ NodePoolLabelKey := "default" ]}; ncAnnotations := ∅;
     ncRequirements := []; ncTaints := []; ncStartupTaints := [];
     ncProviderID := ""; ncCapacity := ∅; ncAllocatable := ∅;
     ncNodeName := ""; ncConditions := conditions |}.

Definition launchedClaim (providerID : string) : NodeClaim :=
  {| ncName := "claim-1"; ncUID := "uid-1"; ncCreationTimestamp := 0;
     ncLabels := {[ NodePoolLabelKey := "default" ]}; ncAnnotations := ∅;
     ncRequirements := []; ncTaints := []; ncStartupTaints := [];
     ncProviderID := providerID; ncCapacity := ∅; ncAllocatable := ∅;
     ncNodeName := "";
     ncConditions := {[ NodeLaunched := {| Status := ConditionTrue; Reason := "";
                                           Message := ""; LastTransitionTime := 0 |} ]} |}.

(** A claim that is launched and registered, bound to node "node-a". *)
Definition registeredClaim (providerID : string) : NodeClaim :=
  {| ncName := "claim-1"; ncUID := "uid-1"; ncCreationTimestamp := 0;
     ncLabels := {[ NodePoolLabelKey := "default" ]}; ncAnnotations := ∅;
     ncRequirements := []; ncTaints := []; ncStartupTaints := [];
     ncProviderID := providerID; ncCapacity := ∅; ncAllocatable := ∅;
     ncNodeName := "node-a";
     ncConditions :=
       {[ NodeLaunched := {| Status := ConditionTrue; Reason := "";
                             Message := ""; LastTransitionTime := 0 |};
          NodeRegistered := {| Status := ConditionTrue; Reason := "";
                               Message := ""; LastTransitionTime := 1 |} ]} |}.

Definition exampleNode (name providerID : string) : Node :=
  {| nodeName := name; nodeProviderID := providerID; nodeLabels := ∅;
     nodeAnnotations := ∅; nodeTaints := []; nodeOwnerReferences := [];
     nodeFinalizers := [] |}.

Definition exampleEnv (create : CloudError + NodeClaim) (delete : option KubeError)
    (nodes : list Node) (clock : Z) : Env :=
  {| envCreate := fun _ => create;
     envDelete := fun _ => delete;
     envNodes := nodes;
     envListError := None;
     envPatch := fun _ => None;
     envRemoveFinalizer := fun _ => true;
     envClock1 := clock;
     envClock2 := clock;
     envNow := clock |}.

Definition emptyWorld : World := {| wCache := ∅; wTrace := [] |}.

(** The launch condition of a claim whose launch failed nine minutes after
    its creation. *)
Definition failedAtNineMinutes : Conditions :=
  {[ NodeLaunched := {| Status := ConditionFalse; Reason := "LaunchFailed";
                        Message := "quota"; LastTransitionTime := 9 * minute |} ]}.

End Lifecycle.

(** ** pkg/controllers/node/termination/terminator: the eviction queue *)

Module Eviction.

(** [QueueKey]: the pod's namespaced name and its node. *)
Record QueueKey := { qkNamespace : string; qkName : string; qkNodeName : string }.

Global Instance QueueKey_eq_dec : EqDecision QueueKey.
Proof. solve_decision. Defined.

Global Instance QueueKey_countable : Countable QueueKey.
Proof.
  refine (inj_countable' (fun k => (qkNamespace k, qkName k, qkNodeName k))
                         (fun '(ns, n, node) => {| qkNamespace := ns; qkName := n; qkNodeName := node |}) _).
  by intros [].
Defined.

(** What the queue reads of a pod. *)
Record PodRef := { podNamespace : string; podName : string; podNodeName : string }.

Definition keyOf (pod : PodRef) : QueueKey :=
  {| qkNamespace := podNamespace pod; qkName := podName pod; qkNodeName := podNodeName pod |}.

(** The calls on the embedded [workqueue.RateLimitingInterface].  The
    loop of [ClearForNode] ranges over a slice with a single variable, so
    what it hands to [Forget] and [Done] is the index of each key. *)
Inductive WorkqueueCall :=
  | WQAdd (key : QueueKey)
  | WQForget (index : nat)
  | WQDone (index : nat).

(** [type Queue struct]: the mapping from node name to the keys queued
    for it, and the calls made on the work queue, in order. *)
Record Queue := {
  evictionMapping : gmap string (gset QueueKey);
  workqueue : list WorkqueueCall;
}.

(** [Queue.Has] *)
Definition Has (q : Queue) (pod : PodRef) : bool :=
  match evictionMapping q !! podNodeName pod with
  | None => false
  | Some pods => bool_decide (keyOf pod ∈ pods)
  end.

(** One turn of the loop of [Queue.Add].  A node without an entry reads
    as a nil set: [Has] on it is false and [Insert] into it panics
    ([None]). *)
Definition addOne (q : Queue) (pod : PodRef) : option Queue :=
  let qk := keyOf pod in
  match evictionMapping q !! podNodeName pod with
  | None => None
  | Some pods =>
      if bool_decide (qk ∈ pods) then Some q
      else Some {| evictionMapping := <[ podNodeName pod := {[ qk ]} ∪ pods ]> (evictionMapping q);
                   workqueue := workqueue q ++ [WQAdd qk] |}
  end.

(** The loop of [Queue.Add]. *)
Fixpoint addAll (q : Queue) (pods : list PodRef) : option Queue :=
  match pods with
  | [] => Some q
  | pod :: rest => q' ← addOne q pod; addAll q' rest
  end.

(** [Queue.Add]: only the node of the first pod gets a fresh set. *)
Definition Add (q : Queue) (pods : list PodRef) : option Queue :=
  match pods with
  | [] => Some q
  | pod0 :: _ =>
      let q :=
        match evictionMapping q !! podNodeName pod0 with
        | Some _ => q
        | None => {| evictionMapping := <[ podNodeName pod0 := ∅ ]> (evictionMapping q);
                     workqueue := workqueue q |}
        end in
      addAll q pods
  end.


(** [Queue.Reset] *)
Definition Reset (q : Queue) : Queue := {| evictionMapping := ∅; workqueue := [] |}.

(** A queue that holds nothing, and a pod of namespace "default". *)
Definition emptyQueue : Queue := {| evictionMapping := ∅; workqueue := [] |}.

Definition examplePodRef (name nodeName : string) : PodRef :=
  {| podNamespace := "default"; podName := name; podNodeName := nodeName |}.

End Eviction.

(** ** pkg/apis/v1beta1 *)

Module NodePool.
Import Resource.

(** nodepool.go, [Limits.ExceededBy]: [None] is a nil [Limits]; the error
    carries the resource name, the usage and the limit.  Go ranges over
    the usage in no fixed order and returns at the first resource above
    its limit; the model ranges in the map's own order. *)
Definition exceeds (l : ResourceList) (entry : string * Quantity)
    : option (string * Quantity * Quantity) :=
  match l !! entry.1 with
  | Some limit =>
      if bool_decide (Cmp entry.2 limit = Gt) then Some (entry.1, entry.2, limit) else None
  | None => None
  end.

Definition ExceededBy (l : option ResourceList) (resources : ResourceList)
    : option (string * Quantity * Quantity) :=
  match l with
  | None => None
  | Some l => head (omap (exceeds l) (map_to_list resources))
  end.

End NodePool.

(** * Properties *)

(** ** Quantities *)

Module ResourceFacts.
Import Int Resource.

Lemma wrap64_small z : in_int64 z -> wrap64 z = z.
Proof.
  unfold in_int64, min_int64, max_int64, wrap64. intros Hz.
  rewrite Z.mod_small; lia.
Qed.

Lemma round_away_mul n d : 0 < d -> round_away (n * d) d = n.
Proof.
  intros Hd. unfold round_away.
  destruct (Z.leb_spec 0 (n * d)) as [Hn | Hn].
  - symmetry. apply Z.div_unique with (r := d - 1); lia.
  - replace (- (n * d) + d - 1) with ((- n) * d + (d - 1)) by lia.
    rewrite Z.div_add_l by lia. rewrite Z.div_small by lia. lia.
Qed.

Lemma Value_NewQuantity n : Value (NewQuantity n) = n.
Proof. apply round_away_mul. reflexivity. Qed.

Lemma MilliValue_NewMilliQuantity n : MilliValue (NewMilliQuantity n) = n.
Proof. apply round_away_mul. reflexivity. Qed.

Lemma Assign_lookup {V} (a b : gmap string V) k :
  Assign a b !! k = match b !! k with Some v => Some v | None => a !! k end.
Proof.
  unfold Assign. destruct (b !! k) eqn:E.
  - by apply lookup_union_Some_l.
  - by rewrite lookup_union_r.
Qed.

End ResourceFacts.

(** ** float64 arithmetic *)

Module F64Facts.
Import F64.

Lemma digits2_pos_bounds (p : positive) :
  2 ^ (Z.pos (digits2_pos p) - 1) <= Z.pos p < 2 ^ Z.pos (digits2_pos p).
Proof.
  induction p as [p IH | p IH |]; simpl digits2_pos.
  - rewrite Pos2Z.inj_succ.
    replace (Z.succ (Z.pos (digits2_pos p)) - 1) with (Z.succ (Z.pos (digits2_pos p) - 1)) by lia.
    rewrite !Z.pow_succ_r by lia. lia.
  - rewrite Pos2Z.inj_succ.
    replace (Z.succ (Z.pos (digits2_pos p)) - 1) with (Z.succ (Z.pos (digits2_pos p) - 1)) by lia.
    rewrite !Z.pow_succ_r by lia. lia.
  - simpl. lia.
Qed.

Lemma digits2_pos_unique (p : positive) (d : Z) :
  2 ^ (d - 1) <= Z.pos p < 2 ^ d -> 0 < d -> Z.pos (digits2_pos p) = d.
Proof.
  intros [Hlo Hhi] Hd. pose proof (digits2_pos_bounds p) as [Hlo' Hhi'].
  destruct (Z.lt_trichotomy (Z.pos (digits2_pos p)) d) as [Hlt | [Heq | Hgt]]; [|done|].
  - assert (2 ^ Z.pos (digits2_pos p) <= 2 ^ (d - 1)) by (apply Z.pow_le_mono_r; lia). lia.
  - assert (2 ^ d <= 2 ^ (Z.pos (digits2_pos p) - 1)) by (apply Z.pow_le_mono_r; lia). lia.
Qed.

Lemma shr_1_m (mrs : shr_record) :
  0 <= shr_m mrs -> shr_m (shr_1 mrs) = shr_m mrs / 2.
Proof.
  destruct mrs as [m r s]. cbv [shr_m]. intros Hm.
  destruct m as [| [p | p |] | p]; cbv [shr_1 shr_m]; try lia; try reflexivity.
  - apply Z.div_unique with (r := 1); lia.
  - apply Z.div_unique with (r := 0); lia.
Qed.

Lemma iter_pos_shr_1_m (n : positive) (mrs : shr_record) :
  0 <= shr_m mrs -> shr_m (SpecFloat.iter_pos shr_1 n mrs) = shr_m mrs / 2 ^ Z.pos n.
Proof.
  revert mrs. induction n as [n IH | n IH |]; intros mrs Hm; simpl SpecFloat.iter_pos.
  - assert (H1 : 0 <= shr_m (shr_1 mrs)) by (rewrite shr_1_m by done; apply Z.div_pos; lia).
    assert (H2 : 0 <= shr_m (SpecFloat.iter_pos shr_1 n (shr_1 mrs)))
      by (rewrite IH by done; apply Z.div_pos; lia).
    rewrite IH, IH, shr_1_m by done.
    rewrite !Z.div_div by lia. f_equal.
    rewrite <- Z.pow_add_r by lia. rewrite <- (Z.pow_1_r 2) at 1.
    rewrite <- Z.pow_add_r by lia. f_equal. lia.
  - assert (H2 : 0 <= shr_m (SpecFloat.iter_pos shr_1 n mrs))
      by (rewrite IH by done; apply Z.div_pos; lia).
    rewrite IH, IH by done. rewrite Z.div_div by lia. f_equal.
    rewrite <- Z.pow_add_r by lia. f_equal. lia.
  - rewrite shr_1_m by done. done.
Qed.

Lemma shr_record_of_loc_m (m : Z) (l : location) : shr_m (shr_record_of_loc m l) = m.
Proof. destruct l as [| []]; reflexivity. Qed.

Lemma shr_m_shift (mrs : shr_record) (e k : Z) :
  0 <= shr_m mrs -> 0 <= k ->
  shr_m (shr mrs e k).1 = shr_m mrs / 2 ^ k /\ (shr mrs e k).2 = e + k.
Proof.
  intros Hm Hk. unfold shr. destruct k as [| kp | kp]; simpl; [| | lia].
  - rewrite Z.div_1_r. split; [done | lia].
  - split; [|done]. by apply iter_pos_shr_1_m.
Qed.

Lemma round_nearest_even_cases (q : Z) (l : location) :
  round_nearest_even q l = q \/ round_nearest_even q l = q + 1.
Proof. destruct l as [| []]; simpl; try tauto. destruct (Z.even q); tauto. Qed.

(** Rounding a mantissa of at least 53 bits in the normal range. *)
Lemma binary_round_aux_normal (s : bool) (m : positive) (e : Z) (l : location) :
  let d := Z.pos (digits2_pos m) in
  let k := d - 53 in
  let q := Z.pos m / 2 ^ k in
  53 <= d -> -1074 <= e + k -> e + k < 971 ->
  exists m1 m2 e2,
    binary_round_aux prec emax s (Z.pos m) e l = S754_finite s m2 e2
    /\ (m1 = q \/ m1 = q + 1)
    /\ (l = loc_Exact -> k = 0 -> m1 = q)
    /\ 2 ^ 52 <= q < 2 ^ 53
    /\ ((Z.pos m2 = m1 /\ e2 = e + k)
        \/ (m1 = 2 ^ 53 /\ Z.pos m2 = 2 ^ 52 /\ e2 = e + k + 1))
    /\ 2 ^ 52 <= Z.pos m2 < 2 ^ 53.
Proof.
  intros d k q Hd Hlo Hhi.
  pose proof (digits2_pos_bounds m) as Hm. fold d in Hm.
  assert (Hq : 2 ^ 52 <= q < 2 ^ 53).
  { unfold q. replace d with (k + 53) in Hm by (unfold k; lia).
    replace (k + 53 - 1) with (52 + k) in Hm by lia.
    rewrite Z.add_comm in Hm. rewrite !Z.pow_add_r in Hm by lia.
    assert (0 < 2 ^ k) by (apply Z.pow_pos_nonneg; lia).
    split.
    - apply Z.div_le_lower_bound; lia.
    - apply Z.div_lt_upper_bound; lia. }
  unfold binary_round_aux, shr_fexp.
  assert (Hshift : fexp prec emax (Zdigits2 (Z.pos m) + e) - e = k).
  { unfold fexp, SpecFloat.emin, prec, emax, Zdigits2. fold d. unfold k. lia. }
  rewrite Hshift.
  destruct (shr_m_shift (shr_record_of_loc (Z.pos m) l) e k) as [Hsm Hse];
    [rewrite shr_record_of_loc_m; lia | unfold k; lia |].
  rewrite shr_record_of_loc_m in Hsm. fold q in Hsm.
  destruct (shr (shr_record_of_loc (Z.pos m) l) e k) as [mrs' e'] eqn:Hshr.
  simpl in Hsm, Hse. subst e'.
  set (m1 := round_nearest_even (shr_m mrs') (loc_of_shr_record mrs')).
  assert (Hm1 : m1 = q \/ m1 = q + 1).
  { unfold m1. rewrite Hsm. apply round_nearest_even_cases. }
  assert (Hexact : l = loc_Exact -> k = 0 -> m1 = q).
  { intros -> Hk0. rewrite Hk0 in Hshr. simpl in Hshr. inversion Hshr; subst mrs'.
    unfold m1. simpl. rewrite <- Hsm. done. }
  assert (Hm1pos : 0 < m1) by lia.
  destruct m1 as [| m1p |] eqn:Hm1p; [lia | | lia].
  destruct (decide (Z.pos m1p < 2 ^ 53)) as [Hsmall | Hbig].
  - assert (Hd1 : Z.pos (digits2_pos m1p) = 53) by (apply digits2_pos_unique; lia).
    assert (Hshift2 : fexp prec emax (Zdigits2 (Z.pos m1p) + (e + k)) - (e + k) = 0).
    { unfold fexp, SpecFloat.emin, prec, emax, Zdigits2. rewrite Hd1. lia. }
    rewrite Hshift2. simpl.
    destruct (Z.leb_spec (e + k) (emax - prec)) as [_ | Hover]; [|unfold emax, prec in Hover; lia].
    exists (Z.pos m1p), m1p, (e + k). repeat split; try done; try lia; try (by left).
  - assert (Heq : Z.pos m1p = 2 ^ 53) by lia.
    assert (Hd1 : Z.pos (digits2_pos m1p) = 54) by (apply digits2_pos_unique; lia).
    assert (Hshift2 : fexp prec emax (Zdigits2 (Z.pos m1p) + (e + k)) - (e + k) = 1).
    { unfold fexp, SpecFloat.emin, prec, emax, Zdigits2. rewrite Hd1. lia. }
    rewrite Hshift2.
    assert (m1p = 9007199254740992%positive) as -> by lia.
    simpl.
    destruct (Z.leb_spec (e + k + 1) (emax - prec)) as [_ | Hover]; [|unfold emax, prec in Hover; lia].
    exists (2 ^ 53), 4503599627370496%positive, (e + k + 1).
    repeat split; try done; try lia; try (by right).
Qed.

Lemma Pos_iter_xO (p n : positive) : Z.pos (Pos.iter xO p n) = Z.pos p * 2 ^ Z.pos n.
Proof.
  induction n as [| n IH] using Pos.peano_ind.
  - simpl. lia.
  - rewrite Pos.iter_succ, Pos2Z.inj_xO, IH, Pos2Z.inj_succ, Z.pow_succ_r by lia. lia.
Qed.

(** [float64(r)] for an integer below 2^53 is exact, with a 53-bit mantissa. *)
Lemma of_int_normal (r : Z) :
  0 < r < 2 ^ 53 ->
  exists mx ex, of_int r = S754_finite false mx ex
                /\ Z.pos mx = r * 2 ^ (- ex)
                /\ 2 ^ 52 <= Z.pos mx < 2 ^ 53
                /\ -52 <= ex <= 0.
Proof.
  intros [Hpos Hlt]. destruct r as [| p |]; [lia | | lia].
  unfold of_int, binary_normalize, binary_round.
  pose proof (digits2_pos_bounds p) as Hd.
  set (d := Z.pos (digits2_pos p)) in *.
  assert (Hd53 : 1 <= d <= 53).
  { split; [unfold d; lia|].
    destruct (Z.le_gt_cases d 53) as [|Hgt]; [done|].
    assert (2 ^ 53 <= 2 ^ (d - 1)) by (apply Z.pow_le_mono_r; lia). lia. }
  assert (Hfexp : fexp prec emax (d + 0) = d - 53)
    by (unfold fexp, SpecFloat.emin, prec, emax; lia).
  rewrite Hfexp.
  assert (Halign : exists mz, shl_align p 0 (d - 53) = (mz, d - 53)
                              /\ Z.pos mz = Z.pos p * 2 ^ (53 - d)).
  { unfold shl_align. destruct (d - 53 - 0) as [| n | n] eqn:Hn; [| lia |].
    - exists p. replace (d - 53) with 0 by lia. replace (53 - d) with 0 by lia.
      split; [done | simpl; lia].
    - exists (Pos.iter xO p n). split; [done|]. rewrite Pos_iter_xO.
      replace (Z.pos n) with (53 - d) by lia. done. }
  destruct Halign as (mz & -> & Hmz).
  assert (Hmzb : 2 ^ 52 <= Z.pos mz < 2 ^ 53).
  { rewrite Hmz.
    assert (E1 : 2 ^ 52 = 2 ^ (d - 1) * 2 ^ (53 - d))
      by (rewrite <- Z.pow_add_r by lia; f_equal; lia).
    assert (E2 : 2 ^ 53 = 2 ^ d * 2 ^ (53 - d))
      by (rewrite <- Z.pow_add_r by lia; f_equal; lia).
    assert (0 < 2 ^ (53 - d)) by (apply Z.pow_pos_nonneg; lia).
    rewrite E1, E2. split.
    - apply Z.mul_le_mono_nonneg_r; lia.
    - apply Z.mul_lt_mono_pos_r; lia. }
  assert (Hdz : Z.pos (digits2_pos mz) = 53) by (apply digits2_pos_unique; lia).
  destruct (binary_round_aux_normal false mz (d - 53) loc_Exact)
    as (m1 & m2 & e2 & -> & _ & Hexact & _ & Hres & _); rewrite ?Hdz; try lia.
  rewrite Hdz in Hexact, Hres. change (53 - 53) with 0 in Hexact, Hres.
  rewrite Z.pow_0_r, Z.div_1_r in Hexact. specialize (Hexact eq_refl eq_refl). subst m1.
  destruct Hres as [[Hm2 He2] | [Habs _]]; [|lia].
  exists m2, e2. split; [done|]. subst e2.
  replace (- (d - 53 + 0)) with (53 - d) by lia. repeat split; lia.
Qed.

(** The product of two doubles with 53-bit mantissas, in the normal range. *)
Lemma mul_normal (sx sy : bool) (mx my : positive) (ex ey : Z) :
  2 ^ 52 <= Z.pos mx < 2 ^ 53 -> 2 ^ 52 <= Z.pos my < 2 ^ 53 ->
  -1126 <= ex + ey -> ex + ey < 918 ->
  exists k m1 m2 e2,
    mul (S754_finite sx mx ex) (S754_finite sy my ey) = S754_finite (xorb sx sy) m2 e2
    /\ (k = 52 \/ k = 53)
    /\ 2 ^ (k + 52) <= Z.pos mx * Z.pos my < 2 ^ (k + 53)
    /\ (m1 = Z.pos mx * Z.pos my / 2 ^ k \/ m1 = Z.pos mx * Z.pos my / 2 ^ k + 1)
    /\ ((Z.pos m2 = m1 /\ e2 = ex + ey + k)
        \/ (m1 = 2 ^ 53 /\ Z.pos m2 = 2 ^ 52 /\ e2 = ex + ey + k + 1)).
Proof.
  intros Hx Hy Hlo Hhi. unfold mul, SF64mul, SFmul.
  pose proof (digits2_pos_bounds (mx * my)) as Hd.
  set (d := Z.pos (digits2_pos (mx * my))) in *.
  rewrite Pos2Z.inj_mul in Hd.
  assert (Hprod : 2 ^ 104 <= Z.pos mx * Z.pos my < 2 ^ 106).
  { change (2 ^ 104) with (2 ^ 52 * 2 ^ 52). change (2 ^ 106) with (2 ^ 53 * 2 ^ 53). nia. }
  assert (Hdd : d = 105 \/ d = 106).
  { destruct (Z.lt_trichotomy d 105) as [Hl | [He | Hg]]; [| by left |].
    - assert (2 ^ d <= 2 ^ 104) by (apply Z.pow_le_mono_r; lia). lia.
    - destruct (Z.le_gt_cases d 106) as [|Hgt]; [lia|].
      assert (2 ^ 106 <= 2 ^ (d - 1)) by (apply Z.pow_le_mono_r; lia). lia. }
  destruct (binary_round_aux_normal (xorb sx sy) (mx * my) (ex + ey) loc_Exact)
    as (m1 & m2 & e2 & Hr & Hm1 & _ & _ & Hres & _); fold d; try lia.
  fold d in Hm1, Hres. rewrite Pos2Z.inj_mul in Hm1.
  exists (d - 53), m1, m2, e2. split; [exact Hr|].
  split; [lia|]. split; [|done].
  replace (d - 53 + 52) with (d - 1) by lia. replace (d - 53 + 53) with d by lia. done.
Qed.

Lemma to_int64_rounded (m1 : Z) (m2 : positive) (e2 E : Z) :
  E < 0 ->
  (Z.pos m2 = m1 /\ e2 = E) \/ (m1 = 2 ^ 53 /\ Z.pos m2 = 2 ^ 52 /\ e2 = E + 1) ->
  to_int64 (S754_finite false m2 e2) = m1 / 2 ^ (- E).
Proof.
  intros HE [[<- ->] | (-> & Hm2 & ->)]; unfold to_int64.
  - destruct (Z.leb_spec 0 E); [lia | done].
  - rewrite Hm2. destruct (Z.leb_spec 0 (E + 1)) as [H0 | Hn].
    + replace E with (-1) by lia. reflexivity.
    + replace (- E) with (1 + - (E + 1)) by lia. rewrite Z.pow_add_r by lia.
      rewrite <- Z.div_div by (try apply Z.pow_pos_nonneg; lia). reflexivity.
Qed.

(** The fourth range of [KubeReserved]: the truncated double product of an
    integer below 2^31 and the double nearest to 0.0025 is the integer
    quotient by 400. *)
Lemma trunc_mul_0_0025 (r : Z) :
  0 <= r < 2 ^ 31 -> to_int64 (mul (of_int r) c0_0025) = r / 400.
Proof.
  intros [H0 Hr]. destruct (decide (r = 0)) as [-> | Hne]; [reflexivity|].
  destruct (of_int_normal r) as (mx & ex & -> & Hmx & Hmxb & Hex); [lia|].
  unfold c0_0025.
  destruct (mul_normal false false mx 5764607523034235 ex (-61))
    as (k & m1 & m2 & e2 & -> & Hk & Hprod & Hm1 & Hres); try lia.
  simpl xorb.
  rewrite (to_int64_rounded m1 m2 e2 (ex + -61 + k)) by (done || lia).
  set (a := 2 ^ (- ex)) in *.
  set (T := 2 ^ (- (ex + -61 + k))).
  assert (Ha : 0 < a) by (apply Z.pow_pos_nonneg; lia).
  assert (HT : 0 < T) by (apply Z.pow_pos_nonneg; lia).
  assert (HTk : T * 2 ^ k = a * 2 ^ 61).
  { unfold T, a. rewrite <- !Z.pow_add_r by lia. f_equal. lia. }
  assert (Hk53 : 0 < 2 ^ k <= 2 ^ 53).
  { split; [apply Z.pow_pos_nonneg; lia | apply Z.pow_le_mono_r; lia]. }
  assert (Ha21 : 2 ^ 21 < a).
  { change (2 ^ 52) with (2 ^ 21 * 2 ^ 31) in Hmxb. nia. }
  set (n := r / 400).
  assert (Hn : 400 * n <= r < 400 * n + 400).
  { unfold n. pose proof (Z.div_mod r 400). pose proof (Z.mod_pos_bound r 400). lia. }
  set (q := Z.pos mx * 5764607523034235 / 2 ^ k) in *.
  assert (Hqlo : n * T <= q).
  { unfold q. apply Z.div_le_lower_bound; [lia|].
    rewrite Hmx. replace (2 ^ k * (n * T)) with (n * (T * 2 ^ k)) by lia.
    rewrite HTk. change (2 ^ 61) with 2305843009213693952. nia. }
  assert (Hqhi : q + 1 < (n + 1) * T).
  { assert (q < (n + 1) * T - 1); [|lia].
    unfold q. apply Z.div_lt_upper_bound; [lia|].
    rewrite Hmx. replace (2 ^ k * ((n + 1) * T - 1)) with ((n + 1) * (T * 2 ^ k) - 2 ^ k) by lia.
    rewrite HTk.
    assert (HX : 2 ^ 51 <= (n + 1) * 2 ^ 61 - r * 5764607523034235)
      by (change (2 ^ 61) with 2305843009213693952; change (2 ^ 51) with 2251799813685248;
          change (2 ^ 31) with 2147483648 in Hr; lia).
    assert (2 ^ 53 < a * ((n + 1) * 2 ^ 61 - r * 5764607523034235)).
    { change (2 ^ 53) with (2 ^ 2 * 2 ^ 51). change (2 ^ 21) with (2 ^ 2 * 2 ^ 19) in Ha21.
      assert (0 < 2 ^ 51) by done. nia. }
    lia. }
  symmetry. apply Z.div_unique with (r := m1 - n * T). 
  - left. lia.
  - lia.
Qed.

(** The quotient of two doubles with 53-bit mantissas, in the normal range. *)
Lemma div_normal (sx sy : bool) (mx my : positive) (ex ey : Z) :
  2 ^ 52 <= Z.pos mx < 2 ^ 53 -> 2 ^ 52 <= Z.pos my < 2 ^ 53 ->
  -1021 <= ex - ey -> ex - ey < 1022 ->
  exists k m1 m2 e2,
    div (S754_finite sx mx ex) (S754_finite sy my ey) = S754_finite (xorb sx sy) m2 e2
    /\ (k = 0 \/ k = 1)
    /\ (m1 = Z.pos mx * 2 ^ 53 / (Z.pos my * 2 ^ k)
        \/ m1 = Z.pos mx * 2 ^ 53 / (Z.pos my * 2 ^ k) + 1)
    /\ 2 ^ 52 <= Z.pos mx * 2 ^ 53 / (Z.pos my * 2 ^ k)
    /\ ((Z.pos m2 = m1 /\ e2 = ex - ey - 53 + k)
        \/ (m1 = 2 ^ 53 /\ Z.pos m2 = 2 ^ 52 /\ e2 = ex - ey - 53 + k + 1))
    /\ 2 ^ 52 <= Z.pos m2 < 2 ^ 53.
Proof.
  intros Hx Hy Hlo Hhi. unfold div, SF64div, SFdiv, SFdiv_core_binary.
  assert (Hdx : Z.pos (digits2_pos mx) = 53) by (apply digits2_pos_unique; lia).
  assert (Hdy : Z.pos (digits2_pos my) = 53) by (apply digits2_pos_unique; lia).
  unfold Zdigits2. rewrite Hdx, Hdy.
  assert (He : Z.min (fexp prec emax (53 + ex - (53 + ey))) (ex - ey) = ex - ey - 53).
  { unfold fexp, SpecFloat.emin, prec, emax. lia. }
  rewrite He. replace (ex - ey - (ex - ey - 53)) with 53 by lia. cbv iota.
  rewrite Z.shiftl_mul_pow2 by lia.
  destruct (Z.div_eucl (Z.pos mx * 2 ^ 53) (Z.pos my)) as [q r] eqn:Hdiv.
  assert (Hq : q = Z.pos mx * 2 ^ 53 / Z.pos my) by (unfold Z.div; rewrite Hdiv; done).
  assert (Hqb : 2 ^ 52 <= q < 2 ^ 54).
  { rewrite Hq. change (2 ^ 54) with (2 * 2 ^ 53). split.
    - apply Z.div_le_lower_bound; [lia|]. nia.
    - apply Z.div_lt_upper_bound; [lia|]. nia. }
  destruct q as [| qp |]; [lia | | lia].
  pose proof (digits2_pos_bounds qp) as Hd.
  set (d := Z.pos (digits2_pos qp)) in *.
  assert (Hdd : d = 53 \/ d = 54).
  { destruct (Z.lt_trichotomy d 53) as [Hl | [He' | Hg]]; [| by left |].
    - assert (2 ^ d <= 2 ^ 52) by (apply Z.pow_le_mono_r; lia). lia.
    - destruct (Z.le_gt_cases d 54) as [|Hgt]; [lia|].
      assert (2 ^ 54 <= 2 ^ (d - 1)) by (apply Z.pow_le_mono_r; lia). lia. }
  destruct (binary_round_aux_normal (xorb sx sy) qp (ex - ey - 53)
              (new_location (Z.pos my) r))
    as (m1 & m2 & e2 & Hr & Hm1 & _ & Hq1 & Hres & Hm2); fold d; try lia.
  fold d in Hm1, Hres, Hq1.
  assert (Hqq : Z.pos qp / 2 ^ (d - 53) = Z.pos mx * 2 ^ 53 / (Z.pos my * 2 ^ (d - 53))).
  { rewrite Hq. apply Z.div_div; [lia | apply Z.pow_pos_nonneg; lia]. }
  rewrite Hqq in Hm1, Hq1.
  exists (d - 53), m1, m2, e2. split; [exact Hr|].
  split; [lia|]. split; [done|]. split; [lia|]. split; done.
Qed.

Lemma ceil_rounded (m1 : Z) (m2 : positive) (e2 E : Z) :
  E < 0 ->
  (Z.pos m2 = m1 /\ e2 = E) \/ (m1 = 2 ^ 53 /\ Z.pos m2 = 2 ^ 52 /\ e2 = E + 1) ->
  ceil (S754_finite false m2 e2) = Some ((m1 + 2 ^ (- E) - 1) / 2 ^ (- E)).
Proof.
  intros HE [[<- ->] | (-> & Hm2 & ->)]; unfold ceil.
  - destruct (Z.leb_spec 0 E); [lia | done].
  - rewrite Hm2. destruct (Z.leb_spec 0 (E + 1)) as [H0 | Hn].
    + replace E with (-1) by lia. reflexivity.
    + f_equal. replace (- E) with (1 + - (E + 1)) by lia. rewrite Z.pow_add_r by lia.
      set (T := 2 ^ (- (E + 1))).
      assert (0 < T) by (apply Z.pow_pos_nonneg; lia).
      rewrite <- Z.div_div by lia. f_equal.
      change (2 ^ 1) with 2. change (2 ^ 53) with (2 * 2 ^ 52).
      apply Z.div_unique with (r := 1); lia.
Qed.

Lemma threshold_arith (C p A1 m1 g m2 K b m3 A2 t : Z) :
  0 < C -> 1 <= p <= 99 -> C * p < 100 * 2 ^ 44 ->
  0 < A1 -> 100 * (m1 - 1) <= C * A1 < 100 * (m1 + 1) -> 2 ^ 52 <= m1 ->
  0 < g -> m2 * A1 = m1 * g ->
  0 < K -> 0 < b -> K * (m3 - 1) <= m2 * p * b < K * (m3 + 1) -> 2 ^ 52 <= m3 ->
  0 < A2 -> A2 * K = g * b ->
  A2 * (t - 1) < m3 <= A2 * t ->
  (C * p + 99) / 100 <= t <= C * p / 100 + 1.
Proof.
  intros HC Hp Hdom HA1 Hm1 Hm1lo Hg Hm2g HK Hb Hm3 Hm3lo HA2 HA2K Ht.
  change (2 ^ 44) with 17592186044416 in *.
  change (2 ^ 52) with 4503599627370496 in *.
  (* the product rounds m1 * p scaled by A2 / A1 *)
  assert (E : K * (m1 * p * A2) = A1 * (m2 * p * b)).
  { transitivity (m1 * p * (A2 * K)); [ring|]. rewrite HA2K.
    transitivity (m1 * g * p * b); [ring|]. rewrite <- Hm2g. ring. }
  assert (R1lo : A1 * (m3 - 1) <= m1 * p * A2).
  { apply (Z.mul_le_mono_pos_l _ _ K); [lia|]. rewrite E.
    replace (K * (A1 * (m3 - 1))) with (A1 * (K * (m3 - 1))) by ring.
    apply Z.mul_le_mono_nonneg_l; lia. }
  assert (R1hi : m1 * p * A2 < A1 * (m3 + 1)).
  { apply (Z.mul_lt_mono_pos_l K); [lia|]. rewrite E.
    replace (K * (A1 * (m3 + 1))) with (A1 * (K * (m3 + 1))) by ring.
    apply Z.mul_lt_mono_pos_l; lia. }
  assert (HpA2 : 0 < p * A2) by nia.
  assert (R2lo : p * A2 * (100 * (m1 - 1)) <= p * A2 * (C * A1))
    by (apply Z.mul_le_mono_nonneg_l; lia).
  assert (R2hi : p * A2 * (C * A1) < p * A2 * (100 * (m1 + 1)))
    by (apply Z.mul_lt_mono_pos_l; lia).
  (* A1 and A2 are large *)
  assert (I0 : A1 * (C * p) < A1 * (100 * 17592186044416))
    by (apply Z.mul_lt_mono_pos_l; lia).
  assert (I0' : p * (100 * (m1 - 1)) <= p * (C * A1))
    by (apply Z.mul_le_mono_nonneg_l; lia).
  assert (I0m : p * 4503599627370496 <= p * m1)
    by (apply Z.mul_le_mono_nonneg_l; lia).
  assert (I1 : 256 * p <= A1) by lia.
  assert (I0'' : p * (C * A1) < p * (100 * (m1 + 1)))
    by (apply Z.mul_lt_mono_pos_l; lia).
  assert (I2a : A1 * 4503599627370495 <= m1 * p * A2).
  { assert (A1 * 4503599627370495 <= A1 * (m3 - 1))
      by (apply Z.mul_le_mono_nonneg_l; lia). lia. }
  assert (I2b : A2 * (100 * (m1 * p)) <= A2 * (A1 * (100 * 17592186044416) + 100 * p)).
  { apply Z.mul_le_mono_nonneg_l; [lia|].
    assert (p * (100 * (m1 - 1)) <= p * (C * A1)) by done. lia. }
  assert (I2c : A2 * (100 * p) <= A2 * A1).
  { apply Z.mul_le_mono_nonneg_l; lia. }
  assert (I2 : 256 <= A2).
  { destruct (Z.le_gt_cases 256 A2) as [|Hlt]; [done|exfalso].
    assert (A1 * A2 <= A1 * 255) by (apply Z.mul_le_mono_nonneg_l; lia).
    lia. }
  assert (R4a : 100 * A2 * (256 * p) <= 100 * A2 * A1)
    by (apply Z.mul_le_mono_nonneg_l; lia).
  assert (R4b : A1 * 256 <= A1 * A2) by (apply Z.mul_le_mono_nonneg_l; lia).
  assert (R4 : 100 * A1 + 100 * p * A2 < A1 * A2) by lia.
  (* conclusion *)
  assert (T1 : 100 * A1 * m3 <= 100 * A1 * (A2 * t))
    by (apply Z.mul_le_mono_nonneg_l; lia).
  assert (T2 : 100 * A1 * (A2 * (t - 1)) < 100 * A1 * m3)
    by (apply Z.mul_lt_mono_pos_l; lia).
  assert (L : C * p - 1 < 100 * t).
  { apply (Z.mul_lt_mono_pos_l (A1 * A2)); [nia|]. lia. }
  assert (U : 100 * (t - 1) < C * p + 1).
  { apply (Z.mul_lt_mono_pos_l (A1 * A2)); [nia|]. lia. }
  split.
  - assert ((C * p + 99) / 100 < t + 1); [|lia].
    apply Z.div_lt_upper_bound; lia.
  - assert (t - 1 <= C * p / 100); [|lia].
    apply Z.div_le_lower_bound; lia.
Qed.

Lemma threshold_exp (C p A1 m1 g m2 K b : Z) :
  0 < C -> 1 <= p <= 99 -> C * p < 100 * 2 ^ 44 ->
  0 < A1 -> C * A1 < 100 * (m1 + 1) -> 100 * (m1 - 1) <= C * A1 ->
  0 < g -> m2 * A1 = m1 * g ->
  0 < b -> K * 2 ^ 52 <= m2 * p * b -> g * b <= K -> False.
Proof.
  intros HC Hp Hdom HA1 Hm1 Hm1' Hg Hm2g Hb HK Hgb.
  change (2 ^ 44) with 17592186044416 in *.
  change (2 ^ 52) with 4503599627370496 in *.
  assert (H1 : g * b * 4503599627370496 <= K * 4503599627370496)
    by (apply Z.mul_le_mono_nonneg_r; lia).
  assert (H2 : g * 4503599627370496 <= m2 * p).
  { apply (Z.mul_le_mono_pos_l _ _ b); [lia|]. lia. }
  assert (H3 : A1 * (g * 4503599627370496) <= A1 * (m2 * p))
    by (apply Z.mul_le_mono_nonneg_l; lia).
  assert (H4 : A1 * 4503599627370496 <= m1 * p).
  { apply (Z.mul_le_mono_pos_l _ _ g); [lia|].
    replace (g * (m1 * p)) with (m1 * g * p) by ring. rewrite <- Hm2g. lia. }
  assert (H5 : p * (100 * (m1 - 1)) <= p * (C * A1))
    by (apply Z.mul_le_mono_nonneg_l; lia).
  assert (H6 : A1 * (C * p) < A1 * (100 * 17592186044416))
    by (apply Z.mul_lt_mono_pos_l; lia).
  lia.
Qed.

(** The double [C / 100 * p] of [ComputeThreshold], rounded up: the
    ceiling of [C * p / 100], or one more when [C * p] is a multiple of
    100. *)
Lemma ceil_percent (C p : Z) :
  0 < C -> 1 <= p <= 99 -> C * p < 100 * 2 ^ 44 ->
  exists t, ceil (mul (div (of_int C) c100) (of_int p)) = Some t
            /\ (C * p + 99) / 100 <= t <= C * p / 100 + 1.
Proof.
  intros HC Hp Hdom.
  assert (HC53 : C < 2 ^ 53).
  { change (2 ^ 44) with 17592186044416 in Hdom. change (2 ^ 53) with 9007199254740992. nia. }
  destruct (of_int_normal C) as (mx & ex & -> & Hmx & Hmxb & Hex); [lia|].
  destruct (of_int_normal p) as (mp & ep & -> & Hmp & Hmpb & Hep); [lia|].
  change c100 with (S754_finite false 7036874417766400 (-46)).
  destruct (div_normal false false mx 7036874417766400 ex (-46))
    as (k1 & m1 & m2 & e2 & -> & Hk1 & Hm1 & Hq1lo & Hres1 & Hm2b); try lia.
  simpl xorb.
  destruct (mul_normal false false m2 mp e2 ep)
    as (k2 & m3 & m4 & e4 & -> & Hk2 & Hprod & Hm3 & Hres2); try lia.
  simpl xorb.
  set (a := 2 ^ (- ex)) in *. set (b := 2 ^ (- ep)) in *.
  set (E1 := ex - -46 - 53 + k1) in *.
  set (A1 := 2 ^ (- E1)).
  set (g := 2 ^ (- e2)).
  set (K := 2 ^ k2) in *.
  assert (Ha : 0 < a) by (apply Z.pow_pos_nonneg; lia).
  assert (Hb : 0 < b) by (apply Z.pow_pos_nonneg; lia).
  assert (HA1 : 0 < A1) by (apply Z.pow_pos_nonneg; unfold E1; lia).
  assert (Hg : 0 < g) by (apply Z.pow_pos_nonneg; unfold E1 in Hres1; lia).
  assert (HK : 0 < K) by (apply Z.pow_pos_nonneg; lia).
  (* the quotient *)
  set (q1 := Z.pos mx * 2 ^ 53 / (7036874417766400 * 2 ^ k1)) in *.
  assert (Hq1 : q1 = C * A1 / 100).
  { unfold q1. rewrite Hmx.
    replace (C * a * 2 ^ 53) with (C * A1 * 2 ^ (46 + k1)).
    2:{ unfold A1, a, E1. rewrite <- !Z.mul_assoc. f_equal.
        rewrite <- !Z.pow_add_r by lia. f_equal. lia. }
    replace (7036874417766400 * 2 ^ k1) with (100 * 2 ^ (46 + k1)).
    2:{ rewrite Z.pow_add_r by lia. change (2 ^ 46) with 70368744177664. lia. }
    apply Z.div_mul_cancel_r; [lia|]. apply Z.pow_nonzero; lia. }
  assert (Hq1b : 100 * q1 <= C * A1 < 100 * (q1 + 1)).
  { rewrite Hq1. pose proof (Z.div_mod (C * A1) 100).
    pose proof (Z.mod_pos_bound (C * A1) 100). lia. }
  assert (Hm2g : Z.pos m2 * A1 = m1 * g).
  { destruct Hres1 as [[H1 H2] | (H1 & H2 & H3)].
    - unfold g. rewrite H1, H2. done.
    - rewrite H1, H2. unfold g, A1. rewrite H3.
      replace (- E1) with (1 + - (E1 + 1)) by lia.
      rewrite Z.pow_add_r by (unfold E1; lia).
      change (2 ^ 53) with (2 ^ 52 * 2 ^ 1). ring. }
  (* the product *)
  set (q2 := Z.pos m2 * Z.pos mp / K) in *.
  assert (HK52 : K * 2 ^ 52 <= Z.pos m2 * p * b).
  { unfold K. rewrite <- Z.pow_add_r by lia. rewrite <- Z.mul_assoc, <- Hmp. lia. }
  assert (Hq2b : K * q2 <= Z.pos m2 * p * b < K * (q2 + 1)).
  { rewrite <- Z.mul_assoc, <- Hmp. unfold q2.
    pose proof (Z.div_mod (Z.pos m2 * Z.pos mp) K).
    pose proof (Z.mod_pos_bound (Z.pos m2 * Z.pos mp) K). lia. }
  assert (Hq2lo : 2 ^ 52 <= q2).
  { unfold q2. apply Z.div_le_lower_bound; [lia|].
    rewrite Hmp, Z.mul_assoc. lia. }
  assert (HE2 : e2 + ep + k2 < 0).
  { destruct (Z.lt_ge_cases (e2 + ep + k2) 0) as [|Hge]; [done|exfalso].
    apply (threshold_exp C p A1 m1 g (Z.pos m2) K b); try done; try lia.
    unfold g, b, K. rewrite <- Z.pow_add_r by (unfold E1 in Hres1; lia).
    apply Z.pow_le_mono_r; lia. }
  rewrite (ceil_rounded m3 m4 e4 (e2 + ep + k2)) by done.
  set (A2 := 2 ^ (- (e2 + ep + k2))).
  assert (HA2 : 0 < A2) by (apply Z.pow_pos_nonneg; lia).
  assert (HA2K : A2 * K = g * b).
  { unfold A2, K, g, b. rewrite <- !Z.pow_add_r by (unfold E1 in Hres1; lia).
    f_equal. lia. }
  eexists. split; [reflexivity|].
  apply (threshold_arith C p A1 m1 g (Z.pos m2) K b m3 A2); try done; try lia.
  pose proof (Z.div_mod (m3 + A2 - 1) A2).
  pose proof (Z.mod_pos_bound (m3 + A2 - 1) A2). lia.
Qed.

End F64Facts.

(** ** Kubelet overhead (overhead.go): kube-reserved *)

Module KubeReservedFacts.
Import Int F64 Resource CloudProvider ResourceFacts F64Facts.

Lemma truncMulAgrees_spec percentage f len r :
  truncMulAgrees percentage f len = true -> 0 <= r < len ->
  truncMul r percentage = f r.
Proof.
  unfold truncMulAgrees. rewrite forallb_forall. intros H Hr.
  apply Z.eqb_eq, H, list_elem_of_In, elem_of_seqZ. lia.
Qed.

Lemma truncMul_0_06 r : 0 <= r <= 1000 -> truncMul r c0_06 = 6 * r / 100.
Proof.
  intros Hr. apply (truncMulAgrees_spec c0_06 (fun r => 6 * r / 100) 1001); [|lia].
  vm_compute. reflexivity.
Qed.

Lemma truncMul_0_01 r : 0 <= r <= 1000 -> truncMul r c0_01 = r / 100.
Proof.
  intros Hr. apply (truncMulAgrees_spec c0_01 (fun r => r / 100) 1001); [|lia].
  vm_compute. reflexivity.
Qed.

Lemma truncMul_0_005 r : 0 <= r <= 2000 -> truncMul r c0_005 = r / 200.
Proof.
  intros Hr. apply (truncMulAgrees_spec c0_005 (fun r => r / 200) 2001); [|lia].
  vm_compute. reflexivity.
Qed.

Lemma truncMul_0_0025 r : 0 <= r < 2 ^ 31 -> truncMul r c0_0025 = r / 400.
Proof. apply trunc_mul_0_0025. Qed.

(** One iteration of the loop, with the two conversions of [r] merged. *)
Lemma cpuRangeStep_eq cpus resources start end_ percentage :
  cpuRangeStep cpus resources (start, end_, percentage) =
  if start <=? MilliValue cpus then
    <[ ResourceCPU := get resources ResourceCPU +
         NewMilliQuantity (truncMul (Z.min (MilliValue cpus) end_ - start) percentage) ]>
      resources
  else resources.
Proof.
  unfold cpuRangeStep, truncMul. destruct (start <=? MilliValue cpus); [|done].
  destruct (Z.ltb_spec (MilliValue cpus) end_).
  - by rewrite Z.min_l by lia.
  - by rewrite Z.min_r by lia.
Qed.

Lemma get_insert_cpu (v : Quantity) (m : ResourceList) :
  get (<[ResourceCPU := v]> m) ResourceCPU = v.
Proof. unfold get. by rewrite lookup_insert_eq. Qed.

Lemma NewMilliQuantity_add a b :
  NewMilliQuantity a + NewMilliQuantity b = NewMilliQuantity (a + b).
Proof. unfold NewMilliQuantity. lia. Qed.

Lemma KubeReserved_cpu_eq (pods cpus : Quantity) :
  KubeReserved pods cpus =
    (if 0 <=? MilliValue cpus
     then <[ ResourceCPU := NewMilliQuantity (kubeReservedCPU (MilliValue cpus)) ]>
     else id)
      ({[ ResourceMemory := Mi (wrap64 (11 * Value pods + 255));
          ResourceEphemeralStorage := Gi 1 ]} : ResourceList).
Proof.
  unfold KubeReserved, cpuRanges. cbn [fold_left]. rewrite !cpuRangeStep_eq.
  set (c := MilliValue cpus). set (base := ({[ _ := _ ; _ := _ ]} : ResourceList)).
  assert (Hb : get base ResourceCPU = 0) by reflexivity.
  unfold kubeReservedCPU.
  assert (Hcases : c < 0 \/ 0 <= c < 1000 \/ 1000 <= c < 2000 \/ 2000 <= c < 4000 \/ 4000 <= c)
    by lia.
  destruct Hcases as [H | [H | [H | [H | H]]]];
    repeat match goal with
      | |- context [?a <=? c] =>
          first [ rewrite (proj2 (Z.leb_le a c)) by lia
                | rewrite (proj2 (Z.leb_gt a c)) by lia ]
      end;
    rewrite ?get_insert_cpu, ?insert_insert_eq, ?Hb, ?NewMilliQuantity_add, ?Z.sub_0_r;
    rewrite ?truncMul_0_06, ?truncMul_0_01, ?truncMul_0_005, ?truncMul_0_0025 by lia;
    rewrite ?Z.add_0_l, ?Z.add_0_r, ?NewMilliQuantity_add; done.
Qed.

(** C9, counterexample: for five cpus the code reserves 82 millicores,
    while 6% of 1000m + 1% of 1000m + 0.5% of 2000m + 0.25% of 1000m is
    82.5 millicores. *)
Lemma KubeReserved_cpu_truncates :
  get (KubeReserved (NewQuantity 110) (NewQuantity 5)) ResourceCPU = NewMilliQuantity 82
  /\ spec_kube_cpu (MilliValue (NewQuantity 5)) = 82500000
  /\ get (KubeReserved (NewQuantity 110) (NewQuantity 5)) ResourceCPU
       <> spec_kube_cpu (MilliValue (NewQuantity 5)).
Proof. vm_compute. repeat split; congruence. Qed.

(** C9, amended: for a pod count whose memory formula fits an int64,
    [KubeReserved] returns memory (11 * pods + 255) Mi and ephemeral-storage
    1Gi; for a non-negative cpu capacity of [c] millicores it also returns
    cpu, which is the sum over the four ranges of the whole millicores
    (rounded down, range by range) of 6% of the first 1000, 1% of the next
    1000, 0.5% of the next 2000 and 0.25% of the rest up to 2^31 millicores;
    a negative capacity gets no cpu entry.  For 110 pods and 2000m this is
    memory 1465Mi and cpu 70m. *)
Theorem KubeReserved_spec (pods cpus : Quantity) :
  in_int64 (11 * Value pods + 255) ->
  KubeReserved pods cpus =
    (if 0 <=? MilliValue cpus
     then <[ ResourceCPU := NewMilliQuantity (kubeReservedCPU (MilliValue cpus)) ]>
     else id)
      ({[ ResourceMemory := Mi (11 * Value pods + 255);
          ResourceEphemeralStorage := Gi 1 ]} : ResourceList)
  /\ KubeReserved (NewQuantity 110) (NewMilliQuantity 2000) =
       {[ ResourceCPU := NewMilliQuantity 70;
          ResourceMemory := Mi 1465;
          ResourceEphemeralStorage := Gi 1 ]}.
Proof.
  intros Hfit. split.
  - rewrite KubeReserved_cpu_eq, wrap64_small by done. reflexivity.
  - rewrite KubeReserved_cpu_eq. vm_compute. reflexivity.
Qed.

Lemma KubeReserved_spec_witness :
  in_int64 (11 * Value (NewQuantity 110) + 255)
  /\ KubeReserved (NewQuantity 110) (NewQuantity 5) =
       {[ ResourceCPU := NewMilliQuantity 82;
          ResourceMemory := Mi 1465;
          ResourceEphemeralStorage := Gi 1 ]}.
Proof.
  assert (H : in_int64 (11 * Value (NewQuantity 110) + 255)) by (vm_compute; split; congruence).
  split; [exact H|].
  rewrite (proj1 (KubeReserved_spec (NewQuantity 110) (NewQuantity 5) H)).
  vm_compute. reflexivity.
Defined.

End KubeReservedFacts.

(** ** Kubelet overhead (overhead.go): eviction thresholds *)

Module ThresholdFacts.
Import Int F64 Resource CloudProvider ResourceFacts F64Facts.

Lemma AsApproximateFloat64_NewQuantity (C : Z) :
  AsApproximateFloat64 (NewQuantity C) = of_int C.
Proof.
  unfold AsApproximateFloat64, NewQuantity.
  rewrite Z.mod_mul, Z.div_mul by (unfold nano; lia). reflexivity.
Qed.

Lemma of_int_not_100 (p : Z) : 0 <= p <= 99 -> eqb (of_int p) c100 = false.
Proof.
  intros Hp.
  assert (H : forallb (fun p => negb (eqb (of_int p) c100)) (seqZ 0 100) = true)
    by (vm_compute; reflexivity).
  rewrite forallb_forall in H. apply negb_true_iff, H, list_elem_of_In, elem_of_seqZ. lia.
Qed.

Lemma div_c100_finite (C : Z) :
  0 < C < 2 ^ 53 -> exists m e, div (of_int C) c100 = S754_finite false m e.
Proof.
  intros HC. destruct (of_int_normal C) as (mx & ex & -> & Hmx & Hmxb & Hex); [lia|].
  change c100 with (S754_finite false 7036874417766400 (-46)).
  destruct (div_normal false false mx 7036874417766400 ex (-46))
    as (k1 & m1 & m2 & e2 & -> & _); try lia.
  by eexists _, _.
Qed.

(** A percentage that parses to the double zero gives the threshold 0. *)
Lemma ceil_percent_zero (C : Z) :
  0 <= C < 2 ^ 53 -> ceil (mul (div (of_int C) c100) (of_int 0)) = Some 0.
Proof.
  intros HC. destruct (decide (C = 0)) as [-> | Hne]; [reflexivity|].
  destruct (div_c100_finite C) as (m & e & ->); [lia|]. reflexivity.
Qed.

(** C3, counterexample: for a base of 14 and "50%" the code returns 8, and
    the ceiling of 14 * 50 / 100 is 7. *)
Lemma ComputeThreshold_rounds_above_ceiling :
  @ComputeThreshold decimalParsers (NewQuantity 14) "50%" = Some (NewQuantity 8)
  /\ spec_threshold 14 50 = 7.
Proof. split; vm_compute; reflexivity. Qed.

(** C3, amended: a value without the "%" suffix is parsed as a quantity.
    For a whole base quantity [C] below 2^53 and a value that parses to
    100 percent the threshold is 0.  For a whole percentage [p] from 0 to
    99 with [C * p / 100] below 2^44 the threshold is a whole number [t]
    between the ceiling of [C * p / 100] and the integer quotient plus
    one: the ceiling when [C * p] is not a multiple of 100, the ceiling or
    one more when it is (the quotient and the product are rounded to
    doubles before the ceiling is taken). *)
Theorem ComputeThreshold_spec `{Parsers} (base : Quantity) (C p : Z) (v : string) :
  (HasSuffix v "%" = false -> ComputeThreshold base v = ParseQuantity v)
  /\ (HasSuffix v "%" = true -> ParsePercentage v = Some (of_int 100) ->
      0 <= C < 2 ^ 53 ->
      ComputeThreshold (NewQuantity C) v = Some (NewQuantity 0))
  /\ (HasSuffix v "%" = true -> ParsePercentage v = Some (of_int p) ->
      0 <= p <= 99 -> 0 <= C < 2 ^ 53 -> C * p < 100 * 2 ^ 44 ->
      exists t, ComputeThreshold (NewQuantity C) v = Some (NewQuantity t)
                /\ spec_threshold C p <= t <= C * p / 100 + 1).
Proof.
  unfold ComputeThreshold. repeat split.
  - by intros ->.
  - intros -> -> HC. simpl. rewrite AsApproximateFloat64_NewQuantity.
    change (eqb (of_int 100) c100) with true. cbv iota.
    unfold MustParseCeil. by rewrite ceil_percent_zero.
  - intros -> -> Hp HC Hdom. simpl. rewrite AsApproximateFloat64_NewQuantity.
    rewrite of_int_not_100 by done. unfold MustParseCeil, spec_threshold.
    destruct (Z.eqb_spec p 100) as [|_]; [lia|].
    destruct (decide (p = 0)) as [-> | Hp0].
    { rewrite ceil_percent_zero by done. exists 0. split; [done|].
      rewrite Z.mul_0_r. done. }
    destruct (decide (C = 0)) as [-> | HC0].
    { exists 0. split; [|done].
      destruct (of_int_normal p) as (mp & ep & -> & _); [lia|]. reflexivity. }
    destruct (ceil_percent C p) as (t & -> & Ht); try lia.
    exists t. split; [done | lia].
Qed.

Lemma ComputeThreshold_spec_witness :
  exists t, @ComputeThreshold decimalParsers (NewQuantity 1000) "10%" = Some (NewQuantity t)
            /\ spec_threshold 1000 10 <= t <= 1000 * 10 / 100 + 1.
Proof.
  apply (proj2 (proj2 (@ComputeThreshold_spec decimalParsers 0 1000 10 "10%")));
    [reflexivity | vm_compute; reflexivity | lia | lia | lia].
Defined.

End ThresholdFacts.

(** ** Kubelet overhead (helper.go) *)

Module OverheadFacts.
Import Int F64 Resource CloudProvider ResourceFacts F64Facts KubeReservedFacts ThresholdFacts.

Lemma kubeReservedCPU_mono c c' : 0 <= c <= c' -> kubeReservedCPU c <= kubeReservedCPU c'.
Proof.
  intros Hc. unfold kubeReservedCPU.
  assert (H1 : 6 * Z.min c 1000 / 100 <= 6 * Z.min c' 1000 / 100)
    by (apply Z.div_le_mono; lia).
  assert (H2 : (if 1000 <=? c then (Z.min c 2000 - 1000) / 100 else 0)
               <= (if 1000 <=? c' then (Z.min c' 2000 - 1000) / 100 else 0)).
  { destruct (Z.leb_spec 1000 c); destruct (Z.leb_spec 1000 c'); try lia.
    - apply Z.div_le_mono; lia.
    - apply Z.div_pos; lia. }
  assert (H3 : (if 2000 <=? c then (Z.min c 4000 - 2000) / 200 else 0)
               <= (if 2000 <=? c' then (Z.min c' 4000 - 2000) / 200 else 0)).
  { destruct (Z.leb_spec 2000 c); destruct (Z.leb_spec 2000 c'); try lia.
    - apply Z.div_le_mono; lia.
    - apply Z.div_pos; lia. }
  assert (H4 : (if 4000 <=? c then (Z.min c (2 ^ 31) - 4000) / 400 else 0)
               <= (if 4000 <=? c' then (Z.min c' (2 ^ 31) - 4000) / 400 else 0)).
  { destruct (Z.leb_spec 4000 c); destruct (Z.leb_spec 4000 c'); try lia.
    - apply Z.div_le_mono; lia.
    - apply Z.div_pos; lia. }
  lia.
Qed.

Lemma kubeReservedCPU_bounds c : 0 <= c -> 0 <= kubeReservedCPU c /\ 100 * kubeReservedCPU c <= 6 * c.
Proof.
  intros Hc. unfold kubeReservedCPU.
  pose proof (Z.mul_div_le (6 * Z.min c 1000) 100 ltac:(lia)).
  pose proof (Z.div_pos (6 * Z.min c 1000) 100 ltac:(lia) ltac:(lia)).
  assert (0 <= (if 1000 <=? c then (Z.min c 2000 - 1000) / 100 else 0)
          /\ 100 * (if 1000 <=? c then (Z.min c 2000 - 1000) / 100 else 0)
             <= Z.max 0 (Z.min c 2000 - 1000)) as [? ?].
  { destruct (Z.leb_spec 1000 c); [|lia].
    pose proof (Z.mul_div_le (Z.min c 2000 - 1000) 100 ltac:(lia)).
    pose proof (Z.div_pos (Z.min c 2000 - 1000) 100 ltac:(lia) ltac:(lia)). lia. }
  assert (0 <= (if 2000 <=? c then (Z.min c 4000 - 2000) / 200 else 0)
          /\ 200 * (if 2000 <=? c then (Z.min c 4000 - 2000) / 200 else 0)
             <= Z.max 0 (Z.min c 4000 - 2000)) as [? ?].
  { destruct (Z.leb_spec 2000 c); [|lia].
    pose proof (Z.mul_div_le (Z.min c 4000 - 2000) 200 ltac:(lia)).
    pose proof (Z.div_pos (Z.min c 4000 - 2000) 200 ltac:(lia) ltac:(lia)). lia. }
  assert (0 <= (if 4000 <=? c then (Z.min c (2 ^ 31) - 4000) / 400 else 0)
          /\ 400 * (if 4000 <=? c then (Z.min c (2 ^ 31) - 4000) / 400 else 0)
             <= Z.max 0 (c - 4000)) as [? ?].
  { destruct (Z.leb_spec 4000 c); [|lia].
    pose proof (Z.mul_div_le (Z.min c (2 ^ 31) - 4000) 400 ltac:(lia)).
    pose proof (Z.div_pos (Z.min c (2 ^ 31) - 4000) 400 ltac:(lia) ltac:(lia)). lia. }
  lia.
Qed.

Lemma KubeReserved_cpu_get pods cpus :
  get (KubeReserved pods cpus) ResourceCPU =
  if 0 <=? MilliValue cpus then NewMilliQuantity (kubeReservedCPU (MilliValue cpus)) else 0.
Proof.
  rewrite KubeReserved_cpu_eq. destruct (0 <=? MilliValue cpus).
  - apply get_insert_cpu.
  - reflexivity.
Qed.

Lemma MilliValue_mono (q q' : Quantity) : 0 <= q <= q' -> 0 <= MilliValue q <= MilliValue q'.
Proof.
  intros Hq. unfold MilliValue, round_away, micro.
  destruct (Z.leb_spec 0 q); [|lia]. destruct (Z.leb_spec 0 q'); [|lia].
  split; [apply Z.div_pos; lia | apply Z.div_le_mono; lia].
Qed.

(** The cpu that [KubeReserved] reserves does not depend on the pod count.
    The code works on [cpus.MilliValue()], the capacity rounded up to whole
    millicores: (1) when that is negative the result has no cpu entry;
    (2) otherwise the reserve is not negative and at most 6% of the
    rounded-up capacity; (3) it does not decrease when the rounded-up
    capacity grows, and so (4) not when a non-negative capacity grows;
    (5) for a capacity of a whole number of millicores it is at most 6% of
    the capacity itself; (6) for a fractional one it can be more than that:
    16.0001m is read as 17m and reserves 1m, over 6% of 16.0001m. *)
Theorem KubeReserved_cpu_monotone (pods pods' cpus cpus' : Quantity) :
  (MilliValue cpus < 0 -> KubeReserved pods cpus !! ResourceCPU = None)
  /\ (0 <= MilliValue cpus ->
      0 <= get (KubeReserved pods cpus) ResourceCPU
      /\ 100 * get (KubeReserved pods cpus) ResourceCPU <= 6 * NewMilliQuantity (MilliValue cpus))
  /\ (0 <= MilliValue cpus <= MilliValue cpus' ->
      get (KubeReserved pods cpus) ResourceCPU <= get (KubeReserved pods' cpus') ResourceCPU)
  /\ (0 <= cpus <= cpus' ->
      get (KubeReserved pods cpus) ResourceCPU <= get (KubeReserved pods' cpus') ResourceCPU)
  /\ (forall c, 0 <= c ->
        100 * get (KubeReserved pods (NewMilliQuantity c)) ResourceCPU <= 6 * NewMilliQuantity c)
  /\ (get (KubeReserved pods 16000100) ResourceCPU = NewMilliQuantity 1
      /\ 6 * 16000100 < 100 * get (KubeReserved pods 16000100) ResourceCPU).
Proof.
  assert (Hmono : forall p p' q q', 0 <= MilliValue q <= MilliValue q' ->
            get (KubeReserved p q) ResourceCPU <= get (KubeReserved p' q') ResourceCPU).
  { intros p p' q q' Hle. rewrite !KubeReserved_cpu_get.
    destruct (Z.leb_spec 0 (MilliValue q)); [|lia].
    destruct (Z.leb_spec 0 (MilliValue q')); [|lia].
    pose proof (kubeReservedCPU_mono _ _ Hle). unfold NewMilliQuantity, micro. lia. }
  assert (Hbound : forall p q, 0 <= MilliValue q ->
            0 <= get (KubeReserved p q) ResourceCPU
            /\ 100 * get (KubeReserved p q) ResourceCPU <= 6 * NewMilliQuantity (MilliValue q)).
  { intros p q H0. rewrite KubeReserved_cpu_get.
    destruct (Z.leb_spec 0 (MilliValue q)); [|lia].
    pose proof (kubeReservedCPU_bounds (MilliValue q) H0). unfold NewMilliQuantity, micro. lia. }
  split; [|split; [|split; [|split; [|split]]]].
  - intros Hneg. rewrite KubeReserved_cpu_eq.
    destruct (Z.leb_spec 0 (MilliValue cpus)); [lia|]. reflexivity.
  - apply Hbound.
  - apply Hmono.
  - intros Hle. apply Hmono. by apply MilliValue_mono.
  - intros c Hc. pose proof (Hbound pods (NewMilliQuantity c)) as H.
    rewrite MilliValue_NewMilliQuantity in H. by apply H.
  - rewrite KubeReserved_cpu_get. by vm_compute.
Qed.

(** The kube-reserved memory follows the pod count the kubelet
    configuration sets, not the instance type's own: with [maxPods = m]
    (no pods-per-core, no kube-reserved override) it is (11 * m + 255) Mi. *)
Theorem kubeReservedResources_max_pods (it : InstanceType) (kc : KubeletConfiguration) (m : Z) :
  MaxPods kc = Some m -> Int32Value (PodsPerCore kc) <= 0 -> KubeReservedCfg kc = None ->
  in_int64 (11 * m + 255) ->
  kubeReservedResources it (Some kc) !! ResourceMemory = Some (Mi (11 * m + 255))
  /\ kubeReservedResources it (Some kc) !! ResourceEphemeralStorage = Some (Gi 1).
Proof.
  intros Hm Hppc Hkr Hfit. unfold kubeReservedResources.
  change (Some kc ≫= KubeReservedCfg) with (KubeReservedCfg kc). rewrite Hkr.
  assert (Hp : pods it (Some kc) = NewQuantity m).
  { unfold pods. rewrite Hm. destruct (Z.ltb_spec 0 (Int32Value (PodsPerCore kc))); [lia|done]. }
  rewrite Hp, KubeReserved_cpu_eq, Value_NewQuantity, wrap64_small by done.
  destruct (0 <=? _); done.
Qed.

Lemma kubeReservedResources_max_pods_witness :
  kubeReservedResources (mkInstanceType "small" 2 29) (Some (kubelet (Some 110) None))
    !! ResourceMemory = Some (Mi 1465).
Proof.
  apply (proj1 (kubeReservedResources_max_pods (mkInstanceType "small" 2 29)
                  (kubelet (Some 110) None) 110 eq_refl ltac:(vm_compute; discriminate) eq_refl
                  ltac:(vm_compute; split; discriminate))).
Defined.

(** The default hard eviction threshold: memory 100Mi, and for a storage
    capacity of [C] (a whole number, with [C / 10] below 2^44) an
    ephemeral-storage threshold of a tenth of [C] rounded up, or one more
    than that when [C] is a multiple of 10 (the quotient [C / 100] is
    rounded to a double before it is multiplied by 10). *)
Theorem EvictionHardThreshold_default `{Parsers} (C : Z) :
  ParsePercentage "10%" = Some (of_int 10) ->
  0 <= C -> C * 10 < 100 * 2 ^ 44 ->
  exists t, EvictionHardThreshold (NewQuantity C) =
              Some {[ ResourceMemory := Mi 100; ResourceEphemeralStorage := NewQuantity t ]}
            /\ (C + 9) / 10 <= t <= C / 10 + 1.
Proof.
  intros Hparse HC Hdom. unfold EvictionHardThreshold, ComputeThreshold.
  change (HasSuffix "10%" "%") with true. cbv iota. rewrite Hparse. cbn [mbind option_bind].
  rewrite of_int_not_100 by lia. rewrite AsApproximateFloat64_NewQuantity.
  unfold MustParseCeil.
  destruct (decide (C = 0)) as [-> | HC0].
  { exists 0. split; [reflexivity | done]. }
  destruct (ceil_percent C 10) as (t & -> & Ht); try lia.
  exists t. split; [reflexivity|].
  assert (E1 : (C * 10 + 99) / 100 = (C + 9) / 10).
  { symmetry. apply Z.div_unique with (r := 10 * ((C + 9) mod 10) + 9).
    - left. pose proof (Z.mod_pos_bound (C + 9) 10). lia.
    - pose proof (Z.div_mod (C + 9) 10). lia. }
  assert (E2 : C * 10 / 100 = C / 10).
  { change 100 with (10 * 10). rewrite Z.div_mul_cancel_r by lia. done. }
  lia.
Qed.

Lemma EvictionHardThreshold_default_witness :
  exists t, @EvictionHardThreshold decimalParsers (NewQuantity 1000) =
              Some {[ ResourceMemory := Mi 100; ResourceEphemeralStorage := NewQuantity t ]}
            /\ (1000 + 9) / 10 <= t <= 1000 / 10 + 1.
Proof.
  apply (@EvictionHardThreshold_default decimalParsers 1000);
    [vm_compute; reflexivity | lia | lia].
Defined.

(** Of the hard eviction signals of the kubelet configuration only
    memory.available and nodefs.available are read: with neither of them
    the thresholds are the defaults, and a memory.available signal alone
    replaces the memory threshold and leaves the ephemeral-storage one. *)
Theorem evictionHardThreshold_override `{Parsers} (it : InstanceType)
    (kc : KubeletConfiguration) (signals : gmap string string) (base : ResourceList) :
  EvictionHard kc = Some signals ->
  signals !! EvictionSignalNodeFSAvailable = None ->
  EvictionHardThreshold (get (Capacity it) ResourceEphemeralStorage) = Some base ->
  match signals !! EvictionSignalMemoryAvailable with
  | None => evictionHardThreshold it (Some kc) = evictionHardThreshold it None
  | Some v =>
      evictionHardThreshold it (Some kc) =
      (fun t => <[ ResourceMemory := t ]> base)
        <$> ComputeThreshold (get (Capacity it) ResourceMemory) v
  end.
Proof.
  intros Hkc Hfs Hbase. unfold evictionHardThreshold, thresholdOverride.
  rewrite Hbase. simpl. rewrite Hkc, Hfs.
  destruct (signals !! EvictionSignalMemoryAvailable) as [v|]; simpl.
  - destruct (ComputeThreshold _ v) as [t|]; simpl; [|done].
    unfold Assign. by rewrite insert_union_singleton_l.
  - unfold Assign. by rewrite (left_id_L ∅ (∪)).
Qed.

Lemma evictionHardThreshold_override_witness :
  @evictionHardThreshold decimalParsers storageInstanceType (Some memoryHardKubelet)
  = Some {[ ResourceMemory := Mi 200; ResourceEphemeralStorage := NewQuantity 100 ]}.
Proof.
  rewrite (@evictionHardThreshold_override decimalParsers storageInstanceType memoryHardKubelet
             {[ EvictionSignalMemoryAvailable := "200Mi" ]}
             {[ ResourceMemory := Mi 100; ResourceEphemeralStorage := NewQuantity 100 ]}
             eq_refl eq_refl);
    vm_compute; reflexivity.
Defined.

(** [populateOverhead] keeps the number, the order and the names of the
    instance types; it sets the pods capacity of each to what [pods] gives
    and leaves every other capacity as it was. *)
Theorem populateOverhead_capacity `{Parsers} (instanceTypes its' : list InstanceType)
    (kc : option KubeletConfiguration) :
  populateOverhead instanceTypes kc = Some its' ->
  Forall2 (fun it it' =>
             Name it' = Name it
             /\ Capacity it' !! ResourcePods = Some (pods it kc)
             /\ forall k, k <> ResourcePods -> Capacity it' !! k = Capacity it !! k)
          instanceTypes its'.
Proof.
  unfold populateOverhead. rewrite mapM_Some. intros Hall.
  eapply Forall2_impl; [exact Hall|]. intros it it' Hit. simpl in Hit. unfold populateOverhead1 in Hit.
  destruct (evictionSoftThreshold it kc) as [soft|]; simpl in Hit; [|done].
  destruct (evictionHardThreshold it kc) as [hard|]; simpl in Hit; [|done].
  inversion Hit; subst; simpl. split; [done|]. split.
  - by rewrite lookup_insert_eq.
  - intros k Hk. by rewrite lookup_insert_ne.
Qed.

Lemma populateOverhead_capacity_witness :
  Forall2 (fun it it' =>
             Name it' = Name it
             /\ Capacity it' !! ResourcePods = Some (pods it (Some (kubelet (Some 20) (Some 4))))
             /\ forall k, k <> ResourcePods -> Capacity it' !! k = Capacity it !! k)
          [mkInstanceType "large" 8 110]
          (default [] (@populateOverhead decimalParsers [mkInstanceType "large" 8 110]
                         (Some (kubelet (Some 20) (Some 4))))).
Proof.
  apply (@populateOverhead_capacity decimalParsers). vm_compute. reflexivity.
Defined.

End OverheadFacts.

(** ** Pods capacity (helper.go) *)

Module PodsFacts.
Import Int Resource CloudProvider ResourceFacts.

(** C2, counterexample.  An instance type with an intrinsic ceiling of 29
    pods and a kubelet configuration with [maxPods = 110]: [pods] yields
    110, the minimum the specification describes is 29. *)
Lemma pods_max_pods_above_intrinsic :
  Value (pods (mkInstanceType "small" 2 29) (Some (kubelet (Some 110) None))) = 110
  /\ spec_pods 29 2 (Some 110) None = 29
  /\ Value (pods (mkInstanceType "small" 2 29) (Some (kubelet (Some 110) None)))
     <> spec_pods 29 2 (Some 110) None.
Proof. repeat split; vm_compute; congruence. Qed.

(** C2, amended.  Without a kubelet configuration the pods capacity is the
    instance type's own.  With one, it starts from [maxPods] when that is
    set (replacing the intrinsic ceiling, even when larger) and from the
    intrinsic ceiling otherwise, and is lowered to [podsPerCore * vcpus]
    when [podsPerCore > 0]; it is the specification's minimum whenever
    [maxPods] is unset or does not exceed the intrinsic ceiling. *)
Theorem pods_spec (it : InstanceType) (kc : KubeletConfiguration) :
  in_int64 (Int32Value (PodsPerCore kc) * Value (get (Capacity it) ResourceCPU)) ->
  let intrinsic := Value (get (Capacity it) ResourcePods) in
  let vcpus := Value (get (Capacity it) ResourceCPU) in
  let base := default intrinsic (MaxPods kc) in
  pods it None = get (Capacity it) ResourcePods
  /\ Value (pods it (Some kc)) =
       (if 0 <? Int32Value (PodsPerCore kc)
        then Z.min (Int32Value (PodsPerCore kc) * vcpus) base else base)
  /\ ((forall m, MaxPods kc = Some m -> m <= intrinsic) ->
      Value (pods it (Some kc)) = spec_pods intrinsic vcpus (MaxPods kc) (PodsPerCore kc)).
Proof.
  intros Hrange intrinsic vcpus base.
  assert (Hval : Value (pods it (Some kc)) =
       (if 0 <? Int32Value (PodsPerCore kc)
        then Z.min (Int32Value (PodsPerCore kc) * vcpus) base else base)).
  { unfold pods. rewrite Value_NewQuantity.
    fold intrinsic. fold vcpus.
    replace (match MaxPods kc with Some m => m | None => intrinsic end) with base
      by (unfold base; destruct (MaxPods kc); reflexivity).
    destruct (0 <? Int32Value (PodsPerCore kc)); [|reflexivity].
    unfold vcpus. rewrite wrap64_small by exact Hrange. reflexivity. }
  split; [reflexivity|]. split; [exact Hval|].
  intros Hle. rewrite Hval. unfold spec_pods, base, Int32Value.
  destruct (MaxPods kc) as [m|] eqn:Hm; destruct (PodsPerCore kc) as [c|]; simpl;
    try specialize (Hle m eq_refl);
    repeat match goal with |- context [?a <? ?b] => destruct (Z.ltb_spec a b) end; lia.
Qed.

(** The kubelet configuration of the specification's scenario
    ([pods_per_core = 4], [max_pods = 20], 8 vcpus) on an instance type
    with an intrinsic ceiling of 110 pods. *)
Lemma pods_spec_witness :
  Value (pods (mkInstanceType "large" 8 110) (Some (kubelet (Some 20) (Some 4)))) = 20.
Proof.
  pose proof (pods_spec (mkInstanceType "large" 8 110) (kubelet (Some 20) (Some 4))) as Hs.
  destruct Hs as (_ & Hv & _).
  - vm_compute. split; discriminate.
  - rewrite Hv. vm_compute. reflexivity.
Defined.

End PodsFacts.

(** ** Compatibility of requirements (requirements.go) *)

Module RequirementsFacts.
Import Requirements.

Section WithRequirement.
Context `{RequirementOps}.

Lemma Has_true (r : RequirementsT) key : Has r key = true <-> key ∈ dom r.
Proof. unfold Has. rewrite bool_decide_eq_true. by rewrite elem_of_dom. Qed.

Lemma elem_of_Intersects (r requirements : RequirementsT) e :
  e ∈ Intersects r requirements <->
  exists key, key ∈ dom r /\ key ∈ dom requirements /\ intersects1 r requirements key = Some e.
Proof.
  unfold Intersects, Keys. rewrite list_elem_of_omap. split.
  - intros (key & Hin & He). exists key.
    apply elem_of_elements, elem_of_intersection in Hin. tauto.
  - intros (key & Hr & Hq & He). exists key. split; [|done].
    apply elem_of_elements, elem_of_intersection. done.
Qed.

Lemma intersects1_key (r requirements : RequirementsT) key e :
  intersects1 r requirements key = Some e ->
  e = ErrNotIn key (Get requirements key) (Get r key).
Proof.
  unfold intersects1. intros He.
  destruct (Len _ =? 0); [|discriminate].
  destruct (negative _ && negative _); [discriminate|]. congruence.
Qed.

Lemma elem_of_Compatible (r requirements : RequirementsT) e :
  e ∈ Compatible r requirements <->
  (exists key, key ∈ dom requirements /\ (key ∉ WellKnownLabels)
               /\ compatible1 r requirements key = Some e)
  \/ e ∈ Intersects r requirements.
Proof.
  unfold Compatible, Keys. rewrite elem_of_app, list_elem_of_omap.
  split; (intros [Hl | Hr]; [left | by right]).
  - destruct Hl as (key & Hin & He). exists key.
    apply elem_of_elements, elem_of_difference in Hin. tauto.
  - destruct Hl as (key & Hq & Hw & He). exists key. split; [|done].
    apply elem_of_elements, elem_of_difference. done.
Qed.

Lemma compatible1_key (r requirements : RequirementsT) key e :
  compatible1 r requirements key = Some e ->
  err_key e = key /\ Has r key = false.
Proof.
  unfold compatible1. intros He.
  destruct (Has r key); simpl in He; [discriminate|].
  destruct (bool_decide _ || bool_decide _); simpl in He; [discriminate|].
  inversion He. done.
Qed.

(** What the intersection check reports is a key both sides define. *)
Lemma Intersects_reports_shared (r requirements : RequirementsT) e :
  e ∈ Intersects r requirements -> err_key e ∈ dom r ∩ dom requirements.
Proof.
  rewrite elem_of_Intersects. intros (key & Hr & Hq & He).
  apply intersects1_key in He. subst e. simpl.
  apply elem_of_intersection. done.
Qed.

(** C8.  Let [key] be defined on both sides, by [existing] and by
    [incoming], with an empty intersection.  Unless both operators are
    among NotIn and DoesNotExist, [Compatible] returns the error for that
    key; if both are, [Compatible] returns no error about the key.  What
    [Intersects] reports is always a key of both sides. *)
Theorem Compatible_empty_intersection (r requirements : RequirementsT)
    (key : string) (existing incoming : Requirement) :
  r !! key = Some existing ->
  requirements !! key = Some incoming ->
  Len (Intersection existing incoming) = 0 ->
  ((negative (Operator incoming) && negative (Operator existing)) = false ->
     ErrNotIn key incoming existing ∈ Compatible r requirements)
  /\ ((negative (Operator incoming) && negative (Operator existing)) = true ->
     forall e, e ∈ Compatible r requirements -> err_key e <> key)
  /\ (forall e, e ∈ Intersects r requirements -> err_key e ∈ dom r ∩ dom requirements).
Proof.
  intros Hr Hq Hlen.
  assert (Hi : intersects1 r requirements key =
               if negative (Operator incoming) && negative (Operator existing)
               then None else Some (ErrNotIn key incoming existing)).
  { unfold intersects1, Get. rewrite Hr, Hq, Hlen. reflexivity. }
  split; [|split].
  - intros Hneg. rewrite Hneg in Hi.
    apply elem_of_Compatible. right. apply elem_of_Intersects.
    exists key. repeat split; [by apply elem_of_dom_2 in Hr | by apply elem_of_dom_2 in Hq | done].
  - intros Hneg e He Hk. rewrite Hneg in Hi.
    apply elem_of_Compatible in He as [(key' & _ & _ & He) | He].
    + apply compatible1_key in He as [Hk' Hhas]. rewrite Hk in Hk'. subst key'.
      assert (Has r key = true) as Ht by (apply Has_true; by apply elem_of_dom_2 in Hr).
      congruence.
    + apply elem_of_Intersects in He as (key' & _ & _ & He).
      pose proof (intersects1_key _ _ _ _ He) as ->. simpl in Hk. subst key'.
      congruence.
  - apply Intersects_reports_shared.
Qed.

Lemma Add1_keyed (r : RequirementsT) req : keyed r -> keyed (Add1 r req).
Proof.
  intros Hr k v. unfold Add1.
  destruct (r !! Key req) as [existing|]; intros Hk.
  - destruct (decide (Key (Intersection req existing) = k)) as [<- | Hne].
    + rewrite lookup_insert_eq in Hk. congruence.
    + rewrite lookup_insert_ne in Hk by done. by apply Hr.
  - destruct (decide (Key req = k)) as [<- | Hne].
    + rewrite lookup_insert_eq in Hk. congruence.
    + rewrite lookup_insert_ne in Hk by done. by apply Hr.
Qed.

Lemma Add1_dom (r : RequirementsT) req : dom r ⊆ dom (Add1 r req).
Proof. unfold Add1. intros k. rewrite dom_insert. set_solver. Qed.

Lemma Add_values_fresh (l : list (string * Requirement)) (acc : RequirementsT) :
  NoDup l.*1 ->
  (forall k v, (k, v) ∈ l -> Key v = k /\ acc !! k = None) ->
  Add acc l.*2 = list_to_map l ∪ acc.
Proof.
  unfold Add. revert acc. induction l as [| [k v] l IH]; intros acc Hnd Hl.
  - simpl. by rewrite (left_id_L ∅ (∪)).
  - rewrite fmap_cons in Hnd. apply NoDup_cons in Hnd as [Hk Hnd]. cbn [fst] in Hk.
    destruct (Hl k v) as [Hkv Hacc]; [left|].
    rewrite fmap_cons, list_to_map_cons. cbn [fold_left snd].
    assert (HA : Add1 acc v = <[k := v]> acc) by (unfold Add1; rewrite Hkv, Hacc; cbv beta iota zeta; by rewrite Hkv).
    rewrite HA, IH; [| done |].
    + rewrite <- insert_union_l. rewrite <- insert_union_r; [done|].
      by apply not_elem_of_list_to_map_1.
    + intros k' v' Hin. destruct (Hl k' v') as [Hkv' Hacc']; [by right|].
      split; [done|]. rewrite lookup_insert_ne; [done|].
      intros ->. apply Hk. apply list_elem_of_fmap. by exists (k', v').
Qed.

Lemma Add_keyed (r : RequirementsT) requirements : keyed r -> keyed (Add r requirements).
Proof.
  unfold Add. revert r. induction requirements as [| req l IH]; intros r Hr; simpl; [done|].
  apply IH. by apply Add1_keyed.
Qed.

Lemma Add_dom (r : RequirementsT) requirements : dom r ⊆ dom (Add r requirements).
Proof.
  unfold Add. revert r. induction requirements as [| req l IH]; intros r; simpl; [done|].
  etrans; [apply Add1_dom | apply IH].
Qed.

(** [Add] never removes a key; requirements built by [Add] from nothing
    store every requirement under the key it carries, [Add] keeps that
    property, and copying such requirements with
    [NewRequirements (r.Values()...)], as [ExistingNode.Add] does, gives
    the same requirements back. *)
Theorem Add_keeps_keys (r : RequirementsT) (requirements : list Requirement) :
  Keys r ⊆ Keys (Add r requirements)
  /\ keyed (NewRequirements requirements)
  /\ (keyed r -> keyed (Add r requirements) /\ NewRequirements (Values r) = r).
Proof.
  split; [apply Add_dom|]. split.
  - apply Add_keyed. intros k v. by rewrite lookup_empty.
  - intros Hr. split; [by apply Add_keyed|].
    unfold NewRequirements, Values. rewrite Add_values_fresh.
    + by rewrite (right_id_L ∅ (∪)), list_to_map_to_list.
    + apply NoDup_fst_map_to_list.
    + intros k v Hin. apply elem_of_map_to_list in Hin. split; [by apply Hr | apply lookup_empty].
Qed.

(** A key that [requirements] asks for and [r] does not define: a custom
    label is denied, with the label-unknown error, unless the incoming
    operator is NotIn or DoesNotExist; a well-known label is allowed (no
    error names the key). *)
Theorem Compatible_undefined_key (r requirements : RequirementsT) (key : string) :
  (key ∈ Keys requirements -> key ∉ Keys r -> key ∉ WellKnownLabels ->
   negative (Operator (Get requirements key)) = false ->
   ErrLabelUnknown key (labelHint r key) ∈ Compatible r requirements)
  /\ (key ∉ Keys r ->
      (key ∈ WellKnownLabels \/ negative (Operator (Get requirements key)) = true) ->
      forall e, e ∈ Compatible r requirements -> err_key e <> key).
Proof.
  unfold Keys. split.
  - intros Hq Hr Hw Hneg. apply elem_of_Compatible. left. exists key.
    split; [done|]. split; [done|]. unfold compatible1.
    assert (Has r key = false) as ->.
    { apply not_true_is_false. rewrite Has_true. done. }
    unfold negative in Hneg. simpl. by rewrite Hneg.
  - intros Hr Hor e He Hk.
    apply elem_of_Compatible in He as [(key' & Hq & Hw & He) | He].
    + destruct (compatible1_key _ _ _ _ He) as [Hk' _].
      rewrite Hk in Hk'. subst key'. destruct Hor as [Hwk | Hneg]; [done|].
      unfold compatible1 in He. unfold negative in Hneg.
      rewrite <- orb_assoc, Hneg, orb_true_r in He. discriminate.
    + apply Intersects_reports_shared in He. rewrite Hk in He.
      apply elem_of_intersection in He as [He _]. done.
Qed.

(** Requirements are compatible with the empty requirements and intersect
    them, whichever side is empty. *)
Theorem Compatible_empty (r : RequirementsT) :
  Compatible r ∅ = [] /\ Intersects r ∅ = [] /\ Intersects ∅ r = [].
Proof.
  assert (H1 : Intersects r ∅ = []).
  { unfold Intersects, Keys. rewrite dom_empty_L, (right_absorb_L ∅ (∩)), elements_empty. done. }
  assert (H2 : Intersects ∅ r = []).
  { unfold Intersects, Keys. rewrite dom_empty_L, (left_absorb_L ∅ (∩)), elements_empty. done. }
  split; [|done]. unfold Compatible. rewrite H1. unfold Keys.
  by rewrite dom_empty_L, empty_difference_L, elements_empty.
Qed.

(** [Labels] gives a key exactly when the key is not a restricted node
    label and its requirement allows a value; the label is that value, and
    it is never the empty string. *)
Theorem Labels_lookup (r : RequirementsT) (key value : string) :
  Labels r !! key = Some value <->
  exists requirement, r !! key = Some requirement
                      /\ IsRestrictedNodeLabel key = false
                      /\ Any requirement = value /\ value <> "".
Proof.
  unfold Labels. rewrite lookup_omap. split.
  - intros Hl. destruct (filter _ r !! key) as [req|] eqn:Hf; simpl in Hl; [|done].
    apply map_lookup_filter_Some in Hf as [Hr Hres]. simpl in Hres.
    exists req. destruct (String.eqb_spec (Any req) ""); [done|].
    inversion Hl; subst. done.
  - intros (req & Hr & Hres & Hany & Hne).
    assert (filter (fun kv => IsRestrictedNodeLabel kv.1 = false) r !! key = Some req) as ->
      by (by apply map_lookup_filter_Some).
    simpl. rewrite Hany. destruct (String.eqb_spec value ""); done.
Qed.

(** [FlexibleCompatible] fails exactly when no alternative is compatible;
    otherwise it returns the compatible alternatives, in their order, and
    at least one. *)
Theorem FlexibleCompatible_spec (r : RequirementsT) (requirements : FlexibleRequirementsT) :
  match FlexibleCompatible r requirements with
  | inl _ => Forall (fun reqs => Compatible r reqs <> []) requirements
  | inr newReqs =>
      newReqs <> [] /\ newReqs `sublist_of` requirements
      /\ forall reqs, reqs ∈ newReqs <-> reqs ∈ requirements /\ Compatible r reqs = []
  end.
Proof.
  unfold FlexibleCompatible.
  destruct (filter _ requirements) as [| x l] eqn:Hf.
  - apply Forall_forall. intros reqs Hin Hc.
    assert (reqs ∈ filter (fun reqs => Compatible r reqs = []) requirements)
      by (by apply list_elem_of_filter).
    rewrite Hf in H0. by eapply not_elem_of_nil.
  - rewrite <- Hf. split; [by rewrite Hf|]. split; [apply sublist_filter|].
    intros reqs. rewrite list_elem_of_filter. tauto.
Qed.

(** [NewPodRequirements] always returns at least one alternative: one per
    required node-selector term, and a single one when the pod has no
    required terms. *)
Theorem NewPodRequirements_length (pod : PodSpecView) (ignorePreferred : bool) :
  length (NewPodRequirements pod ignorePreferred) =
  match NodeAffinity pod ≫= RequiredDuringScheduling with
  | Some ((_ :: _) as terms) => length terms
  | _ => 1%nat
  end.
Proof.
  unfold NewPodRequirements, FlexibleAdd.
  destruct (NodeAffinity pod) as [aff|]; [|done].
  change (Some aff ≫= RequiredDuringScheduling) with (RequiredDuringScheduling aff).
  assert (Hlen : length (match RequiredDuringScheduling aff with
                         | Some terms => NewFlexibleRequirements (NewNodeSelectorRequirements <$> terms)
                         | None => NewFlexibleRequirements []
                         end) =
                 match RequiredDuringScheduling aff with
                 | Some ((_ :: _) as terms) => length terms
                 | _ => 1%nat
                 end).
  { destruct (RequiredDuringScheduling aff) as [[| t ts]|]; [done| |done].
    unfold NewFlexibleRequirements. rewrite fmap_cons. cbn [length]. by rewrite length_fmap. }
  destruct ignorePreferred; [by rewrite length_fmap, Hlen|].
  destruct (heaviest _) as [[w p]|]; by rewrite ?length_fmap, Hlen.
Qed.

(** The preference [NewPodRequirements] turns into a requirement is one of
    the pod's preferred terms and none of them weighs more. *)
Theorem heaviest_greatest (preferred : list (Z * list NodeSelectorRequirementT)) :
  match heaviest preferred with
  | Some x => x ∈ preferred /\ forall y, y ∈ preferred -> y.1 <= x.1
  | None => preferred = []
  end.
Proof.
  unfold heaviest.
  assert (G : forall (l : list (Z * list NodeSelectorRequirementT)) best,
    match fold_left (fun best x =>
                       match best with
                       | Some b => if b.1 <? x.1 then Some x else Some b
                       | None => Some x
                       end) l best with
    | Some x => (Some x = best \/ x ∈ l)
                /\ (forall y, (Some y = best \/ y ∈ l) -> y.1 <= x.1)
    | None => best = None /\ l = []
    end).
  { induction l as [| a l IH]; intros best; simpl.
    - destruct best as [b|]; [|done]. split; [by left|].
      intros y [Hy | Hy]; [inversion Hy; lia | by apply not_elem_of_nil in Hy].
    - specialize (IH (match best with
                      | Some b => if b.1 <? a.1 then Some a else Some b
                      | None => Some a
                      end)).
      destruct (fold_left _ l _) as [x|].
      + destruct IH as [Hx Hmax]. split.
        * destruct Hx as [Hx | Hx]; [|right; by right].
          destruct best as [b|]; [|inversion Hx; right; by left].
          destruct (b.1 <? a.1); inversion Hx; [right; by left | by left].
        * intros y [Hy | Hy].
          -- subst best. destruct (Z.ltb_spec y.1 a.1).
             ++ assert (a.1 <= x.1) by (apply Hmax; by left). lia.
             ++ apply Hmax. by left.
          -- apply elem_of_cons in Hy as [-> | Hy]; [|apply Hmax; by right].
             destruct best as [b|]; [|apply Hmax; by left].
             destruct (Z.ltb_spec b.1 a.1); [apply Hmax; by left|].
             assert (b.1 <= x.1) by (apply Hmax; by left). lia.
      + destruct IH as [Hb _]. destruct best as [b|]; [|done]. by destruct (b.1 <? a.1). }
  specialize (G preferred None). destruct (fold_left _ preferred None) as [x|].
  - destruct G as [[Hx | Hx] Hmax]; [done|]. split; [done|]. intros y Hy. apply Hmax. by right.
  - by destruct G.
Qed.

End WithRequirement.

(** An amd64 node against a pod that asks for arm64: the error is returned. *)
Lemma Compatible_empty_intersection_witness :
  @ErrNotIn setRequirementOps "kubernetes.io/arch"
     (sr_new "kubernetes.io/arch" OpIn ["arm64"])
     (sr_new "kubernetes.io/arch" OpIn ["amd64"])
  ∈ @Compatible setRequirementOps
      (@NewRequirements setRequirementOps [sr_new "kubernetes.io/arch" OpIn ["amd64"]])
      (@NewRequirements setRequirementOps [sr_new "kubernetes.io/arch" OpIn ["arm64"]]).
Proof.
  apply (proj1 (@Compatible_empty_intersection setRequirementOps
                  (@NewRequirements setRequirementOps [sr_new "kubernetes.io/arch" OpIn ["amd64"]])
                  (@NewRequirements setRequirementOps [sr_new "kubernetes.io/arch" OpIn ["arm64"]])
                  "kubernetes.io/arch"
                  (sr_new "kubernetes.io/arch" OpIn ["amd64"])
                  (sr_new "kubernetes.io/arch" OpIn ["arm64"])
                  eq_refl eq_refl eq_refl)).
  vm_compute. reflexivity.
Defined.

End RequirementsFacts.

(** ** requirements.go: [editDistance] *)

Module EditDistanceFacts.
Import Requirements.

#[local] Open Scope nat_scope.

Lemma min3_le a b c : (0 <= a -> 0 <= b -> 0 <= c -> 0 <= min3 a b c)%Z.
Proof. unfold min3. intros. destruct (b <? a)%Z; destruct (c <? _)%Z; lia. Qed.

Lemma min3_le_2 a b c : (min3 a b c <= b)%Z.
Proof.
  unfold min3. destruct (Z.ltb_spec b a); [destruct (Z.ltb_spec c b) | destruct (Z.ltb_spec c a)]; lia.
Qed.

Lemma min3_zero a b : (0 <= a -> 0 <= b -> min3 a b 0 = 0)%Z.
Proof.
  unfold min3. intros. destruct (Z.ltb_spec b a); [destruct (Z.ltb_spec 0 b) | destruct (Z.ltb_spec 0 a)]; lia.
Qed.

Lemma rowAt_insert_eq row j v : j < length row -> rowAt (<[j := v]> row) j = v.
Proof. intros. unfold rowAt. by rewrite list_lookup_insert_eq. Qed.

Lemma rowAt_insert_ne row j k v : j <> k -> rowAt (<[j := v]> row) k = rowAt row k.
Proof. intros. unfold rowAt. by rewrite list_lookup_insert_ne. Qed.

Lemma editRow_prefix (s t : string) (i : nat) (prevRow curRow : list Z) (k : nat) :
  k < length curRow ->
  let row := fold_left
    (fun curRow j =>
       let diff := if decide (String.get i s = String.get j t) then 0%Z else 1%Z in
       <[ j := min3 (rowAt prevRow j + 1) (rowAt curRow (j - 1) + 1)
                    (rowAt prevRow (j - 1) + diff) ]> curRow)
    (seq 1 k) curRow in
  length row = length curRow
  /\ (forall j, j = 0 \/ k < j -> rowAt row j = rowAt curRow j)
  /\ (forall j, 1 <= j <= k -> rowAt row j = cell s t i prevRow row j).
Proof.
  induction k as [| k IH]; intros Hk; cbv zeta in *.
  - simpl. split; [done|]. split; [done|]. lia.
  - rewrite seq_S, fold_left_app. cbn [fold_left]. change (1 + k) with (S k).
    destruct IH as (Hlen & Hout & Hin); [lia|].
    set (row := fold_left _ (seq 1 k) curRow) in *.
    rewrite length_insert. split; [done|]. split.
    + intros j Hj. rewrite rowAt_insert_ne by lia. apply Hout. lia.
    + intros j Hj. unfold cell. destruct (decide (j = S k)) as [-> | Hne].
      * rewrite rowAt_insert_eq by lia. rewrite rowAt_insert_ne by lia. done.
      * rewrite !rowAt_insert_ne by lia. apply Hin. lia.
Qed.

Lemma editRow_spec (s t : string) (i : nat) (prevRow curRow : list Z) :
  length curRow = String.length t -> 0 < String.length t ->
  let row := editRow s t i prevRow curRow in
  length row = String.length t
  /\ rowAt row 0 = rowAt curRow 0
  /\ (forall j, 1 <= j < String.length t -> rowAt row j = cell s t i prevRow row j).
Proof.
  intros Hlen Hn. unfold editRow.
  pose proof (editRow_prefix s t i prevRow curRow (String.length t - 1)) as H.
  cbv zeta in H. destruct H as (H1 & H2 & H3); [lia|].
  split; [by rewrite H1|]. split; [apply H2; by left|]. intros j Hj. apply H3. lia.
Qed.

Lemma initRow_prefix (n k : nat) :
  k < n ->
  let row := fold_left (fun row j => <[ j := Z.of_nat j ]> row) (seq 1 k) (replicate n 0%Z) in
  length row = n /\ (forall j, j <= k -> rowAt row j = Z.of_nat j)
  /\ (forall j, k < j -> rowAt row j = 0%Z).
Proof.
  induction k as [| k IH]; intros Hk; cbv zeta in *.
  - simpl. rewrite length_replicate. split; [done|].
    assert (forall j, rowAt (replicate n 0%Z) j = 0%Z).
    { intros j. unfold rowAt. destruct (replicate n 0%Z !! j) eqn:E; [|done].
      apply lookup_replicate in E as [-> _]. done. }
    split; intros j Hj; [replace j with 0 by lia|]; auto.
  - rewrite seq_S, fold_left_app. cbn [fold_left]. change (1 + k) with (S k).
    destruct IH as (Hlen & Hin & Hout); [lia|].
    set (row := fold_left _ (seq 1 k) _) in *.
    rewrite length_insert. split; [done|]. split; intros j Hj.
    + destruct (decide (j = S k)) as [-> | Hne].
      * by rewrite rowAt_insert_eq by lia.
      * rewrite rowAt_insert_ne by lia. apply Hin. lia.
    + rewrite rowAt_insert_ne by lia. apply Hout. lia.
Qed.

Lemma goodRow_zero n row : 0 < n -> goodRow n row -> rowAt row 0 = 0%Z.
Proof. intros Hn [_ H]. specialize (H 0 Hn). lia. Qed.

Lemma editRow_good (s t : string) (i : nat) (prevRow curRow : list Z) :
  0 < String.length t ->
  goodRow (String.length t) prevRow -> length curRow = String.length t -> rowAt curRow 0 = 0%Z ->
  goodRow (String.length t) (editRow s t i prevRow curRow).
Proof.
  intros Hn [Hpl Hp] Hcl Hc0.
  pose proof (editRow_spec s t i prevRow curRow Hcl Hn) as H.
  cbv zeta in H. destruct H as (Hlen & H0 & Hrec).
  split; [done|]. intros j. induction j as [| j IH]; intros Hj.
  - rewrite H0, Hc0. lia.
  - rewrite Hrec by lia. unfold cell. replace (S j - 1) with j by lia.
    specialize (IH ltac:(lia)). pose proof (Hp j ltac:(lia)). pose proof (Hp (S j) Hj).
    split.
    + apply min3_le; [lia | lia |]. destruct (decide _); lia.
    + etrans; [apply min3_le_2|]. lia.
Qed.

Lemma editRows_good (s t : string) (rows : list nat) (prevRow curRow : list Z) :
  0 < String.length t ->
  goodRow (String.length t) prevRow -> length curRow = String.length t -> rowAt curRow 0 = 0%Z ->
  goodRow (String.length t) (editRows s t rows prevRow curRow).1.
Proof.
  intros Hn. unfold editRows. revert prevRow curRow.
  induction rows as [| i rows IH]; intros prevRow curRow Hp Hcl Hc0; simpl; [done|].
  apply IH.
  - by apply editRow_good.
  - by destruct Hp.
  - by apply (goodRow_zero (String.length t)).
Qed.

Lemma initRow_good (n : nat) :
  0 < n ->
  goodRow n (fold_left (fun row j => <[ j := Z.of_nat j ]> row) (seq 1 (n - 1)) (replicate n 0%Z)).
Proof.
  intros Hn. pose proof (initRow_prefix n (n - 1)) as H.
  cbv zeta in H. destruct H as (Hlen & Hin & _); [lia|].
  split; [done|]. intros j Hj. rewrite Hin by lia. lia.
Qed.

Lemma editDistance_unfold (s t : string) :
  0 < String.length s -> 0 < String.length t ->
  editDistance s t =
  rowAt (editRows s t (seq 1 (String.length s - 1))
           (fold_left (fun row j => <[ j := Z.of_nat j ]> row)
                      (seq 1 (String.length t - 1)) (replicate (String.length t) 0%Z))
           (replicate (String.length t) 0%Z)).1
        (String.length t - 1).
Proof.
  intros Hm Hn. unfold editDistance.
  destruct (Nat.eqb_spec (String.length s) 0); [lia|].
  destruct (Nat.eqb_spec (String.length t) 0); [lia|].
  by destruct (editRows _ _ _ _ _).
Qed.

(** [editDistance] with an empty argument is the length of the other one;
    for two non-empty strings it lies between 0 and the length of [t] minus
    one, so it never reaches the length of [t]. *)
Theorem editDistance_bounds (s t : string) :
  (String.length s = 0 -> editDistance s t = Z.of_nat (String.length t))
  /\ (String.length t = 0 -> editDistance s t = Z.of_nat (String.length s))
  /\ (0 < String.length s -> 0 < String.length t ->
      (0 <= editDistance s t <= Z.of_nat (String.length t) - 1)%Z).
Proof.
  split; [|split].
  - intros Hs. unfold editDistance. by rewrite Hs.
  - intros Ht. unfold editDistance. rewrite Ht.
    destruct (Nat.eqb_spec (String.length s) 0) as [-> |]; done.
  - intros Hm Hn. rewrite editDistance_unfold by done.
    destruct (editRows_good s t (seq 1 (String.length s - 1))
                (fold_left (fun row j => <[ j := Z.of_nat j ]> row)
                           (seq 1 (String.length t - 1)) (replicate (String.length t) 0%Z))
                (replicate (String.length t) 0%Z)) as [_ Hb].
    + done.
    + by apply initRow_good.
    + apply length_replicate.
    + unfold rowAt. destruct (String.length t); [lia | done].
    + specialize (Hb (String.length t - 1) ltac:(lia)). lia.
Qed.

Lemma editRows_diag (s t : string) (d : nat) :
  0 < String.length t ->
  (forall j, 1 <= j < String.length t -> String.get (d + j) s = String.get j t) ->
  forall k a prevRow curRow,
    1 <= a ->
    goodRow (String.length t) prevRow -> length curRow = String.length t ->
    rowAt curRow 0 = 0%Z ->
    (d <= a - 1 -> a - 1 - d < String.length t -> rowAt prevRow (a - 1 - d) = 0%Z) ->
    d <= a - 1 + k -> a - 1 + k - d < String.length t ->
    rowAt (editRows s t (seq a k) prevRow curRow).1 (a - 1 + k - d) = 0%Z.
Proof.
  intros Hn Hs. unfold editRows.
  induction k as [| k IH]; intros a prevRow curRow Ha Hp Hcl Hc0 Hd H1 H2.
  - simpl. rewrite Nat.add_0_r in *. by apply Hd.
  - cbn [seq fold_left].
    replace (a - 1 + S k - d) with (S a - 1 + k - d) by lia.
    pose proof (editRow_good s t a prevRow curRow Hn Hp Hcl Hc0) as Hgood.
    apply IH; try lia; try done.
    + by destruct Hp.
    + by apply (goodRow_zero (String.length t)).
    + replace (S a - 1) with a by lia. intros Hda Hlt.
      pose proof (editRow_spec s t a prevRow curRow Hcl Hn) as H.
      cbv zeta in H. destruct H as (_ & H0 & Hrec).
      destruct (decide (a - d = 0)) as [-> | Hne]; [by rewrite H0|].
      rewrite Hrec by lia. unfold cell.
      replace (String.get a s) with (String.get (a - d) t)
        by (rewrite <- Hs by lia; f_equal; lia).
      rewrite decide_True by done.
      replace (a - d - 1) with (a - 1 - d) by lia.
      rewrite Hd by lia. rewrite Z.add_0_l.
      destruct Hgood as [_ Hg]. destruct Hp as [_ Hp].
      pose proof (Hp (a - d) ltac:(lia)). pose proof (Hg (a - 1 - d) ltac:(lia)).
      apply min3_zero; lia.
Qed.

(** When [s] is at least as long as [t] ([len s = d + len t]), [t] is not
    empty, and the last [len t - 1] bytes of [s] are the last [len t - 1]
    bytes of [t] (the first byte of [t] and whatever comes before in [s]
    are not looked at), the distance is 0; in particular the distance of a
    string to itself is 0.  The length condition is needed: see
    [example_editDistance_shorter]. *)
Theorem editDistance_suffix (s t : string) (d : nat) :
  0 < String.length t ->
  String.length s = d + String.length t ->
  (forall j, 1 <= j < String.length t -> String.get (d + j) s = String.get j t) ->
  editDistance s t = 0%Z /\ editDistance t t = 0%Z.
Proof.
  assert (G : forall s t d, 0 < String.length t -> String.length s = d + String.length t ->
    (forall j, 1 <= j < String.length t -> String.get (d + j) s = String.get j t) ->
    editDistance s t = 0%Z).
  { clear. intros s t d Hn Hm Hs. rewrite editDistance_unfold by lia.
    set (row0 := fold_left _ _ _).
    assert (Hrow0 : goodRow (String.length t) row0) by by apply initRow_good.
    pose proof (editRows_diag s t d Hn Hs (String.length s - 1) 1 row0
                  (replicate (String.length t) 0%Z)) as H.
    replace (1 - 1 + (String.length s - 1) - d) with (String.length t - 1) in H by lia.
    apply H; try done; try lia.
    - apply length_replicate.
    - unfold rowAt. destruct (String.length t); [lia | done].
    - intros Hd _. replace (1 - 1 - d) with 0 by lia.
      by apply (goodRow_zero (String.length t)). }
  intros Hn Hm Hs. split; [by apply (G s t d)|].
  by apply (G t t 0).
Qed.

Lemma fold_left_ext_in {A B} (f g : A -> B -> A) (l : list B) (a : A) :
  (forall x acc, x ∈ l -> f acc x = g acc x) -> fold_left f l a = fold_left g l a.
Proof.
  revert a. induction l as [| x l IH]; intros a Hfg; simpl; [done|].
  rewrite Hfg by left. apply IH. intros y acc Hy. apply Hfg. by right.
Qed.

Lemma editRow_first_byte (a a' b b' : Ascii.ascii) (s t : string) (i : nat) prevRow curRow :
  1 <= i ->
  editRow (String a s) (String b t) i prevRow curRow =
  editRow (String a' s) (String b' t) i prevRow curRow.
Proof.
  intros Hi. unfold editRow. cbn [String.length].
  apply fold_left_ext_in. intros j acc Hj. apply elem_of_seq in Hj.
  destruct i as [| i]; [lia|]. destruct j as [| j]; [lia|]. done.
Qed.

(** The first byte of either string is never compared: changing it leaves
    the distance as it is. *)
Theorem editDistance_first_byte (a a' b b' : Ascii.ascii) (s t : string) :
  editDistance (String a s) (String b t) = editDistance (String a' s) (String b' t).
Proof.
  unfold editDistance, editRows. cbn [String.length Nat.eqb].
  rewrite (fold_left_ext_in
             (fun '(prevRow, curRow) i => (editRow (String a s) (String b t) i prevRow curRow, prevRow))
             (fun '(prevRow, curRow) i => (editRow (String a' s) (String b' t) i prevRow curRow, prevRow)));
    [done|].
  intros i [prevRow curRow] Hi. apply elem_of_seq in Hi.
  by rewrite (editRow_first_byte a a' b b') by lia.
Qed.

Lemma editDistance_suffix_witness :
  editDistance "xzone" "zone" = 0%Z /\ editDistance "zone" "zone" = 0%Z.
Proof.
  apply (editDistance_suffix "xzone" "zone" 1); [simpl; lia | reflexivity |].
  intros [| [| [| [| j]]]] Hj; simpl in Hj; try lia; reflexivity.
Defined.

(** A first string one byte shorter than the second: "one" ends "zone",
    and the distance is 1. *)
Example example_editDistance_shorter : editDistance "one" "zone" = 1%Z.
Proof. vm_compute. reflexivity. Qed.

End EditDistanceFacts.

(** ** The scheduler: placements on existing nodes and pool limits *)

Module SchedulingFacts.
Import Int Resource Resources Requirements Scheduling.
Import CloudProvider (InstanceType, Capacity).

Section WithOps.
Context `{SchedOps}.

Lemma Fits_spec (candidate total : ResourceList) :
  Fits candidate total = true <-> fitsPerResource candidate total.
Proof. unfold Fits, fitsPerResource. by rewrite bool_decide_eq_true. Qed.


(** The two ways [ExistingNode.Add] can end: with an error and the state it
    started from, or with [nil], the merged requests fitting, and the state
    [updateNode] builds. *)
Lemma ExistingNodeAdd_cases (pod : Pod) (n : ExistingNode) (t : TopologyT) :
  (exists e, ExistingNodeAdd pod (n, t) = (inl e, (n, t)))
  \/ (exists nodeRequirements,
        ExistingNodeAdd pod (n, t) =
          (inr tt, updateNode pod (Merge (requests n) (RequestsForPods [pod]))
                              nodeRequirements (n, t))
        /\ Fits (Merge (requests n) (RequestsForPods [pod])) (snAvailable (Node n)) = true).
Proof.
  unfold ExistingNodeAdd, bind, read, guardNone, orFail, fail, ret, modify. simpl.
  destruct (Tolerates _ _); [left; eauto|]. simpl.
  destruct (HostPortValidate _ _); [left; eauto|]. simpl.
  destruct (VolumeValidate _ _) as [e | count]; [left; eauto|]. simpl.
  destruct (VolumeExceeds _ _); [left; eauto|].
  destruct (Fits _ _) eqn:Hfits; simpl; [|left; eauto].
  destruct (FlexibleCompatible _ _) as [[] | reqs]; [left; eauto|]. simpl.
  destruct (TopologyAddRequirements _ _ _ _) as [e | topologyRequirements]; [left; eauto|]. simpl.
  destruct (Compatible _ _); [|left; eauto].
  right. eexists. split; reflexivity.
Qed.

(** What a successful [Add] establishes. *)
Lemma ExistingNodeAdd_success (pod : Pod) (n n' : ExistingNode) (t t' : TopologyT) :
  ExistingNodeAdd pod (n, t) = (inr tt, (n', t')) ->
  fitsPerResource (Merge (requests n) (RequestsForPods [pod])) (snAvailable (Node n))
  /\ requests n' = Merge (requests n) (RequestsForPods [pod])
  /\ Pods n' = Pods n ++ [pod]
  /\ snAvailable (Node n') = snAvailable (Node n).
Proof.
  intros Hadd.
  destruct (ExistingNodeAdd_cases pod n t) as [(e & He) | (reqs & Hok & Hfits)].
  - rewrite He in Hadd. discriminate.
  - rewrite Hok in Hadd. simpl in Hadd. inversion Hadd; subst; clear Hadd.
    simpl. split; [by apply Fits_spec | done].
Qed.










(** C10.  If [ExistingNode.Add] returns an error, the node (its pods,
    requests, requirements, host-port and volume usage) and the topology
    tracker are what they were before the call. *)
Theorem ExistingNodeAdd_error_unchanged (pod : Pod) (s s' : NodeState) (e : SchedError) :
  ExistingNodeAdd pod s = (inl e, s') -> s' = s.
Proof.
  destruct s as [n t]. intros Hadd.
  destruct (ExistingNodeAdd_cases pod n t) as [(e' & He) | (reqs & Hok & _)].
  - rewrite He in Hadd. by inversion Hadd.
  - rewrite Hok in Hadd. discriminate.
Qed.

(** *** Pool limits *)

Lemma limitsLe_refl (a : gmap string ResourceList) : limitsLe a a.
Proof. intros pool rl0 Hp. exists rl0. split; [done|]. intros k q0 Hk. exists q0. split; [done | lia]. Qed.

Lemma limitsLe_trans (a b c : gmap string ResourceList) :
  limitsLe a b -> limitsLe b c -> limitsLe a c.
Proof.
  intros Hab Hbc pool rl0 Hp.
  destruct (Hbc pool rl0 Hp) as (rl1 & Hp1 & H1).
  destruct (Hab pool rl1 Hp1) as (rl2 & Hp2 & H2).
  exists rl2. split; [done|]. intros k q0 Hk.
  destruct (H1 k q0 Hk) as (q1 & Hk1 & Hle1).
  destruct (H2 k q1 Hk1) as (q2 & Hk2 & Hle2).
  exists q2. split; [done | lia].
Qed.

(** [MaxResources], resource by resource. *)
Lemma fold_max_lookup (resources : list (gmap string Z)) (acc : gmap string Z) (k : string) :
  match fold_left (union_with (fun x y : Z => Some (Z.max x y))) resources acc !! k with
  | None => acc !! k = None /\ Forall (fun rl => rl !! k = None) resources
  | Some m =>
      (acc !! k = Some m \/ Exists (fun rl => rl !! k = Some m) resources)
      /\ (forall q, acc !! k = Some q -> q <= m)
      /\ Forall (fun rl => forall q, rl !! k = Some q -> q <= m) resources
  end.
Proof.
  revert acc. induction resources as [| rl rest IH]; intros acc; simpl.
  - destruct (acc !! k) as [m|] eqn:Hacc.
    + split; [by left|]. split; [|constructor]. intros q [= ->]. lia.
    + split; [done | constructor].
  - specialize (IH (union_with (fun x y : Z => Some (Z.max x y)) acc rl)).
    rewrite lookup_union_with in IH. revert IH.
    destruct (fold_left _ rest _ !! k) as [m|];
      destruct (acc !! k) as [a|], (rl !! k) as [b|] eqn:Hrl; simpl; intros IH.
    + destruct IH as (Hwit & Hub & Hrest). specialize (Hub _ eq_refl).
      split; [|split].
      * destruct Hwit as [[= Hm] | Hex]; [|right; by apply Exists_cons_tl].
        destruct (Z.max_spec a b) as [[_ Hmax] | [_ Hmax]]; rewrite Hmax in Hm; subst.
        -- right. by apply Exists_cons_hd.
        -- by left.
      * intros q [= ->]. lia.
      * constructor; [|done]. intros q Hq. rewrite Hrl in Hq. injection Hq as ->. lia.
    + destruct IH as (Hwit & Hub & Hrest). split; [|split].
      * destruct Hwit as [Hm | Hex]; [by left | right; by apply Exists_cons_tl].
      * done.
      * constructor; [|done]. intros q Hq. rewrite Hrl in Hq. discriminate.
    + destruct IH as (Hwit & Hub & Hrest). split; [|split].
      * destruct Hwit as [[= Hm] | Hex]; [| right; by apply Exists_cons_tl].
        subst. right. by apply Exists_cons_hd.
      * intros q [=].
      * constructor; [|done]. intros q Hq. rewrite Hrl in Hq. by apply Hub.
    + destruct IH as (Hwit & Hub & Hrest). split; [|split].
      * destruct Hwit as [Hm | Hex]; [done | right; by apply Exists_cons_tl].
      * intros q [=].
      * constructor; [|done]. intros q Hq. rewrite Hrl in Hq. discriminate.
    + destruct IH as ([=] & _).
    + destruct IH as ([=] & _).
    + destruct IH as ([=] & _).
    + destruct IH as (_ & Hrest). split; [done|]. by constructor.
Qed.

Lemma MaxResources_maxCapacity (instanceTypes : list InstanceType) (k : string) :
  maxCapacity instanceTypes k (get (MaxResources (Capacity <$> instanceTypes)) k).
Proof.
  unfold get, MaxResources.
  pose proof (fold_max_lookup (Capacity <$> instanceTypes) ∅ k) as Hf.
  destruct (fold_left _ _ _ !! k) as [m|]; simpl.
  - destruct Hf as (Hwit & _ & Hub). split.
    + left. destruct Hwit as [Hm | Hex]; [by rewrite lookup_empty in Hm|].
      apply Exists_exists in Hex as (rl & Hin & Hm).
      apply list_elem_of_fmap in Hin as (it & -> & Hit). eauto.
    + intros it q Hit Hq. rewrite Forall_forall in Hub.
      apply (Hub (Capacity it)); [|done]. by apply list_elem_of_fmap_2.
  - destruct Hf as (_ & Hnone). rewrite Forall_forall in Hnone. split.
    + right. split; [done|]. intros it Hit. apply Hnone. by apply list_elem_of_fmap_2.
    + intros it q Hit Hq.
      assert (Capacity it !! k = None) as Hn by (apply Hnone; by apply list_elem_of_fmap_2).
      pose proof (eq_trans (eq_sym Hq) Hn). discriminate.
Qed.

(** [subtractMax] keeps the resources of [remaining] and lowers each by
    the greatest capacity among the instance types. *)
Lemma subtractMax_lookup (remaining : ResourceList) (instanceTypes : list InstanceType)
    (k : string) (q : Z) :
  instanceTypes <> [] ->
  remaining !! k = Some q ->
  exists m, maxCapacity instanceTypes k m
            /\ subtractMax remaining instanceTypes !! k = Some (q - m).
Proof.
  intros Hne Hk. exists (get (MaxResources (Capacity <$> instanceTypes)) k).
  split; [apply MaxResources_maxCapacity|].
  unfold subtractMax. destruct instanceTypes; [done|].
  rewrite map_lookup_imap, Hk. reflexivity.
Qed.

Lemma subtractMax_le (remaining : ResourceList) (instanceTypes : list InstanceType)
    (k : string) (q0 : Z) :
  Forall nonnegCapacity instanceTypes ->
  remaining !! k = Some q0 ->
  exists q, subtractMax remaining instanceTypes !! k = Some q /\ q <= q0.
Proof.
  intros Hnn Hk. destruct instanceTypes as [| it its] eqn:Hits.
  - exists q0. simpl. split; [done | lia].
  - destruct (subtractMax_lookup remaining (it :: its) k q0) as (m & Hmax & Hsub); [done | done |].
    exists (q0 - m). split; [done|].
    destruct Hmax as ([(it' & Hin & Hm) | [-> _]] & _); [|lia].
    rewrite Forall_forall in Hnn. specialize (Hnn it' Hin k m Hm). simpl in Hnn. lia.
Qed.

(** What [addNewNodeClaim] does to the claims and the limits: nothing, or
    one claim appended and the limits of its template's pool replaced by
    [subtractMax] of them. *)
Lemma addNewNodeClaim_spec (templates : list TemplateT) errs (s : Scheduler) (pod : Pod) :
  let s' := (addNewNodeClaim templates errs s pod).2 in
  (remainingResources s' = remainingResources s /\ newNodeClaims s' = newNodeClaims s)
  \/ (exists tmpl t machine t1,
        tmpl ∈ templates
        /\ NodeClaimAdd
             (NewNodeClaim tmpl t (daemonOverhead s tmpl) (viableInstanceTypes s tmpl)).1
             (NewNodeClaim tmpl t (daemonOverhead s tmpl) (viableInstanceTypes s tmpl)).2
             pod = (None, machine, t1)
        /\ newNodeClaims s' = newNodeClaims s ++ [machine]
        /\ remainingResources s' =
             <[ OwnerName tmpl :=
                  subtractMax (default ∅ (remainingResources s !! OwnerName tmpl))
                              (InstanceTypeOptions machine) ]> (remainingResources s)).
Proof.
  revert errs s. induction templates as [| tmpl rest IH]; intros errs s; simpl; [by left|].
  destruct (bool_decide _ && bool_decide _).
  { destruct (IH (multierrAppend errs (ErrExceedLimits (OwnerName tmpl))) s) as [Hsame | Hnew];
      [by left | right].
    destruct Hnew as (tmpl' & t & m & t1 & Hin & Hrest).
    exists tmpl', t, m, t1. split; [by apply list_elem_of_further | done]. }
  fold (viableInstanceTypes s tmpl).
  destruct (NewNodeClaim tmpl (topology s) (daemonOverhead s tmpl) (viableInstanceTypes s tmpl))
    as [machine0 t0] eqn:Hnew.
  destruct (NodeClaimAdd machine0 t0 pod) as [[[err|] machine] t1] eqn:Hadd.
  - match goal with |- context [addNewNodeClaim rest ?e ?s0 pod] =>
      destruct (IH e s0) as [Hsame | Hcreated] end; [by left | right].
    destruct Hcreated as (tmpl' & t & m & t1' & Hin & Hrest).
    exists tmpl', t, m, t1'. split; [by apply list_elem_of_further | done].
  - right. exists tmpl, (topology s), machine, t1. rewrite Hnew. simpl.
    split; [apply list_elem_of_here | done].
Qed.

Lemma addToNodeClaims_length (claims : list NodeClaimT) (t : TopologyT) (pod : Pod) :
  length (addToNodeClaims claims t pod).1.2 = length claims.
Proof.
  revert t. induction claims as [| c rest IH]; intros t; simpl; [done|].
  destruct (NodeClaimAdd c t pod) as [[[err|] c'] t1]; simpl; [|done].
  specialize (IH t1). destruct (addToNodeClaims rest t1 pod) as [[ok rest'] t2].
  simpl in *. by rewrite IH.
Qed.

(** [Scheduler.add] leaves the limits alone and the number of claims as it
    was, or creates one claim and charges its pool. *)
Lemma add_spec (s : Scheduler) (pod : Pod) :
  let s' := (add s pod).2 in
  (remainingResources s' = remainingResources s
   /\ length (newNodeClaims s') = length (newNodeClaims s))
  \/ (exists claims, length claims = length (newNodeClaims s)
                     /\ claimCreated s s' claims pod).
Proof.
  unfold add.
  destruct (addToExisting (existingNodes s) (topology s) pod) as [[ok nodes] t1].
  destruct ok; simpl; [by left|].
  pose proof (addToNodeClaims_length (merge_sort fewerPods (newNodeClaims s)) t1 pod) as Hlen.
  destruct (addToNodeClaims _ t1 pod) as [[ok2 claims] t2]. simpl in Hlen.
  assert (Hlen' : length claims = length (newNodeClaims s)).
  { rewrite Hlen. apply Permutation_length, merge_sort_Permutation. }
  destruct ok2; simpl; [by left|].
  match goal with |- context [addNewNodeClaim ?ts [] ?s0 pod] =>
    destruct (addNewNodeClaim_spec ts [] s0 pod) as [[Hr Hc] | Hcreated] end.
  - left. simpl in *. rewrite Hr, Hc. done.
  - right. exists claims. split; [done|]. exact Hcreated.
Qed.

Section Limits.

(** Whatever a claim offers once it has taken a pod has no negative
    capacity. *)
Hypothesis options_nonneg :
  forall machine0 t0 pod machine t1,
    NodeClaimAdd machine0 t0 pod = (None, machine, t1) ->
    Forall nonnegCapacity (InstanceTypeOptions machine).

Lemma add_limitsLe (s : Scheduler) (pod : Pod) :
  limitsLe (remainingResources (add s pod).2) (remainingResources s).
Proof.
  destruct (add_spec s pod) as [[Hr _] | (claims & _ & Hcreated)].
  - rewrite Hr. apply limitsLe_refl.
  - destruct Hcreated as (tmpl & t & m & t1 & _ & Hadd & _ & Hr).
    rewrite Hr. intros pool rl0 Hp.
    destruct (decide (OwnerName tmpl = pool)) as [<- | Hne].
    + rewrite lookup_insert_eq. eexists. split; [done|].
      rewrite Hp. simpl. intros k q0 Hk.
      eapply subtractMax_le; [|done]. by eapply options_nonneg.
    + rewrite lookup_insert_ne by done. exists rl0. split; [done|].
      intros k q0 Hk. exists q0. split; [done | lia].
Qed.

Lemma solveStep_limitsLe (st st' : SolveState) :
  solveStep st = Some st' ->
  limitsLe (remainingResources (sched st')) (remainingResources (sched st)).
Proof.
  unfold solveStep. destruct (Pop (queue st)) as [[pod q]|]; [|discriminate].
  pose proof (add_limitsLe (sched st) pod) as Hadd.
  destruct (add (sched st) pod) as [[e|] s]; simpl in Hadd.
  - destruct (Relax (preferences s) pod) as [relaxed pod'].
    intros [= <-]. simpl. by destruct relaxed.
  - intros [= <-]. done.
Qed.

Lemma solveLoop_limitsLe (fuel : nat) (st : SolveState) :
  limitsLe (remainingResources (sched (solveLoop fuel st).1)) (remainingResources (sched st)).
Proof.
  revert st. induction fuel as [| fuel IH]; intros st; simpl; [apply limitsLe_refl|].
  destruct (solveStep st) as [st'|] eqn:Hstep; [|apply limitsLe_refl].
  eapply limitsLe_trans; [apply IH|]. by apply solveStep_limitsLe.
Qed.

End Limits.

(** C4.  Provided the instance types a claim offers have no negative
    capacity: (1) a call of [Scheduler.add] either leaves every pool's
    remaining limits as they were, or creates one claim, which is what
    [NewNodeClaim] built from one of the scheduler's templates (with that
    template's daemon overhead and viable instance types) after it took
    the pod, and replaces the limits of the pool of that same template by
    [subtractMax] of them over the claim's instance-type options; (2)
    [subtractMax] lowers each limited resource by the greatest capacity of
    that resource among the options; (3) over the loop of [Solve], however
    long it runs, no remaining limit of any pool increases. *)
Theorem remaining_limits_never_increase :
  (forall machine0 t0 pod machine t1,
      NodeClaimAdd machine0 t0 pod = (None, machine, t1) ->
      Forall nonnegCapacity (InstanceTypeOptions machine)) ->
  (forall s pod,
      (remainingResources (add s pod).2 = remainingResources s
       /\ length (newNodeClaims (add s pod).2) = length (newNodeClaims s))
      \/ (exists claims, length claims = length (newNodeClaims s)
                         /\ claimCreated s (add s pod).2 claims pod))
  /\ (forall remaining instanceTypes k q,
        instanceTypes <> [] -> remaining !! k = Some q ->
        exists m, maxCapacity instanceTypes k m
                  /\ subtractMax remaining instanceTypes !! k = Some (q - m)
                  /\ (Forall nonnegCapacity instanceTypes -> 0 <= m))
  /\ (forall fuel st,
        limitsLe (remainingResources (sched (solveLoop fuel st).1))
                 (remainingResources (sched st))).
Proof.
  intros Hnn. split; [|split].
  - intros s pod. apply add_spec.
  - intros remaining its k q Hne Hk.
    destruct (subtractMax_lookup remaining its k q Hne Hk) as (m & Hmax & Hsub).
    exists m. split; [done|]. split; [done|]. intros Hall.
    destruct Hmax as ([(it & Hin & Hc) | [-> _]] & _); [|lia].
    rewrite Forall_forall in Hall. by apply (Hall it Hin k m).
  - intros fuel st. by apply solveLoop_limitsLe.
Qed.

Lemma ExistingNodeAdd_error (pod : Pod) (n n' : ExistingNode) (t t' : TopologyT) e :
  ExistingNodeAdd pod (n, t) = (inl e, (n', t')) -> n' = n /\ t' = t.
Proof.
  intros Hadd. destruct (ExistingNodeAdd_cases pod n t) as [(e' & He) | (r & He & _)];
    rewrite He in Hadd.
  - by inversion Hadd.
  - discriminate.
Qed.

(** [Scheduler.add] offers the pod to the existing nodes in order: the
    first node that accepts it gets the pod appended and its requests
    added, every node before it refused and, like every node after it, is
    left as it was; when no node accepts, the nodes and the topology are
    unchanged. *)
Theorem addToExisting_first (nodes : list ExistingNode) (t : TopologyT) (pod : Pod) :
  let '(ok, nodes', t') := addToExisting nodes t pod in
  if ok then
    exists pre n n' post,
      nodes = pre ++ n :: post /\ nodes' = pre ++ n' :: post
      /\ Forall (fun m => is_inl (ExistingNodeAdd pod (m, t)).1 = true) pre
      /\ ExistingNodeAdd pod (n, t) = (inr tt, (n', t'))
      /\ Pods n' = Pods n ++ [pod]
      /\ requests n' = Merge (requests n) (RequestsForPods [pod])
  else nodes' = nodes /\ t' = t
       /\ Forall (fun m => is_inl (ExistingNodeAdd pod (m, t)).1 = true) nodes.
Proof.
  induction nodes as [| n rest IH]; simpl; [done|].
  destruct (ExistingNodeAdd pod (n, t)) as [[e | []] [n' t']] eqn:Hadd.
  - apply ExistingNodeAdd_error in Hadd as Heq. destruct Heq as [-> ->].
    destruct (addToExisting rest t pod) as [[ok rest'] t''].
    destruct ok.
    + destruct IH as (pre & m & m' & post & -> & -> & Hpre & Hm & Hp & Hr).
      exists (n :: pre), m, m', post. repeat split; try done.
      constructor; [by rewrite Hadd | done].
    + destruct IH as (-> & -> & Hall). repeat split; try done.
      constructor; [by rewrite Hadd | done].
  - exists [], n, n', rest. apply ExistingNodeAdd_success in Hadd as Hs.
    destruct Hs as (_ & Hr & Hp & _). repeat split; done.
Qed.

Lemma addNewNodeClaim_error (templates : list TemplateT) errs (s : Scheduler) (pod : Pod) e :
  (addNewNodeClaim templates errs s pod).1 = Some e ->
  remainingResources (addNewNodeClaim templates errs s pod).2 = remainingResources s
  /\ newNodeClaims (addNewNodeClaim templates errs s pod).2 = newNodeClaims s
  /\ existingNodes (addNewNodeClaim templates errs s pod).2 = existingNodes s.
Proof.
  revert errs s. induction templates as [| tmpl rest IH]; intros errs s; simpl; [done|].
  destruct (bool_decide _ && bool_decide _); [apply IH|].
  destruct (NewNodeClaim _ _ _ _) as [machine topology1].
  destruct (NodeClaimAdd machine topology1 pod) as [[[err|] machine'] topology2]; simpl.
  - intros He. apply IH in He. simpl in He. done.
  - discriminate.
Qed.

Lemma addToExisting_refused (nodes : list ExistingNode) (t : TopologyT) (pod : Pod) :
  (addToExisting nodes t pod).1.1 = false ->
  (addToExisting nodes t pod).1.2 = nodes /\ (addToExisting nodes t pod).2 = t.
Proof.
  induction nodes as [| n rest IH]; simpl; [done|].
  destruct (ExistingNodeAdd pod (n, t)) as [[e | []] [n' t']] eqn:Hadd; [|done].
  apply ExistingNodeAdd_error in Hadd as [-> ->].
  destruct (addToExisting rest t pod) as [[ok rest'] t'']. simpl in *.
  intros Hok. destruct (IH Hok) as [-> ->]. done.
Qed.

(** When an existing node accepts the pod, [Scheduler.add] succeeds and
    neither creates a node claim nor touches the remaining limits.  When
    [Scheduler.add] fails, the existing nodes and the remaining limits are
    as before and no node claim was created. *)
Theorem add_existing_first (s : Scheduler) (pod : Pod) :
  ((addToExisting (existingNodes s) (topology s) pod).1.1 = true ->
   (add s pod).1 = None
   /\ newNodeClaims (add s pod).2 = newNodeClaims s
   /\ remainingResources (add s pod).2 = remainingResources s)
  /\ (forall e, (add s pod).1 = Some e ->
      existingNodes (add s pod).2 = existingNodes s
      /\ remainingResources (add s pod).2 = remainingResources s
      /\ length (newNodeClaims (add s pod).2) = length (newNodeClaims s)).
Proof.
  unfold add.
  pose proof (addToExisting_refused (existingNodes s) (topology s) pod) as Hfirst.
  destruct (addToExisting (existingNodes s) (topology s) pod) as [[ok nodes] topology1].
  simpl in *. destruct ok; [split; [done | intros e; discriminate]|].
  destruct (Hfirst eq_refl) as (-> & ->). split; [discriminate|].
  pose proof (addToNodeClaims_length (merge_sort fewerPods (newNodeClaims s)) (topology s) pod)
    as Hlen.
  destruct (addToNodeClaims _ _ pod) as [[ok claims] topology2]. simpl in *.
  assert (Hsorted : length claims = length (newNodeClaims s)).
  { rewrite Hlen. apply Permutation_length, merge_sort_Permutation. }
  destruct ok; simpl; [intros e; discriminate|].
  intros e He. apply addNewNodeClaim_error in He. simpl in He.
  destruct He as (-> & -> & ->). done.
Qed.

(** With no remaining limit every instance type stays; what
    [filterByRemainingResources] keeps is a sublist of the instance types,
    and under limits that are pointwise not greater it keeps no instance
    type that it drops under the greater ones. *)
Theorem filterByRemainingResources_monotone (instanceTypes : list InstanceType)
    (smaller larger : ResourceList) :
  filterByRemainingResources instanceTypes ∅ = instanceTypes
  /\ filterByRemainingResources instanceTypes larger `sublist_of` instanceTypes
  /\ ((forall k q', larger !! k = Some q' -> exists q, smaller !! k = Some q /\ q <= q') ->
      forall it, it ∈ filterByRemainingResources instanceTypes smaller ->
                 it ∈ filterByRemainingResources instanceTypes larger).
Proof.
  unfold filterByRemainingResources. split; [|split].
  - induction instanceTypes as [| it l IH]; [done|].
    rewrite filter_cons_True, IH; [done|].
    unfold viableInstance. apply bool_decide_eq_true. apply map_Forall_empty.
  - apply sublist_filter.
  - intros Hle it. rewrite !list_elem_of_filter. intros [Hv Hin]. split; [|done].
    unfold viableInstance in *. apply bool_decide_eq_true in Hv. apply bool_decide_eq_true.
    intros k q' Hk. destruct (Hle k q' Hk) as (q & Hq & Hqq').
    specialize (Hv k q Hq). simpl in *. unfold Cmp in *.
    rewrite Z.compare_gt_iff in *. lia.
Qed.

End WithOps.


(** A pod of 2000m cpu does not fit the node with 1000m available. *)
Lemma ExistingNodeAdd_error_unchanged_witness :
  (@ExistingNodeAdd _ simpleOps (simplePod "big" 2000)
     ((@NewExistingNode _ simpleOps (simpleStateNode "node-a" 1000) 0%nat ∅).1, 0%nat)).2
  = ((@NewExistingNode _ simpleOps (simpleStateNode "node-a" 1000) 0%nat ∅).1, 0%nat).
Proof.
  assert (Herr : is_inl (@ExistingNodeAdd _ simpleOps (simplePod "big" 2000)
     ((@NewExistingNode _ simpleOps (simpleStateNode "node-a" 1000) 0%nat ∅).1, 0%nat)).1 = true)
    by (vm_compute; reflexivity).
  destruct (@ExistingNodeAdd _ simpleOps (simplePod "big" 2000) _) as [[e | u] s'] eqn:Hadd.
  - exact (@ExistingNodeAdd_error_unchanged _ simpleOps _ _ _ _ Hadd).
  - discriminate Herr.
Defined.

Lemma simpleClaimAdd_nonneg machine0 t0 pod machine t1 :
  simpleClaimAdd machine0 t0 pod = (None, machine, t1) ->
  Forall nonnegCapacity (scOptions machine).
Proof.
  unfold simpleClaimAdd. intros Hadd.
  destruct (filter _ (scOptions machine0)) as [| it its] eqn:Hf; [discriminate|].
  inversion Hadd; subst; simpl. rewrite <- Hf.
  apply Forall_forall. intros it' Hin. apply list_elem_of_filter in Hin. tauto.
Qed.

(** With two templates: the claim for a 3000m pod is created from
    "default" (under the 1 cpu left in "small" no instance type is viable),
    and it is the pool "default" that is charged. *)
Lemma remaining_limits_never_increase_witness :
  limitsLe
    (remainingResources (sched (@solveLoop _ simpleOps 10 (simpleSolveState examplePods)).1))
    (remainingResources simpleScheduler)
  /\ exists (tmpl : @TemplateT _ simpleOps) t machine t1,
       tmpl = "default"
       /\ @NodeClaimAdd _ simpleOps
            (NewNodeClaim tmpl t (daemonOverhead twoPoolScheduler tmpl)
                          (viableInstanceTypes twoPoolScheduler tmpl)).1
            (NewNodeClaim tmpl t (daemonOverhead twoPoolScheduler tmpl)
                          (viableInstanceTypes twoPoolScheduler tmpl)).2
            (simplePod "p" 3000) = (None, machine, t1)
       /\ newNodeClaims (@add _ simpleOps twoPoolScheduler (simplePod "p" 3000)).2 = [machine]
       /\ remainingResources (@add _ simpleOps twoPoolScheduler (simplePod "p" 3000)).2 =
            <[ @OwnerName _ simpleOps tmpl :=
                 subtractMax (default ∅ (remainingResources twoPoolScheduler
                                           !! @OwnerName _ simpleOps tmpl))
                             (@InstanceTypeOptions _ simpleOps machine) ]>
              (remainingResources twoPoolScheduler).
Proof.
  pose proof (@remaining_limits_never_increase _ simpleOps simpleClaimAdd_nonneg)
    as (Hadd & _ & Hloop).
  split; [apply (Hloop 10%nat (simpleSolveState examplePods))|].
  destruct (Hadd twoPoolScheduler (simplePod "p" 3000))
    as [[Hsame _] | (claims & Hlen & tmpl & t & machine & t1 & Hin & Hclaim & Hnew & Hrem)].
  - exfalso.
    apply (f_equal (fun m => (m !! "default") ≫= (fun rl => rl !! ResourceCPU))) in Hsame.
    vm_compute in Hsame. discriminate Hsame.
  - destruct claims; [|discriminate Hlen].
    assert (Htmpl : tmpl = "default").
    { apply elem_of_cons in Hin as [-> | Hin].
      - exfalso. vm_compute in Hclaim. discriminate Hclaim.
      - apply elem_of_cons in Hin as [-> | Hin]; [reflexivity|].
        exfalso. exact (not_elem_of_nil _ Hin). }
    exists tmpl, t, machine, t1.
    split; [exact Htmpl|]. split; [|split; [exact Hnew | exact Hrem]].
    subst tmpl. exact Hclaim.
Defined.

(** In that run the pool "small" keeps its 1 cpu and the pool "default"
    goes from 10 cpus to 6. *)
Example example_two_pools :
  remainingResources (@add _ simpleOps twoPoolScheduler (simplePod "p" 3000)).2
  = {[ "small" := {[ ResourceCPU := NewQuantity 1 ]};
       "default" := {[ ResourceCPU := NewQuantity 6 ]} ]}.
Proof. vm_compute. reflexivity. Qed.

(** In the example the second pod makes the scheduler create a claim with
    the 2- and 4-cpu options, and the pool's 10 cpus become 6. *)
Example example_remaining :
  remainingResources (sched (@solveLoop _ simpleOps 10 (simpleSolveState examplePods)).1)
    !! "default" = Some {[ ResourceCPU := NewQuantity 6 ]}.
Proof. vm_compute. reflexivity. Qed.

End SchedulingFacts.

(** ** The node-claim lifecycle reconcilers *)

Module LifecycleFacts.
Import Resource Requirements Lifecycle ResourceFacts.

Lemma SetCondition_lookup_eq now t status reason message (cs : Conditions) :
  exists c, SetCondition now t status reason message cs !! t = Some c
            /\ Status c = status /\ Reason c = reason /\ Message c = message.
Proof.
  unfold SetCondition. destruct (cs !! t) as [c|] eqn:Hc.
  - destruct (bool_decide (Status c = status)) eqn:Hs; simpl.
    + destruct (String.eqb (Reason c) reason) eqn:Hr; simpl.
      * destruct (String.eqb (Message c) message) eqn:Hm; simpl.
        -- exists c. apply bool_decide_eq_true in Hs.
           apply String.eqb_eq in Hr, Hm. done.
        -- eexists. rewrite lookup_insert_eq. done.
      * eexists. rewrite lookup_insert_eq. done.
    + eexists. rewrite lookup_insert_eq. done.
  - eexists. rewrite lookup_insert_eq. done.
Qed.

Lemma SetCondition_lookup_ne now t t' status reason message (cs : Conditions) :
  t <> t' -> SetCondition now t status reason message cs !! t' = cs !! t'.
Proof.
  intros Hne. unfold SetCondition. destruct (cs !! t) as [c|].
  - destruct (_ && _); [done|]. by rewrite lookup_insert_ne.
  - by rewrite lookup_insert_ne.
Qed.

Lemma IsTrue_MarkTrue now t (cs : Conditions) : IsTrue (MarkTrue now t cs !! t) = true.
Proof.
  destruct (SetCondition_lookup_eq now t ConditionTrue "" "" cs) as (c & Hc & Hs & _).
  unfold MarkTrue. rewrite Hc. simpl. by apply bool_decide_eq_true.
Qed.

Lemma IsTrue_MarkFalse now t reason message (cs : Conditions) :
  IsTrue (MarkFalse now t reason message cs !! t) = false.
Proof.
  destruct (SetCondition_lookup_eq now t ConditionFalse reason message cs) as (c & Hc & Hs & _).
  unfold MarkFalse. rewrite Hc. simpl. apply bool_decide_eq_false. congruence.
Qed.

Section WithOps.
Context `{RequirementOps} `{TaintOps}.

(** *** Launch *)

(** C5, as amended.  For a claim that is not launched and not in the
    launch cache, [Launch.Reconcile] calls [Create] and then:
    - on an insufficient-capacity error publishes the event and issues the
      delete of the claim; it returns no error when the delete succeeds or
      reports not-found, and the delete's error otherwise; it leaves the
      claim and the launch cache as they were and calls nothing else (no
      offering is recorded anywhere by this reconciler);
    - on any other error sets Launched to false with reason LaunchFailed
      and the truncated message, and returns the wrapped error;
    - on success stores the created claim in the launch cache, copies its
      labels (under the claim's own and the requirement-resolved ones),
      annotations, provider id, capacity and allocatable onto the claim and
      sets Launched to true, returning no error. *)
Theorem LaunchReconcile_outcomes (env : Env) (w : World) (nc : NodeClaim) :
  IsTrue (ncConditions nc !! NodeLaunched) = false ->
  wCache w !! ncUID nc = None ->
  let '(res, err, nc', w') := LaunchReconcile env w nc in
  res = noRequeue /\
  match envCreate env nc with
  | inl (InsufficientCapacityError msg) =>
      nc' = nc /\ wCache w' = wCache w
      /\ err = match envDelete env nc with
               | None => None
               | Some derr => IgnoreNotFound derr
               end
      /\ wTrace w' = wTrace w
           ++ [CloudCreate (ncName nc); Publish "InsufficientCapacityError" (ncName nc);
               KubeDelete (ncName nc)]
           ++ match envDelete env nc with
              | None => [CounterInc "nodeclaims_terminated" "insufficient_capacity"
                           (label nc NodePoolLabelKey)]
              | Some _ => []
              end
  | inl (OtherCloudError msg) =>
      err = Some (EWrap "creating machine, " (ECloud (OtherCloudError msg)))
      /\ wCache w' = wCache w
      /\ wTrace w' = wTrace w ++ [CloudCreate (ncName nc)]
      /\ nc' = setConditions nc (ncConditions nc')
      /\ exists c, ncConditions nc' !! NodeLaunched = Some c
                   /\ Status c = ConditionFalse /\ Reason c = "LaunchFailed"
                   /\ Message c = truncateMessage msg
  | inr created =>
      err = None
      /\ wCache w' = <[ ncUID nc := created ]> (wCache w)
      /\ IsTrue (ncConditions nc' !! NodeLaunched) = true
      /\ ncProviderID nc' = ncProviderID created
      /\ ncCapacity nc' = ncCapacity created
      /\ ncAllocatable nc' = ncAllocatable created
      /\ ncAnnotations nc' = Assign (ncAnnotations nc) (ncAnnotations created)
      /\ ncLabels nc' =
           Assign (Assign (ncLabels created)
                          (Labels (NewNodeSelectorRequirements (ncRequirements nc))))
                  (ncLabels nc)
  end.
Proof.
  intros Hnot Hcache. unfold LaunchReconcile, launchNode. rewrite Hnot, Hcache.
  destruct (envCreate env nc) as [[msg | msg] | created]; simpl.
  - destruct (envDelete env nc) as [derr|]; simpl.
    + destruct (IgnoreNotFound derr); simpl;
        (split; [done|]); rewrite <- ?app_assoc; simpl; done.
    + split; [done|]. rewrite <- ?app_assoc. done.
  - split; [done|]. repeat split; try done.
    destruct (SetCondition_lookup_eq (envNow env) NodeLaunched ConditionFalse "LaunchFailed"
                (truncateMessage msg) (ncConditions nc)) as (c & Hc & Hrest).
    exists c. done.
  - split; [done|]. repeat split; try done. apply IsTrue_MarkTrue.
Qed.

(** *** Launch timeout *)

(** C6, as amended.  [LaunchTimeout.Reconcile] does nothing for a claim
    whose Launched condition is true; only requeues a claim that has no
    Launched condition yet; for a claim whose Launched condition is present
    and not true it measures from that condition's last transition time
    (not from the claim's creation): before two minutes have passed it only
    requeues after the remainder, from two minutes on it removes the
    finalizer (best effort) and issues the delete, returning the delete's
    error unless that is not-found. *)
Theorem LaunchTimeoutReconcile_outcomes (env : Env) (w : World) (machine : Machine) :
  let '(res, err, w') := LaunchTimeoutReconcile env w machine in
  match ncConditions machine !! NodeLaunched with
  | None => res = {| Requeue := true; RequeueAfter := 0 |} /\ err = None /\ w' = w
  | Some launched =>
      if bool_decide (Status launched = ConditionTrue) then
        res = noRequeue /\ err = None /\ w' = w
      else if bool_decide (envClock1 env - LastTransitionTime launched < launchTTL) then
        res = {| Requeue := false;
                 RequeueAfter := launchTTL - (envClock2 env - LastTransitionTime launched) |}
        /\ err = None /\ w' = w
      else
        res = noRequeue
        /\ KubeDelete (ncName machine) ∈ wTrace w'
        /\ err = match envDelete env machine with
                 | None => None
                 | Some derr => IgnoreNotFound derr
                 end
  end.
Proof.
  unfold LaunchTimeoutReconcile.
  destruct (ncConditions machine !! NodeLaunched) as [launched|]; simpl; [|done].
  destruct (bool_decide (Status launched = ConditionTrue)); [done|].
  destruct (Z.ltb_spec (envClock1 env - LastTransitionTime launched) launchTTL) as [Hlt | Hge].
  - rewrite bool_decide_eq_true_2 by done. done.
  - rewrite bool_decide_eq_false_2 by lia.
    destruct (envDelete env machine) as [derr|]; simpl.
    + split; [done|]. split; [|done]. set_solver.
    + split; [done|]. split; [|done]. set_solver.
Qed.

(** *** Registration *)

(** What [Launch.Reconcile] can do to the conditions of a claim. *)
Lemma LaunchReconcile_conditions (env : Env) (w : World) (nc : NodeClaim) :
  let cs' := ncConditions (LaunchReconcile env w nc).1.2 in
  cs' = ncConditions nc
  \/ (IsTrue (ncConditions nc !! NodeLaunched) = false
      /\ exists reason message, cs' = MarkFalse (envNow env) NodeLaunched reason message (ncConditions nc))
  \/ cs' = MarkTrue (envNow env) NodeLaunched (ncConditions nc).
Proof.
  unfold LaunchReconcile, launchNode.
  destruct (IsTrue (ncConditions nc !! NodeLaunched)) eqn:Hl; [by left|].
  destruct (wCache w !! ncUID nc) as [ret|]; simpl; [by right; right|].
  destruct (envCreate env nc) as [[msg | msg] | created]; simpl.
  - destruct (envDelete env nc) as [derr|]; simpl; [|by left].
    destruct (IgnoreNotFound derr); by left.
  - right; left. split; [done|]. eauto.
  - by right; right.
Qed.

(** What [Registration.Reconcile] can do to the conditions and the node
    name of a claim. *)
Lemma RegistrationReconcile_conditions (env : Env) (w : World) (nc : NodeClaim) :
  let nc' := (RegistrationReconcile env w nc).1.2 in
  nc' = nc
  \/ (exists reason message,
        nc' = setConditions nc
                (MarkFalse (envNow env) NodeRegistered reason message (ncConditions nc)))
  \/ (IsTrue (ncConditions nc !! NodeLaunched) = true
      /\ exists name,
           nc' = setNodeName (setConditions nc (MarkTrue (envNow env) NodeRegistered
                                                  (ncConditions nc))) name).
Proof.
  unfold RegistrationReconcile.
  destruct (IsTrue (ncConditions nc !! NodeRegistered)); [by left|].
  destruct (IsTrue (ncConditions nc !! NodeLaunched)) eqn:Hl; simpl; [|right; left; eauto].
  destruct (NodeForNodeClaim env nc) as [[pid | pid | e] | node]; simpl.
  - right; left; eauto.
  - right; left; eauto.
  - by left.
  - destruct (syncNode env w nc node) as [[err|] w']; simpl; [by left|].
    right; right. split; [done|]. eauto.
Qed.

Lemma step_preserves (nc nc' : NodeClaim) :
  step nc nc' -> registeredImpliesLaunched nc -> registeredImpliesLaunched nc'.
Proof.
  intros Hstep Hinv. unfold registeredImpliesLaunched in *.
  destruct Hstep as [env w nc | env w nc].
  - destruct (LaunchReconcile_conditions env w nc) as [-> | [(Hl & r & m & ->) | ->]].
    + done.
    + unfold MarkFalse. rewrite SetCondition_lookup_ne by done.
      intros Hr. rewrite (Hinv Hr) in Hl. discriminate.
    + intros _. apply IsTrue_MarkTrue.
  - destruct (RegistrationReconcile_conditions env w nc)
      as [-> | [(r & m & ->) | (Hl & name & ->)]]; simpl.
    + done.
    + by rewrite IsTrue_MarkFalse.
    + intros _. unfold MarkTrue. by rewrite SetCondition_lookup_ne.
Qed.

(** C7, as amended.  (1) A pass of [Registration.Reconcile] that turns
    Registered true ran on a claim whose Launched condition was true, and
    leaves it true.  (2) In every claim the launch and registration
    reconcilers can produce from a claim without conditions, Registered
    true implies Launched true.  (3) When the claim is launched and not yet
    registered, has a provider id, and the listing returns more than one
    node with that provider id, the pass marks Registered false with
    reason MultipleNodesFound, binds no node (the node name stays as it
    was), patches nothing and returns no error.  (4) A claim that is
    already registered is returned as it is, whatever nodes carry its
    provider id: nothing is marked and nothing is called.  (5) A claim
    that is neither registered nor launched is marked Registered false
    with reason NodeNotLaunched, again whatever nodes carry its provider
    id, and nothing is called. *)
Theorem Registration_invariants :
  (forall env w nc,
      IsTrue (ncConditions nc !! NodeRegistered) = false ->
      IsTrue (ncConditions (RegistrationReconcile env w nc).1.2 !! NodeRegistered) = true ->
      IsTrue (ncConditions nc !! NodeLaunched) = true
      /\ IsTrue (ncConditions (RegistrationReconcile env w nc).1.2 !! NodeLaunched) = true)
  /\ (forall nc, reachable nc -> registeredImpliesLaunched nc)
  /\ (forall env w nc n1 n2 rest,
        IsTrue (ncConditions nc !! NodeRegistered) = false ->
        IsTrue (ncConditions nc !! NodeLaunched) = true ->
        ncProviderID nc <> "" ->
        envListError env = None ->
        filter (fun n => nodeProviderID n = ncProviderID nc) (envNodes env) = n1 :: n2 :: rest ->
        let '(res, err, nc', w') := RegistrationReconcile env w nc in
        err = None /\ w' = w /\ ncNodeName nc' = ncNodeName nc
        /\ IsTrue (ncConditions nc' !! NodeRegistered) = false
        /\ exists c, ncConditions nc' !! NodeRegistered = Some c
                     /\ Status c = ConditionFalse /\ Reason c = "MultipleNodesFound")
  /\ (forall env w nc,
        IsTrue (ncConditions nc !! NodeRegistered) = true ->
        RegistrationReconcile env w nc = (noRequeue, None, nc, w))
  /\ (forall env w nc,
        IsTrue (ncConditions nc !! NodeRegistered) = false ->
        IsTrue (ncConditions nc !! NodeLaunched) = false ->
        RegistrationReconcile env w nc =
          (noRequeue, None,
           setConditions nc
             (MarkFalse (envNow env) NodeRegistered "NodeNotLaunched" "Node is not launched"
                (ncConditions nc)), w)).
Proof.
  split; [|split; [|split; [|split]]].
  - intros env w nc Hnot Hreg.
    destruct (RegistrationReconcile_conditions env w nc)
      as [Heq | [(r & m & Heq) | (Hl & name & Heq)]]; rewrite Heq in Hreg |- *; simpl in *.
    + congruence.
    + rewrite IsTrue_MarkFalse in Hreg. discriminate.
    + split; [done|]. unfold MarkTrue. by rewrite SetCondition_lookup_ne.
  - intros nc Hreach. induction Hreach as [nc Hempty | nc nc' _ IH Hstep].
    + unfold registeredImpliesLaunched. rewrite Hempty, lookup_empty. discriminate.
    + by eapply step_preserves.
  - intros env w nc n1 n2 rest Hnot Hl Hpid Hlist Hnodes.
    unfold RegistrationReconcile, NodeForNodeClaim, AllNodesForNodeClaim.
    rewrite Hnot, Hl. simpl.
    destruct (String.eqb_spec (ncProviderID nc) "") as [Heq | _]; [done|].
    rewrite Hlist, Hnodes. simpl.
    split; [done|]. split; [done|]. split; [done|]. split; [apply IsTrue_MarkFalse|].
    destruct (SetCondition_lookup_eq (envNow env) NodeRegistered ConditionFalse
                "MultipleNodesFound" "Invariant violated, nodeclaim matched multiple nodes"
                (ncConditions nc)) as (c & Hc & Hs & Hr & _).
    exists c. done.
  - intros env w nc Hreg. unfold RegistrationReconcile. by rewrite Hreg.
  - intros env w nc Hreg Hl. unfold RegistrationReconcile. by rewrite Hreg, Hl.
Qed.

Lemma setConditions_id (nc : NodeClaim) : setConditions nc (ncConditions nc) = nc.
Proof. by destruct nc. Qed.

Lemma SetCondition_same now t status reason message (cs : Conditions) c :
  cs !! t = Some c -> Status c = status -> Reason c = reason -> Message c = message ->
  SetCondition now t status reason message cs = cs.
Proof.
  intros Hc <- <- <-. unfold SetCondition. rewrite Hc.
  rewrite bool_decide_eq_true_2 by done. by rewrite !String.eqb_refl.
Qed.

(** A launched claim whose node is not in the cluster: the first pass of
    [Registration.Reconcile] marks Registered false at the time of the
    pass; every later pass that finds no node leaves the claim exactly as
    it is (the transition time is not renewed), so [Liveness.Reconcile]
    deletes the claim once 15 minutes have passed since the first failed
    pass, and before that only requeues. *)
Theorem Liveness_counts_from_first_failure (env1 env2 env3 : Env) (w : World) (nc : NodeClaim) :
  IsTrue (ncConditions nc !! NodeLaunched) = true ->
  ncConditions nc !! NodeRegistered = None ->
  (exists pid, NodeForNodeClaim env1 nc = inl (NodeNotFoundError pid)) ->
  let nc1 := (RegistrationReconcile env1 w nc).1.2 in
  (forall pid, NodeForNodeClaim env2 nc1 = inl (NodeNotFoundError pid) ->
               RegistrationReconcile env2 w nc1 = (noRequeue, None, nc1, w))
  /\ (envClock1 env3 - envNow env1 < registrationTTL ->
      LivenessReconcile env3 w nc1 =
        ({| Requeue := false;
            RequeueAfter := registrationTTL - (envClock2 env3 - envNow env1) |}, None, w))
  /\ (registrationTTL <= envClock1 env3 - envNow env1 ->
      KubeDelete (ncName nc) ∈ wTrace (LivenessReconcile env3 w nc1).2).
Proof.
  intros Hl Hr [pid Hnf]. cbv zeta.
  assert (Hnc1 : (RegistrationReconcile env1 w nc).1.2 =
                 setConditions nc
                   (<[ NodeRegistered := {| Status := ConditionFalse; Reason := "NodeNotFound";
                                            Message := "Node not registered with cluster";
                                            LastTransitionTime := envNow env1 |} ]>
                      (ncConditions nc))).
  { unfold RegistrationReconcile. rewrite Hr, Hl, Hnf. simpl.
    unfold MarkFalse, SetCondition. by rewrite Hr. }
  rewrite Hnc1. set (c := {| Status := ConditionFalse |}).
  set (nc1 := setConditions nc _).
  assert (Hc : ncConditions nc1 !! NodeRegistered = Some c) by apply lookup_insert_eq.
  assert (Hl1 : IsTrue (ncConditions nc1 !! NodeLaunched) = true).
  { unfold nc1. simpl. by rewrite lookup_insert_ne. }
  split; [|split].
  - intros pid' Hnf'. unfold RegistrationReconcile. rewrite Hc, Hl1, Hnf'. simpl.
    unfold MarkFalse. rewrite (SetCondition_same _ _ _ _ _ _ c) by done.
    by rewrite setConditions_id.
  - intros Hlt. unfold LivenessReconcile. rewrite Hc. simpl.
    destruct (Z.ltb_spec (envClock1 env3 - envNow env1) registrationTTL); [done | lia].
  - intros Hge. unfold LivenessReconcile. rewrite Hc. simpl.
    destruct (Z.ltb_spec (envClock1 env3 - envNow env1) registrationTTL); [lia|].
    destruct (envDelete env3 nc1); simpl; set_solver.
Qed.

(** A launch result kept in the cache is reused: for a claim that is not
    launched and whose UID is in the launch cache, [Launch.Reconcile] does
    not call the cloud provider, takes provider id, capacity and
    allocatable from the cached claim and marks the claim Launched.  After
    any pass that leaves the claim Launched, a further pass changes
    nothing and calls nothing. *)
Theorem LaunchReconcile_cached (env env' : Env) (w : World) (nc cached : NodeClaim) :
  IsTrue (ncConditions nc !! NodeLaunched) = false ->
  wCache w !! ncUID nc = Some cached ->
  let '(res, err, nc', w') := LaunchReconcile env w nc in
  err = None
  /\ wTrace w' = wTrace w ++ [CounterInc "nodeclaims_launched" "nodepool"
                                (label nc' NodePoolLabelKey)]
  /\ wCache w' = wCache w
  /\ ncProviderID nc' = ncProviderID cached
  /\ ncCapacity nc' = ncCapacity cached
  /\ ncAllocatable nc' = ncAllocatable cached
  /\ IsTrue (ncConditions nc' !! NodeLaunched) = true
  /\ LaunchReconcile env' w' nc' = (noRequeue, None, nc', w').
Proof.
  intros Hl Hc. unfold LaunchReconcile at 1. rewrite Hl, Hc. simpl.
  assert (Hl' : IsTrue (MarkTrue (envNow env) NodeLaunched (ncConditions nc) !! NodeLaunched) = true)
    by apply IsTrue_MarkTrue.
  repeat split; try done.
  - by rewrite insert_id.
  - unfold LaunchReconcile. simpl. by rewrite Hl'.
Qed.

Lemma length_substring_0 (n : nat) (s : string) :
  (n <= String.length s)%nat -> String.length (String.substring 0 n s) = n.
Proof.
  revert s. induction n as [| n IH]; intros s Hn.
  - by destruct s.
  - destruct s as [| c s]; simpl in *; [lia|]. rewrite IH; lia.
Qed.

Lemma length_append (s1 s2 : string) :
  String.length (String.append s1 s2) = (String.length s1 + String.length s2)%nat.
Proof. induction s1 as [| c s1 IH]; simpl; [done | by rewrite IH]. Qed.

Lemma substring_0_prefix (n : nat) (s : string) :
  String.prefix (String.substring 0 n s) s = true.
Proof.
  revert s. induction n as [| n IH]; intros s.
  - by destruct s.
  - destruct s as [| c s]; simpl; [done|].
    destruct (Ascii.ascii_dec c c); [apply IH | done].
Qed.

(** [truncateMessage] returns a message of fewer than 300 bytes as it is;
    a longer one is cut to its first 300 bytes followed by three dots, so
    the result never has more than 303 bytes. *)
Theorem truncateMessage_length (msg : string) :
  (String.length (truncateMessage msg) <= 303)%nat
  /\ ((String.length msg < 300)%nat -> truncateMessage msg = msg)
  /\ ((300 <= String.length msg)%nat ->
      String.length (truncateMessage msg) = 303%nat
      /\ truncateMessage msg = String.append (String.substring 0 300 msg) "..."
      /\ String.prefix (String.substring 0 300 msg) msg = true).
Proof.
  unfold truncateMessage.
  destruct (Nat.ltb_spec (String.length msg) 300) as [Hlt | Hge].
  - split; [lia|]. split; [done | lia].
  - assert (Hlen : String.length (String.append (String.substring 0 300 msg) "...") = 303%nat).
    { rewrite length_append, length_substring_0 by done. done. }
    split; [lia|]. split; [lia|]. intros _. split; [done|]. split; [done|].
    apply substring_0_prefix.
Qed.

Lemma filter_all {A} (P : A -> Prop) `{!forall x, Decision (P x)} (l : list A) :
  Forall P l -> filter P l = l.
Proof.
  induction 1 as [| x l Hx Hl IH]; [done|]. by rewrite filter_cons_True, IH.
Qed.

Lemma syncedNode_changes (nc : NodeClaim) (node : Node) : syncedNode nc node <> node.
Proof.
  intros Heq. assert (Ho : nodeOwnerReferences (syncedNode nc node) = nodeOwnerReferences node)
    by (by rewrite Heq).
  simpl in Ho. set (ref := {| orKind := "NodeClaim" |}) in Ho.
  assert (Hall : Forall (fun o => orKind o ≠ "Provisioner") (nodeOwnerReferences node)).
  { rewrite <- Ho. apply Forall_app. split.
    - apply Forall_forall. intros o Hin. by apply list_elem_of_filter in Hin as [Hk _].
    - by constructor. }
  rewrite (filter_all _ _ Hall) in Ho.
  apply (f_equal length) in Ho. rewrite length_app in Ho. simpl in Ho. lia.
Qed.

Lemma syncNode_trace (env : Env) (w : World) (nc : NodeClaim) (node : Node) :
  wTrace (syncNode env w nc node).2 = wTrace w ++ [KubePatchNode (syncedNode nc node)].
Proof.
  unfold syncNode.
  rewrite bool_decide_eq_false_2 by (intros Heq; by apply (syncedNode_changes nc node)).
  by destruct (envPatch env _).
Qed.

(** [Registration.syncNode] always appends the claim's owner reference to
    the node, so the node it builds always differs from the stored one and
    it always issues exactly one patch; its error is the patch's, wrapped. *)
Theorem syncNode_always_patches (env : Env) (w : World) (nc : NodeClaim) (node : Node) :
  wTrace (syncNode env w nc node).2 = wTrace w ++ [KubePatchNode (syncedNode nc node)]
  /\ (syncNode env w nc node).1 =
       (fun err => EWrap "syncing node labels, " (EKube err)) <$> envPatch env (syncedNode nc node)
  /\ last (nodeOwnerReferences (syncedNode nc node)) =
       Some {| orAPIVersion := "karpenter.sh/v1beta1"; orKind := "NodeClaim";
               orName := ncName nc; orUID := ncUID nc; orBlockOwnerDeletion := Some true |}.
Proof.
  unfold syncNode. rewrite bool_decide_eq_false_2 by (intros Heq; by apply (syncedNode_changes nc node)).
  split; [|split].
  - by destruct (envPatch env _).
  - by destruct (envPatch env _).
  - simpl. by rewrite last_snoc.
Qed.

(** A pass of [Registration.Reconcile] that turns Registered true found
    exactly one node with the claim's (non-empty) provider id, patched
    that node and bound the claim to its name. *)
Theorem Registration_binds_unique_node (env : Env) (w : World) (nc : NodeClaim) :
  IsTrue (ncConditions nc !! NodeRegistered) = false ->
  IsTrue (ncConditions (RegistrationReconcile env w nc).1.2 !! NodeRegistered) = true ->
  exists node,
    ncProviderID nc <> ""
    /\ filter (fun n => nodeProviderID n = ncProviderID nc) (envNodes env) = [node]
    /\ ncNodeName (RegistrationReconcile env w nc).1.2 = nodeName node
    /\ KubePatchNode (syncedNode nc node) ∈ wTrace (RegistrationReconcile env w nc).2
    /\ (RegistrationReconcile env w nc).1.1.2 = None.
Proof.
  intros Hr. unfold RegistrationReconcile. rewrite Hr.
  destruct (IsTrue (ncConditions nc !! NodeLaunched)); simpl;
    [|by rewrite IsTrue_MarkFalse].
  unfold NodeForNodeClaim, AllNodesForNodeClaim.
  destruct (String.eqb_spec (ncProviderID nc) "") as [Hp | Hp]; simpl;
    [by rewrite IsTrue_MarkFalse|].
  destruct (envListError env); simpl; [by rewrite Hr|].
  destruct (filter _ (envNodes env)) as [| node [| node2 rest]] eqn:Hf; simpl;
    [by rewrite IsTrue_MarkFalse | | by rewrite IsTrue_MarkFalse].
  pose proof (syncNode_trace env w nc node) as Htr.
  destruct (syncNode env w nc node) as [[err|] w'] eqn:Hs; simpl in *; [by rewrite Hr|].
  intros _. exists node. repeat split; try done.
  rewrite Htr. set_solver.
Qed.

(** A launch that fails with an error other than insufficient capacity:
    when the claim already carries Launched = false with reason
    LaunchFailed and the same (truncated) message, the claim is left
    exactly as it is, so the time [LaunchTimeout.Reconcile] counts from is
    not renewed; when the claim has no Launched condition, or one with
    another message, the condition is stamped with the time of this pass,
    so a changed error message restarts the launch timeout. *)
Theorem Launch_failure_transition_time (env : Env) (w : World) (nc : NodeClaim) (msg : string) :
  IsTrue (ncConditions nc !! NodeLaunched) = false ->
  wCache w !! ncUID nc = None ->
  envCreate env nc = inl (OtherCloudError msg) ->
  (forall c, ncConditions nc !! NodeLaunched = Some c ->
             Status c = ConditionFalse -> Reason c = "LaunchFailed" ->
             Message c = truncateMessage msg ->
             (LaunchReconcile env w nc).1.2 = nc)
  /\ ((forall c, ncConditions nc !! NodeLaunched = Some c -> Message c <> truncateMessage msg) ->
      exists c', ncConditions (LaunchReconcile env w nc).1.2 !! NodeLaunched = Some c'
                 /\ LastTransitionTime c' = envNow env
                 /\ Message c' = truncateMessage msg
                 /\ Status c' = ConditionFalse).
Proof.
  intros Hl Hc Hcreate. unfold LaunchReconcile, launchNode. rewrite Hl, Hc, Hcreate. simpl.
  split.
  - intros c Hlook Hstatus Hreason Hmsg.
    unfold MarkFalse. rewrite (SetCondition_same _ _ _ _ _ _ c) by done.
    apply setConditions_id.
  - intros Hdiff. unfold MarkFalse, SetCondition.
    destruct (ncConditions nc !! NodeLaunched) as [c|] eqn:Hlook.
    + assert (Hm : String.eqb (Message c) (truncateMessage msg) = false).
      { apply String.eqb_neq. by apply Hdiff. }
      rewrite Hm, andb_false_r. rewrite lookup_insert_eq. eexists. done.
    + rewrite lookup_insert_eq. eexists. done.
Qed.

End WithOps.

(** C5, counterexample.  [Create] fails for want of capacity and the
    delete of the claim fails with an error other than not-found:
    [Launch.Reconcile] returns that error (so the reconcile is retried), and
    besides the event and the delete it has called nothing: no offering has
    been recorded. *)
Lemma launch_insufficient_capacity_delete_fails :
  let '(res, err, nc', w') :=
    @LaunchReconcile setRequirementOps
      (exampleEnv (inl (InsufficientCapacityError "no capacity"))
                  (Some (OtherKubeError "timeout")) [] 0)
      emptyWorld (exampleClaim ∅) in
  err = Some (EKube (OtherKubeError "timeout"))
  /\ err <> None
  /\ wCache w' = ∅
  /\ wTrace w' = [CloudCreate "claim-1"; Publish "InsufficientCapacityError" "claim-1";
                  KubeDelete "claim-1"].
Proof. vm_compute. repeat split; [discriminate]. Qed.

(** [Create] fails for want of capacity and the delete succeeds: no error. *)
Lemma LaunchReconcile_outcomes_witness :
  (@LaunchReconcile setRequirementOps
     (exampleEnv (inl (InsufficientCapacityError "no capacity")) None [] 0)
     emptyWorld (exampleClaim ∅)).1.1.2 = None.
Proof.
  pose proof (@LaunchReconcile_outcomes setRequirementOps
                (exampleEnv (inl (InsufficientCapacityError "no capacity")) None [] 0)
                emptyWorld (exampleClaim ∅) eq_refl eq_refl) as Ho.
  destruct (LaunchReconcile _ _ _) as [[[res err] nc'] w']. simpl in Ho |- *.
  destruct Ho as (_ & _ & _ & Herr & _). exact Herr.
Defined.

(** C6, counterexample.  A claim created at time 0 whose launch failed at
    nine minutes (Launched false since then): at ten minutes, eight minutes
    past the two since its creation, [LaunchTimeout.Reconcile] deletes
    nothing and asks to be called again in one minute. *)
Lemma launch_timeout_counts_from_transition :
  ncCreationTimestamp (exampleClaim failedAtNineMinutes) + launchTTL <= 10 * minute
  /\ IsTrue (ncConditions (exampleClaim failedAtNineMinutes) !! NodeLaunched) = false
  /\ LaunchTimeoutReconcile (exampleEnv (inl (OtherCloudError "quota")) None [] (10 * minute))
                            emptyWorld (exampleClaim failedAtNineMinutes)
     = ({| Requeue := false; RequeueAfter := minute |}, None, emptyWorld).
Proof. vm_compute. repeat split; discriminate. Qed.

(** The same claim at twelve minutes: the delete is issued. *)
Lemma LaunchTimeoutReconcile_outcomes_witness :
  KubeDelete "claim-1"
  ∈ wTrace (LaunchTimeoutReconcile
              (exampleEnv (inl (OtherCloudError "quota")) None [] (12 * minute))
              emptyWorld (exampleClaim failedAtNineMinutes)).2.
Proof.
  pose proof (LaunchTimeoutReconcile_outcomes
                (exampleEnv (inl (OtherCloudError "quota")) None [] (12 * minute))
                emptyWorld (exampleClaim failedAtNineMinutes)) as Ho.
  destruct (LaunchTimeoutReconcile _ _ _) as [[res err] w']. simpl in Ho |- *.
  destruct Ho as (_ & Hdel & _). exact Hdel.
Defined.

(** C7, counterexample.  Two nodes carry the provider id of a claim that
    is already registered: the pass returns at its first guard, the claim
    stays registered and bound to its node, and no condition gets the
    reason MultipleNodesFound. *)
Lemma Registration_registered_duplicate_unmarked :
  length (filter (fun n => nodeProviderID n = ncProviderID (registeredClaim "i-1"))
                 [exampleNode "node-a" "i-1"; exampleNode "node-b" "i-1"]) = 2%nat
  /\ (@RegistrationReconcile simpleTaintOps
        (exampleEnv (inl (OtherCloudError "")) None
                    [exampleNode "node-a" "i-1"; exampleNode "node-b" "i-1"] 5)
        emptyWorld (registeredClaim "i-1")).1.2 = registeredClaim "i-1"
  /\ IsTrue (ncConditions (registeredClaim "i-1") !! NodeRegistered) = true
  /\ Reason <$> (ncConditions (registeredClaim "i-1") !! NodeRegistered) = Some ""
  /\ ncNodeName (registeredClaim "i-1") = "node-a".
Proof. repeat split; vm_compute; reflexivity. Qed.

(** Two nodes report the provider id of a launched claim. *)
Lemma Registration_invariants_witness :
  ncNodeName
    (@RegistrationReconcile simpleTaintOps
       (exampleEnv (inl (OtherCloudError "")) None
                   [exampleNode "node-a" "i-1"; exampleNode "node-b" "i-1"] 0)
       emptyWorld (launchedClaim "i-1")).1.2 = "".
Proof.
  pose proof (proj1 (proj2 (proj2 (@Registration_invariants setRequirementOps simpleTaintOps)))
                (exampleEnv (inl (OtherCloudError "")) None
                            [exampleNode "node-a" "i-1"; exampleNode "node-b" "i-1"] 0)
                emptyWorld (launchedClaim "i-1")
                (exampleNode "node-a" "i-1") (exampleNode "node-b" "i-1") []
                eq_refl eq_refl ltac:(discriminate) eq_refl eq_refl) as Ho.
  destruct (RegistrationReconcile _ _ _) as [[[res err] nc'] w']. simpl in Ho |- *.
  destruct Ho as (_ & _ & Hname & _). exact Hname.
Defined.

(** A launched claim whose node never appears, sixteen minutes after the
    first failed registration pass. *)
Lemma Liveness_counts_from_first_failure_witness :
  KubeDelete "claim-1"
  ∈ wTrace (LivenessReconcile (exampleEnv (inl (OtherCloudError "")) None [] (16 * minute))
              emptyWorld
              (@RegistrationReconcile simpleTaintOps
                 (exampleEnv (inl (OtherCloudError "")) None [] 0) emptyWorld
                 (launchedClaim "pid-1")).1.2).2.
Proof.
  apply (proj2 (proj2 (@Liveness_counts_from_first_failure simpleTaintOps
          (exampleEnv (inl (OtherCloudError "")) None [] 0)
          (exampleEnv (inl (OtherCloudError "")) None [] 0)
          (exampleEnv (inl (OtherCloudError "")) None [] (16 * minute))
          emptyWorld (launchedClaim "pid-1") eq_refl eq_refl
          (ex_intro _ "pid-1" eq_refl)))).
  vm_compute. discriminate.
Defined.

(** A claim whose launch result is in the cache. *)
Lemma LaunchReconcile_cached_witness :
  ncProviderID
    (@LaunchReconcile setRequirementOps (exampleEnv (inl (OtherCloudError "")) None [] 5)
       {| wCache := {[ "uid-1" := launchedClaim "pid-1" ]}; wTrace := [] |}
       (exampleClaim ∅)).1.2 = "pid-1".
Proof.
  pose proof (@LaunchReconcile_cached setRequirementOps
                (exampleEnv (inl (OtherCloudError "")) None [] 5)
                (exampleEnv (inl (OtherCloudError "")) None [] 5)
                {| wCache := {[ "uid-1" := launchedClaim "pid-1" ]}; wTrace := [] |}
                (exampleClaim ∅) (launchedClaim "pid-1") eq_refl eq_refl) as Ht.
  destruct (LaunchReconcile _ _ _) as [[[res err] nc'] w'].
  destruct Ht as (_ & _ & _ & Hp & _). simpl. rewrite Hp. reflexivity.
Defined.

(** One node carries the claim's provider id. *)
Lemma Registration_binds_unique_node_witness :
  ncNodeName (@RegistrationReconcile simpleTaintOps
                (exampleEnv (inl (OtherCloudError "")) None [exampleNode "node-1" "pid-1"] 5)
                emptyWorld (launchedClaim "pid-1")).1.2 = "node-1".
Proof.
  destruct (@Registration_binds_unique_node simpleTaintOps
              (exampleEnv (inl (OtherCloudError "")) None [exampleNode "node-1" "pid-1"] 5)
              emptyWorld (launchedClaim "pid-1") eq_refl)
    as (node & _ & Hf & Hn & _).
  - vm_compute. reflexivity.
  - rewrite Hn. vm_compute in Hf. inversion Hf. reflexivity.
Defined.

(** A second failure with the message the claim already carries. *)
Lemma Launch_failure_transition_time_witness :
  (@LaunchReconcile setRequirementOps
     (exampleEnv (inl (OtherCloudError "quota")) None [] (10 * minute))
     emptyWorld (exampleClaim failedAtNineMinutes)).1.2
  = exampleClaim failedAtNineMinutes.
Proof.
  apply (proj1 (@Launch_failure_transition_time setRequirementOps
                  (exampleEnv (inl (OtherCloudError "quota")) None [] (10 * minute))
                  emptyWorld (exampleClaim failedAtNineMinutes) "quota"
                  eq_refl eq_refl eq_refl)
               {| Status := ConditionFalse; Reason := "LaunchFailed";
                  Message := "quota"; LastTransitionTime := 9 * minute |});
    reflexivity.
Defined.

End LifecycleFacts.

(** ** The eviction queue (eviction.go) *)

Module EvictionFacts.
Import Eviction.

Lemma Has_false_other (q : Queue) (pod : PodRef) nodeName pods :
  podNodeName pod <> nodeName ->
  Has {| evictionMapping := <[ nodeName := pods ]> (evictionMapping q);
         workqueue := workqueue q |} pod = Has q pod.
Proof. intros Hne. unfold Has. simpl. by rewrite lookup_insert_ne. Qed.

Lemma addAll_same_node (n : string) (pods : list PodRef) :
  Forall (fun p => podNodeName p = n) pods ->
  forall q set, evictionMapping q !! n = Some set ->
  exists new,
    addAll q pods =
      Some {| evictionMapping := <[ n := list_to_set (keyOf <$> pods) ∪ set ]> (evictionMapping q);
              workqueue := workqueue q ++ (WQAdd <$> new) |}
    /\ NoDup new
    /\ (forall k, k ∈ new <-> k ∈ keyOf <$> pods /\ k ∉ set).
Proof.
  induction 1 as [| pod pods Hn Hall IH]; intros q set Hq.
  - exists []. simpl. rewrite (left_id_L ∅ (∪)), insert_id, app_nil_r by done.
    split; [by destruct q|]. split; [constructor|]. intros k.
    split; [by intros ?%not_elem_of_nil | by intros [?%not_elem_of_nil _]].
  - rewrite fmap_cons, list_to_set_cons. cbn [addAll]. unfold addOne. rewrite Hn, Hq.
    destruct (decide (keyOf pod ∈ set)) as [Hin | Hout].
    + rewrite bool_decide_eq_true_2 by done. simpl.
      destruct (IH q set Hq) as (new & -> & Hnd & Hnew).
      exists new. split; [|split; [done|]].
      * replace ({[keyOf pod]} ∪ list_to_set (keyOf <$> pods) ∪ set)
          with (list_to_set (keyOf <$> pods) ∪ set : gset QueueKey); [done|].
        apply set_eq. intros k. rewrite !elem_of_union, elem_of_singleton.
        split; [tauto|]. intros [[-> | ?] | ?]; tauto.
      * intros k. rewrite Hnew, elem_of_cons. split; [tauto|].
        intros [[-> | ?] ?]; [done | tauto].
    + rewrite bool_decide_eq_false_2 by done. simpl.
      edestruct (IH {| evictionMapping := <[n := {[keyOf pod]} ∪ set]> (evictionMapping q);
                       workqueue := workqueue q ++ [WQAdd (keyOf pod)] |}
                    ({[keyOf pod]} ∪ set)) as (new & -> & Hnd & Hnew).
      { simpl. apply lookup_insert_eq. }
      simpl. exists (keyOf pod :: new). split; [|split].
      * rewrite insert_insert_eq, <- app_assoc. simpl.
        replace (list_to_set (keyOf <$> pods) ∪ ({[keyOf pod]} ∪ set))
          with ({[keyOf pod]} ∪ list_to_set (keyOf <$> pods) ∪ set : gset QueueKey); [done|].
        apply set_eq. intros k. rewrite !elem_of_union. tauto.
      * constructor; [|done]. rewrite Hnew, elem_of_union, elem_of_singleton. tauto.
      * intros k. rewrite !elem_of_cons, Hnew, elem_of_union, elem_of_singleton.
        destruct (decide (k = keyOf pod)) as [-> |]; tauto.
Qed.

(** Adding pods that all sit on one node never fails; afterwards the
    queue has exactly the pods it had and the pods added; every key put on
    the work queue was not queued before and is put there once; adding the
    same pods again changes nothing. *)
Theorem Add_same_node (q : Queue) (pods : list PodRef) (n : string) :
  Forall (fun p => podNodeName p = n) pods ->
  exists q' new,
    Add q pods = Some q'
    /\ (forall p, Has q' p = true <-> Has q p = true \/ keyOf p ∈ keyOf <$> pods)
    /\ workqueue q' = workqueue q ++ (WQAdd <$> new)
    /\ NoDup new
    /\ (forall k, k ∈ new -> k ∈ keyOf <$> pods /\ Has q {| podNamespace := qkNamespace k;
                                                           podName := qkName k;
                                                           podNodeName := qkNodeName k |} = false)
    /\ Add q' pods = Some q'.
Proof.
  intros Hall. destruct pods as [| pod0 rest] eqn:Hpods.
  { exists q, []. simpl. rewrite app_nil_r. split; [done|]. split.
    - intros p. split; [by left | by intros [? | ?%not_elem_of_nil]].
    - split; [done|]. split; [constructor|]. split; [by intros k ?%not_elem_of_nil | done]. }
  rewrite <- Hpods in *.
  assert (Hn0 : podNodeName pod0 = n) by (subst pods; by inversion Hall).
  assert (Hkeys : forall p, keyOf p ∈ keyOf <$> pods -> podNodeName p = n).
  { intros p Hin. apply list_elem_of_fmap in Hin as (p' & Hk & Hin).
    rewrite Forall_forall in Hall. rewrite <- (Hall p' Hin).
    by apply (f_equal qkNodeName) in Hk. }
  set (set0 := default ∅ (evictionMapping q !! n)).
  set (q0 := match evictionMapping q !! podNodeName pod0 with
             | Some _ => q
             | None => {| evictionMapping := <[ podNodeName pod0 := ∅ ]> (evictionMapping q);
                          workqueue := workqueue q |}
             end).
  assert (Hq0 : evictionMapping q0 !! n = Some set0 /\ workqueue q0 = workqueue q
                /\ forall k, k <> n -> evictionMapping q0 !! k = evictionMapping q !! k).
  { unfold q0, set0. rewrite Hn0. destruct (evictionMapping q !! n) eqn:E; simpl.
    - done.
    - rewrite lookup_insert_eq. repeat split; try done. intros k Hk. by rewrite lookup_insert_ne. }
  destruct Hq0 as (Hq0 & Hwq0 & Hother).
  destruct (addAll_same_node n pods Hall q0 set0 Hq0) as (new & Hadd & Hnd & Hnew).
  assert (HAdd : Add q pods = addAll q0 pods) by (subst pods; reflexivity).
  eexists _, new. split; [by rewrite HAdd, Hadd|]. simpl.
  assert (Hhas : forall p, Has q p = true <-> podNodeName p = n /\ keyOf p ∈ set0
                                             \/ podNodeName p <> n /\ Has q p = true).
  { intros p. unfold Has, set0. destruct (decide (podNodeName p = n)) as [Hp | Hp].
    - rewrite Hp. destruct (evictionMapping q !! n); simpl.
      + rewrite bool_decide_eq_true. split; [by left | by intros [[_ ?] | [? _]]].
      + split; [done | by intros [[_ ?%not_elem_of_empty] | [? _]]].
    - split; [by right | by intros [[? _] | [_ ?]]]. }
  split; [|split; [by rewrite Hwq0|split; [done|split]]].
  - intros p. rewrite Hhas. unfold Has at 1. simpl.
    destruct (decide (podNodeName p = n)) as [Hp | Hp].
    + rewrite Hp, lookup_insert_eq, bool_decide_eq_true, elem_of_union, elem_of_list_to_set. tauto.
    + rewrite lookup_insert_ne, Hother by done. fold (Has q p).
      split; [tauto|]. intros [[[? ?] | [? ?]] | Hin]; try done. by apply Hkeys in Hin.
  - intros k Hk. apply Hnew in Hk as [Hin Hout]. split; [done|].
    apply not_true_is_false. rewrite Hhas. simpl.
    assert (keyOf {| podNamespace := qkNamespace k; podName := qkName k;
                     podNodeName := qkNodeName k |} = k) as Hkk by (by destruct k).
    rewrite Hkk. intros [[_ ?] | [Hne _]]; [done|].
    apply Hne. rewrite <- Hkk in Hin. by apply Hkeys in Hin.
  - set (q' := {| evictionMapping := _ |}).
    assert (Hq' : evictionMapping q' !! n = Some (list_to_set (keyOf <$> pods) ∪ set0))
      by apply lookup_insert_eq.
    assert (HAdd' : Add q' pods = addAll q' pods).
    { rewrite Hpods. unfold Add. rewrite Hn0, Hq'. by rewrite <- Hpods. }
    rewrite HAdd'.
    destruct (addAll_same_node n pods Hall q' _ Hq') as (new' & -> & _ & Hnew').
    assert (new' = []) as ->.
    { destruct new' as [| k ?]; [done|]. exfalso.
      destruct (Hnew' k) as [Hk _]. destruct Hk as [Hin Hout]; [by left|].
      apply Hout. apply elem_of_union. left. by apply elem_of_list_to_set. }
    unfold q'. simpl. rewrite app_nil_r, insert_insert_eq. do 3 f_equal.
    apply set_eq. intros k. rewrite !elem_of_union. tauto.
Qed.

Lemma addAll_app (q : Queue) (l1 l2 : list PodRef) :
  addAll q (l1 ++ l2) = addAll q l1 ≫= fun q' => addAll q' l2.
Proof.
  revert q. induction l1 as [| p l1 IH]; intros q; simpl; [done|].
  destruct (addOne q p) as [q'|]; simpl; [apply IH | done].
Qed.

(** [Add] allocates the set of the first pod's node only: when the pods
    up to some pod sit on the first pod's node and that pod sits on another
    node, one the queue has no entry for, the insertion into the missing
    set panics. *)
Theorem Add_other_node_panics (q : Queue) (pod0 pod : PodRef) (pre post : list PodRef) :
  Forall (fun p => podNodeName p = podNodeName pod0) pre ->
  podNodeName pod <> podNodeName pod0 ->
  evictionMapping q !! podNodeName pod = None ->
  Add q (pod0 :: pre ++ pod :: post) = None.
Proof.
  intros Hpre Hne Hnone. unfold Add.
  set (q0 := match evictionMapping q !! podNodeName pod0 with
             | Some _ => q
             | None => _
             end).
  assert (Hq0 : is_Some (evictionMapping q0 !! podNodeName pod0)
                /\ evictionMapping q0 !! podNodeName pod = None).
  { unfold q0. destruct (evictionMapping q !! podNodeName pod0) eqn:E; simpl.
    - by rewrite E.
    - rewrite lookup_insert_eq, lookup_insert_ne by done. done. }
  destruct Hq0 as [[set0 Hset0] Hq0].
  change (pod0 :: pre ++ pod :: post) with ((pod0 :: pre) ++ pod :: post).
  rewrite addAll_app.
  destruct (addAll_same_node (podNodeName pod0) (pod0 :: pre)) with (q := q0) (set := set0)
    as (new & -> & _); [by constructor | done |].
  simpl. unfold addOne. simpl. by rewrite lookup_insert_ne, Hq0.
Qed.



Lemma Add_same_node_witness :
  exists q', Add emptyQueue [examplePodRef "a" "n1"; examplePodRef "b" "n1"] = Some q'
             /\ Has q' (examplePodRef "b" "n1") = true.
Proof.
  destruct (Add_same_node emptyQueue [examplePodRef "a" "n1"; examplePodRef "b" "n1"] "n1")
    as (q' & new & HA & HH & _).
  - repeat constructor.
  - exists q'. split; [exact HA|]. apply HH. right. right. left.
Defined.

Lemma Add_other_node_panics_witness :
  Add emptyQueue [examplePodRef "a" "n1"; examplePodRef "b" "n2"] = None.
Proof.
  apply (Add_other_node_panics emptyQueue (examplePodRef "a" "n1") (examplePodRef "b" "n2") [] []).
  - constructor.
  - discriminate.
  - reflexivity.
Defined.

End EvictionFacts.

(** ** Node pool limits (nodepool.go) *)

Module NodePoolFacts.
Import Resource NodePool.

(** [ExceededBy] returns no error exactly when the limits are nil or every
    resource in use that has a limit is within it (resources without a
    limit are not looked at); an error it returns names a resource whose
    usage is above its limit. *)
Theorem ExceededBy_spec (l : option ResourceList) (resources : ResourceList) :
  (ExceededBy l resources = None <->
   forall limits k usage limit,
     l = Some limits -> resources !! k = Some usage -> limits !! k = Some limit ->
     usage <= limit)
  /\ (forall k usage limit,
        ExceededBy l resources = Some (k, usage, limit) ->
        resources !! k = Some usage /\ (l ≫= (.!! k)) = Some limit /\ limit < usage).
Proof.
  destruct l as [limits|]; simpl; [|split; [split; [done | done] | done]].
  assert (Hin : forall e, e ∈ omap (exceeds limits) (map_to_list resources) <->
                          resources !! e.1.1 = Some e.1.2 /\ limits !! e.1.1 = Some e.2
                          /\ e.2 < e.1.2).
  { intros [[k usage] limit]. rewrite list_elem_of_omap. simpl. split.
    - intros ([k' u'] & Hm & He). apply elem_of_map_to_list in Hm.
      unfold exceeds in He. simpl in He. destruct (limits !! k') as [lim|] eqn:El; [|done].
      destruct (bool_decide_reflect (Cmp u' lim = Gt)) as [Hgt|]; [|done].
      inversion He; subst. unfold Cmp in Hgt. rewrite Z.compare_gt_iff in Hgt. done.
    - intros (Hr & Hl & Hlt). exists (k, usage). split; [by apply elem_of_map_to_list|].
      unfold exceeds. simpl. rewrite Hl. rewrite bool_decide_eq_true_2; [done|].
      unfold Cmp. by rewrite Z.compare_gt_iff. }
  split.
  - split.
    + intros Hnone limits' k usage limit [= <-] Hr Hl.
      destruct (Z.le_gt_cases usage limit) as [|Hgt]; [done|exfalso].
      assert (Hk : (k, usage, limit) ∈ omap (exceeds limits) (map_to_list resources))
        by (apply Hin; simpl; repeat split; [done | done | lia]).
      destruct (omap (exceeds limits) (map_to_list resources)); [by apply not_elem_of_nil in Hk | done].
    + intros Hall. destruct (omap (exceeds limits) (map_to_list resources)) as [| e rest] eqn:Eo; [done|].
      exfalso. destruct (proj1 (Hin e)) as (Hr & Hl & Hlt); [left|].
      specialize (Hall limits _ _ _ eq_refl Hr Hl). lia.
  - intros k usage limit Hh.
    destruct (omap (exceeds limits) (map_to_list resources)) as [| e rest] eqn:Eo; [done|].
    simpl in Hh. inversion Hh; subst e.
    apply (proj1 (Hin (k, usage, limit))). left.
Qed.

End NodePoolFacts.
